(** * ai_wargame: a shallow embedding of the game core and its search engine

    The definitions follow [src/ai_wargame.py] function by function and keep
    its names.  Python integers are [Z]; the board is the list of rows the
    program builds; exceptions that the claims talk about ([IndexError] of a
    string index, [UnboundLocalError] of a local read before assignment) are
    explicit in the [exc] type. *)

From Stdlib Require Import ZArith QArith Bool String Ascii List Lia DecimalString.
From stdpp Require Import base list gmap.

Local Open Scope Z_scope.

(** ** Enumerations *)

Inductive UnitType := AI | Tech | Virus | Program | Firewall.

Inductive Player := Attacker | Defender.

Module UnitTypeM.
(** [UnitType.value] *)
Definition value (t : UnitType) : Z :=
  match t with AI => 0 | Tech => 1 | Virus => 2 | Program => 3 | Firewall => 4 end.

Definition eqb (a b : UnitType) : bool := value a =? value b.

Definition name (t : UnitType) : string :=
  match t with
  | AI => "AI" | Tech => "Tech" | Virus => "Virus"
  | Program => "Program" | Firewall => "Firewall"
  end%string.
End UnitTypeM.

Module PlayerM.
Definition eqb (a b : Player) : bool :=
  match a, b with
  | Attacker, Attacker | Defender, Defender => true
  | _, _ => false
  end.

(** [Player.next] *)
Definition next (p : Player) : Player :=
  match p with Attacker => Defender | Defender => Attacker end.

Definition name (p : Player) : string :=
  match p with Attacker => "Attacker" | Defender => "Defender" end%string.
End PlayerM.

(** ** Exceptions *)

Inductive error := IndexError | UnboundLocalError | AttributeError.

Inductive exc (A : Type) : Type :=
| Ret (a : A)
| Raise (e : error).
Arguments Ret {A} a.
Arguments Raise {A} e.

Definition ebind {A B} (m : exc A) (k : A -> exc B) : exc B :=
  match m with Ret a => k a | Raise e => Raise e end.

(** ** Units *)

Record Unit := mkUnit { player : Player; type : UnitType; health : Z }.

(** Python list indexing with a non-negative index known to be in range is
    [nth]; the two class tables are indexed by [UnitType.value] only. *)
Definition damage_table : list (list Z) :=
  [ [3; 3; 3; 3; 1];
    [1; 1; 6; 1; 1];
    [9; 6; 1; 6; 1];
    [3; 3; 3; 3; 1];
    [1; 1; 1; 1; 1] ].

Definition repair_table : list (list Z) :=
  [ [0; 1; 1; 0; 0];
    [3; 0; 0; 3; 3];
    [0; 0; 0; 0; 0];
    [0; 0; 0; 0; 0];
    [0; 0; 0; 0; 0] ].

Definition table_at (t : list (list Z)) (a b : UnitType) : Z :=
  nth (Z.to_nat (UnitTypeM.value b)) (nth (Z.to_nat (UnitTypeM.value a)) t []) 0.

Module UnitM.
Definition is_alive (u : Unit) : bool := health u >? 0.

(** [Unit.mod_health]: add the delta, then clamp into [0,9]. *)
Definition mod_health (u : Unit) (health_delta : Z) : Unit :=
  let h := health u + health_delta in
  mkUnit (player u) (type u)
         (if h <? 0 then 0 else if h >? 9 then 9 else h).

Definition damage_amount (self target : Unit) : Z :=
  let amount := table_at damage_table (type self) (type target) in
  if health target - amount <? 0 then health target else amount.

Definition repair_amount (self target : Unit) : Z :=
  let amount := table_at repair_table (type self) (type target) in
  if health target + amount >? 9 then 9 - health target else amount.

Definition eqb (a b : Unit) : bool :=
  PlayerM.eqb (player a) (player b) && UnitTypeM.eqb (type a) (type b)
  && (health a =? health b).
End UnitM.

(** ** Coordinates *)

Record Coord := mkCoord { row : Z; col : Z }.

Record CoordPair := mkCoordPair { src : Coord; dst : Coord }.

(** [s[i]] on a Python string: indices from [-len] to [len - 1] are
    accepted, negative ones count from the end, anything else raises. *)
Definition py_str_index (s : string) (i : Z) : exc string :=
  let n := Z.of_nat (String.length s) in
  let j := if i <? 0 then i + n else i in
  if (j <? 0) || (j >=? n) then Raise IndexError
  else match String.get (Z.to_nat j) s with
       | Some c => Ret (String c EmptyString)
       | None => Raise IndexError
       end.

Module CoordM.
Definition eqb (a b : Coord) : bool := (row a =? row b) && (col a =? col b).

Definition col_string (c : Coord) : exc string :=
  if col c <? 16 then py_str_index "0123456789abcdef" (col c) else Ret "?"%string.

Definition row_string (c : Coord) : exc string :=
  if row c <? 26 then py_str_index "ABCDEFGHIJKLMNOPQRSTUVWXYZ" (row c)
  else Ret "?"%string.

Definition to_string (c : Coord) : exc string :=
  ebind (row_string c) (fun r =>
  ebind (col_string c) (fun k => Ret (r ++ k)%string)).

(** [range(lo, hi)] *)
Definition range (lo hi : Z) : list Z :=
  map (fun k => lo + Z.of_nat k) (seq 0 (Z.to_nat (hi - lo))).

Definition iter_range (c : Coord) (dist : Z) : list Coord :=
  flat_map (fun r => map (fun k => mkCoord r k)
                         (range (col c - dist) (col c + 1 + dist)))
           (range (row c - dist) (row c + 1 + dist)).

Definition iter_adjacent (c : Coord) : list Coord :=
  [ mkCoord (row c - 1) (col c);
    mkCoord (row c) (col c - 1);
    mkCoord (row c + 1) (col c);
    mkCoord (row c) (col c + 1) ].
End CoordM.

Module CoordPairM.
Definition to_string (p : CoordPair) : exc string :=
  ebind (CoordM.to_string (src p)) (fun a =>
  ebind (CoordM.to_string (dst p)) (fun b => Ret (a ++ " " ++ b)%string)).

Definition iter_rectangle (p : CoordPair) : list Coord :=
  flat_map (fun r => map (fun k => mkCoord r k)
                         (CoordM.range (col (src p)) (col (dst p) + 1)))
           (CoordM.range (row (src p)) (row (dst p) + 1)).

Definition from_dim (dim : Z) : CoordPair :=
  mkCoordPair (mkCoord 0 0) (mkCoord (dim - 1) (dim - 1)).
End CoordPairM.

(** ** Options and game state *)

Record Options := mkOptions {
  dim : Z;
  max_depth : Z;
  max_turns : option Z;
  alpha_beta_opt : bool;      (* [Options.alpha_beta] *)
  heuristic : Z
}.

(** The fields of [Game] that belong to one node of the search tree.  The
    statistics, the time-out flag and the current depth are read and written
    through the root object only and live in [SearchState] below. *)
Record Game := mkGame {
  board : list (list (option Unit));
  next_player : Player;
  turns_played : Z;
  options : Options;
  _attacker_has_ai : bool;
  _defender_has_ai : bool
}.

(** [str(int)] *)
Definition z_to_string (z : Z) : string := NilZero.string_of_int (Z.to_int z).

Module GameM.
Definition is_valid_coord (g : Game) (c : Coord) : bool :=
  let d := dim (options g) in
  if (row c <? 0) || (row c >=? d) || (col c <? 0) || (col c >=? d)
  then false else true.

(** [self.board[coord.row][coord.col]], reached only behind
    [is_valid_coord]; on the dim x dim board that [__post_init__] builds
    both lookups succeed (lemma [board_lookup_safe]). *)
Definition cell (g : Game) (c : Coord) : option Unit :=
  match board g !! Z.to_nat (row c) with
  | Some r => match r !! Z.to_nat (col c) with
              | Some u => u
              | None => None
              end
  | None => None
  end.

Definition get (g : Game) (c : Coord) : option Unit :=
  if is_valid_coord g c then cell g c else None.

Definition with_board (g : Game) (b : list (list (option Unit))) : Game :=
  mkGame b (next_player g) (turns_played g) (options g)
         (_attacker_has_ai g) (_defender_has_ai g).

Definition set (g : Game) (c : Coord) (u : option Unit) : Game :=
  if is_valid_coord g c
  then with_board g (alter (fun r => <[Z.to_nat (col c) := u]> r)
                           (Z.to_nat (row c)) (board g))
  else g.

Definition remove_dead (g : Game) (c : Coord) : Game :=
  match get g c with
  | Some unit =>
      if negb (UnitM.is_alive unit) then
        let g1 := set g c None in
        if UnitTypeM.eqb (type unit) AI then
          if PlayerM.eqb (player unit) Attacker
          then mkGame (board g1) (next_player g1) (turns_played g1)
                      (options g1) false (_defender_has_ai g1)
          else mkGame (board g1) (next_player g1) (turns_played g1)
                      (options g1) (_attacker_has_ai g1) false
        else g1
      else g
  | None => g
  end.

(** [Game.mod_health]: the unit object in the cell is updated in place,
    then removed when dead. *)
Definition mod_health (g : Game) (c : Coord) (health_delta : Z) : Game :=
  match get g c with
  | Some target => remove_dead (set g c (Some (UnitM.mod_health target health_delta))) c
  | None => g
  end.

Definition restricted (t : UnitType) : bool :=
  match t with AI | Firewall | Program => true | _ => false end.

Definition is_valid_move (g : Game) (coords : CoordPair) : bool :=
  if negb (is_valid_coord g (src coords)) || negb (is_valid_coord g (dst coords))
  then false else
  match get g (src coords) with
  | None => false
  | Some unit =>
    if negb (PlayerM.eqb (player unit) (next_player g)) then false else
    match get g (dst coords) with
    | Some _ => false
    | None =>
      if PlayerM.eqb (player unit) Attacker && restricted (type unit)
         && ((row (dst coords) >? row (src coords))
             || (col (dst coords) >? col (src coords)))
      then false else
      if PlayerM.eqb (player unit) Defender && restricted (type unit)
         && ((row (dst coords) <? row (src coords))
             || (col (dst coords) <? col (src coords)))
      then false else
      if existsb (fun adj_coord =>
                    match get g adj_coord with
                    | Some adj_unit =>
                        restricted (type unit)
                        && negb (PlayerM.eqb (player adj_unit) (player unit))
                    | None => false
                    end) (CoordM.iter_adjacent (src coords))
      then false else
      existsb (fun adj_coord => CoordM.eqb (dst coords) adj_coord)
              (CoordM.iter_adjacent (src coords))
    end
  end.

Definition is_valid_attack (g : Game) (coords : CoordPair) : bool :=
  if negb (is_valid_coord g (src coords)) || negb (is_valid_coord g (dst coords))
  then false else
  match get g (src coords), get g (dst coords) with
  | Some unit_s, Some unit_t =>
      if PlayerM.eqb (player unit_s) (player unit_t) then false else
      existsb (fun adj => CoordM.eqb (dst coords) adj)
              (CoordM.iter_adjacent (src coords))
  | _, _ => false
  end.

Definition is_valid_repair (g : Game) (coords : CoordPair) : bool :=
  if negb (is_valid_coord g (src coords)) || negb (is_valid_coord g (dst coords))
  then false else
  match get g (src coords), get g (dst coords) with
  | Some unit_s, Some unit_t =>
      if negb (PlayerM.eqb (player unit_s) (player unit_t)) then false else
      if UnitM.repair_amount unit_s unit_t =? 0 then false else
      existsb (fun adj => CoordM.eqb (dst coords) adj)
              (CoordM.iter_adjacent (src coords))
  | _, _ => false
  end.

Definition can_self_destruct (g : Game) (coords : CoordPair) : bool :=
  if negb (is_valid_coord g (src coords)) || negb (is_valid_coord g (dst coords))
  then false else
  match get g (src coords) with
  | None => false
  | Some _ => if CoordM.eqb (src coords) (dst coords) then true else false
  end.
End GameM.

Module Moves.
Import GameM.

(** The f-string prefix [{self.next_player.name} - turn #{self.turns_played+1}: ]. *)
Definition turn_prefix (g : Game) : string :=
  (PlayerM.name (next_player g) ++ " - turn #"
     ++ z_to_string (turns_played g + 1) ++ ": ")%string.

(** [f"... <kind> {coords.src} -> {coords.dst}"]; the two [str(Coord)]
    calls are where an exception can come from. *)
Definition describe (head kind : string) (coords : CoordPair) : exc string :=
  ebind (CoordM.to_string (src coords)) (fun s =>
  ebind (CoordM.to_string (dst coords)) (fun d =>
    Ret (head ++ kind ++ s ++ " -> " ++ d)%string)).

(** The state changes of the four branches of [Game.perform_move]. *)
Definition do_move (g : Game) (coords : CoordPair) : Game :=
  let g1 := set g (dst coords) (get g (src coords)) in
  set g1 (src coords) None.

Definition do_attack (g : Game) (coords : CoordPair) (unit_s unit_t : Unit) : Game :=
  let damage_on_t := UnitM.damage_amount unit_s unit_t in
  let damage_on_s := UnitM.damage_amount unit_t unit_s in
  let g1 := mod_health g (src coords) (- damage_on_s) in
  mod_health g1 (dst coords) (- damage_on_t).

Definition do_repair (g : Game) (coords : CoordPair) (unit_s unit_t : Unit) : Game :=
  let repair_on_t := UnitM.repair_amount unit_s unit_t in
  mod_health g (dst coords) repair_on_t.

Definition do_self_destruct (g : Game) (coords : CoordPair) : Game :=
  let g1 := mod_health g (src coords) (-9) in
  fold_left (fun acc surrounding_coord => mod_health acc surrounding_coord (-2))
            (CoordM.iter_range (src coords) 1) g1.

(** [Game.perform_move]: the pair returned and the state after the call. *)
Definition perform_move (g : Game) (coords : CoordPair)
  : exc ((bool * string) * Game) :=
  if is_valid_move g coords then
    let g' := do_move g coords in
    ebind (describe (turn_prefix g') "move " coords) (fun s => Ret ((true, s), g'))
  else if is_valid_attack g coords then
    match get g (src coords), get g (dst coords) with
    | Some unit_s, Some unit_t =>
        let g' := do_attack g coords unit_s unit_t in
        ebind (describe (turn_prefix g') "attack " coords)
              (fun s => Ret ((true, s), g'))
    | _, _ => Raise AttributeError (* unreachable: the guard found both units *)
    end
  else if is_valid_repair g coords then
    match get g (src coords), get g (dst coords) with
    | Some unit_s, Some unit_t =>
        let g' := do_repair g coords unit_s unit_t in
        ebind (describe (turn_prefix g') "repair " coords)
              (fun s => Ret ((true, s), g'))
    | _, _ => Raise AttributeError (* unreachable, as above *)
    end
  else if can_self_destruct g coords then
    let g' := do_self_destruct g coords in
    ebind (describe (turn_prefix g') "self-destruct " coords)
          (fun s => Ret ((true, s), g'))
  else
    ebind (describe (PlayerM.name (next_player g)) " performed an invalid move " coords)
          (fun s => Ret ((false, s), g)).

Definition next_turn (g : Game) : Game :=
  mkGame (board g) (PlayerM.next (next_player g)) (turns_played g + 1)
         (options g) (_attacker_has_ai g) (_defender_has_ai g).

(** [Game.player_units], in board scan order. *)
Definition player_units (g : Game) (p : Player) : list (Coord * Unit) :=
  flat_map (fun coord =>
              match get g coord with
              | Some unit => if PlayerM.eqb (player unit) p then [(coord, unit)] else []
              | None => []
              end)
           (CoordPairM.iter_rectangle (CoordPairM.from_dim (dim (options g)))).

Definition has_winner (g : Game) : option Player :=
  if match max_turns (options g) with
     | Some mt => turns_played g >=? mt
     | None => false
     end
  then Some Defender
  else if _attacker_has_ai g then
         if _defender_has_ai g then None else Some Attacker
       else Some Defender.

Definition is_finished (g : Game) : bool :=
  match has_winner g with Some _ => true | None => false end.

(** One candidate of [get_children]: play it on a clone, keep the clone
    when the move succeeded. *)
Definition try_child (g : Game) (move : CoordPair) : exc (list (Game * CoordPair)) :=
  ebind (perform_move g move) (fun r =>
    match r with
    | ((true, _), nodeClone) => Ret [(next_turn nodeClone, move)]
    | ((false, _), _) => Ret []
    end).

(** Sequencing of generators that may raise. *)
Fixpoint concat_exc {A B} (f : A -> exc (list B)) (l : list A) : exc (list B) :=
  match l with
  | [] => Ret []
  | a :: l' => ebind (f a) (fun xs => ebind (concat_exc f l') (fun ys => Ret (xs ++ ys)))
  end.

(** [Game.get_children]: for every unit of the side to move, its four
    neighbours in [iter_adjacent] order, then the unit's own cell. *)
Definition get_children (g : Game) : exc (list (Game * CoordPair)) :=
  concat_exc (fun su : Coord * Unit =>
                concat_exc (fun d => try_child g (mkCoordPair (fst su) d))
                           (CoordM.iter_adjacent (fst su) ++ [fst su]))
             (player_units g (next_player g)).
End Moves.

(** ** Heuristics *)

Definition MAX_HEURISTIC_SCORE : Z := 2000000000.
Definition MIN_HEURISTIC_SCORE : Z := -2000000000.

Module Heuristics.
Import GameM Moves.

Definition is_minor (t : UnitType) : bool :=
  match t with Virus | Tech | Firewall | Program => true | AI => false end.

Definition e0_side (g : Game) (p : Player) : Z :=
  fold_left (fun count (cu : Coord * Unit) =>
               if is_minor (type (snd cu)) then count + 3
               else if UnitTypeM.eqb (type (snd cu)) AI then count + 9999
               else count)
            (player_units g p) 0.

Definition e0 (g : Game) : Z := e0_side g Attacker - e0_side g Defender.

Definition e1_side (g : Game) (p : Player) : Z :=
  fold_left (fun count (cu : Coord * Unit) =>
               if is_minor (type (snd cu)) then count + 3 * health (snd cu)
               else if UnitTypeM.eqb (type (snd cu)) AI then count + 999 * health (snd cu)
               else count)
            (player_units g p) 0.

Definition e1 (g : Game) : Z := e1_side g Attacker - e1_side g Defender.

(** The three weights [helper_e2] picks by unit type: Firewall/Program,
    Virus/Tech, AI. *)
Definition tier (t : UnitType) (low mid high : Z) : Z :=
  match t with
  | Firewall | Program => low
  | Virus | Tech => mid
  | AI => high
  end.

(** The body of the inner loop of [helper_e2] for one cell [coord_adj]
    around [unit]. *)
Definition e2_adj (g : Game) (unit : Unit) (count : Z) (coord_adj : Coord) : Z :=
  match get g coord_adj with
  | None => count
  | Some unit_adj =>
      if negb (PlayerM.eqb (player unit_adj) (next_player g)) then
        if UnitM.damage_amount unit_adj unit >=? health unit
        then count - tier (type unit) 2 5 9999 * health unit
        else count
      else
        let count1 := if UnitTypeM.eqb (type unit) AI then count + 999 else count in
        let repair := UnitM.repair_amount unit_adj unit in
        if (repair >? 0) && (health unit <? 9)
        then count1 + tier (type unit) 2 5 9999 * repair
        else count1
  end.

Definition helper_e2 (g : Game) (p : Player) : Z :=
  fold_left (fun count (cu : Coord * Unit) =>
               let count1 := count + tier (type (snd cu)) 3 9 99999 * health (snd cu) in
               fold_left (e2_adj g (snd cu)) (CoordM.iter_range (fst cu) 1) count1)
            (player_units g p) 0.

Definition e2 (g : Game) : Z := helper_e2 g Attacker - helper_e2 g Defender.

Definition e (g : Game) : Z :=
  if heuristic (options g) =? 0 then e0 g
  else if heuristic (options g) =? 1 then e1 g
  else if heuristic (options g) =? 2 then e2 g
  else e0 g.
End Heuristics.

(** ** Search engine *)

(** [Stats].  [average_branching_factor] is a Python float; it is kept as an
    exact rational, so rounding of the division is not modelled.
    [total_seconds] is wall-clock bookkeeping and is left out. *)
Record Stats := mkStats {
  evaluations_per_depth : gmap Z Z;
  average_branching_factor : Q;
  average_branching_size : Z
}.

(** What the root [Game] object carries for the search: the shared
    statistics, the time-out flag, the depth of the running iteration, and
    the number of elapsed-time checks made so far. *)
Record SearchState := mkSearchState {
  stats : Stats;
  is_time_out : bool;
  current_depth : Z;
  ticks : nat
}.

Definition Result : Type := Z * option CoordPair.

(** How a successor loop ends: by a [return] from inside the loop, or by
    falling out of it (exhaustion or [break]) with the loop variables. *)
Inductive LoopEnd (B : Type) :=
| Returned (r : Result) (st : SearchState)
| Fell (value_bestmove : Result) (branch_factor : B) (st : SearchState).
Arguments Returned {B} r st.
Arguments Fell {B} value_bestmove branch_factor st.

Module Search.
Import GameM Moves Heuristics.

Definition update_average_branching (st : SearchState) (branch_factor : Z) : SearchState :=
  let s := stats st in
  let n := average_branching_size s in
  mkSearchState
    (mkStats (evaluations_per_depth s)
             ((average_branching_factor s * inject_Z n + inject_Z branch_factor)
                / inject_Z (n + 1))%Q
             (n + 1))
    (is_time_out st) (current_depth st) (ticks st).

Definition update_evaluations_per_depth (st : SearchState) : SearchState :=
  let s := stats st in
  let d := current_depth st in
  let m := match evaluations_per_depth s !! d with
           | None => <[d := 0]> (evaluations_per_depth s)
           | Some _ => evaluations_per_depth s
           end in
  let m' := match m !! d with
            | Some k => <[d := k + 1]> m
            | None => m
            end in
  mkSearchState (mkStats m' (average_branching_factor s) (average_branching_size s))
                (is_time_out st) (current_depth st) (ticks st).

Definition set_time_out (st : SearchState) (b : bool) : SearchState :=
  mkSearchState (stats st) b (current_depth st) (ticks st).

Definition set_current_depth (st : SearchState) (d : Z) : SearchState :=
  mkSearchState (stats st) (is_time_out st) d (ticks st).

Definition tick (st : SearchState) : SearchState :=
  mkSearchState (stats st) (is_time_out st) (current_depth st) (S (ticks st)).

Section WithClock.
(** [clock n] is the outcome of the [n]-th evaluation of
    [elapsed_seconds >= self.options.max_time_adjusted] since the start
    of the search. *)
Variable clock : nat -> bool.

Definition Rec : Type :=
  Game -> Z -> Z -> bool -> SearchState -> exc (Result * SearchState).

(** The [for] loop of the maximizing branch of [alpha_beta]. *)
Fixpoint ab_max_loop (rec : Rec) (children : list (Game * CoordPair))
         (value_bestmove : Result) (alpha beta : Z) (branch_factor : Z)
         (st : SearchState) : exc (LoopEnd Z) :=
  match children with
  | [] => Ret (Fell value_bestmove branch_factor st)
  | (child, move) :: rest =>
      let branch_factor := branch_factor + 1 in
      ebind (rec child alpha beta false st) (fun r =>
        let '((alpha_beta_result, m), st1) := r in
        if is_time_out st1 then Ret (Returned (alpha_beta_result, m) st1) else
        let value_bestmove :=
          if alpha_beta_result >? fst value_bestmove
          then (alpha_beta_result, Some move) else value_bestmove in
        let alpha := if fst value_bestmove >? alpha then fst value_bestmove else alpha in
        if beta <=? alpha then Ret (Fell value_bestmove branch_factor st1)
        else ab_max_loop rec rest value_bestmove alpha beta branch_factor st1)
  end.

(** The [for] loop of the minimizing branch of [alpha_beta]; there
    [branch_factor] is first assigned inside the loop body. *)
Fixpoint ab_min_loop (rec : Rec) (children : list (Game * CoordPair))
         (value_bestmove : Result) (alpha beta : Z) (branch_factor : option Z)
         (st : SearchState) : exc (LoopEnd (option Z)) :=
  match children with
  | [] => Ret (Fell value_bestmove branch_factor st)
  | (child, move) :: rest =>
      let branch_factor := Some 0 in
      ebind (rec child alpha beta true st) (fun r =>
        let '((alpha_beta_result, m), st1) := r in
        if is_time_out st1 then Ret (Returned (alpha_beta_result, m) st1) else
        let value_bestmove :=
          if alpha_beta_result <? fst value_bestmove
          then (alpha_beta_result, Some move) else value_bestmove in
        let beta := if fst value_bestmove <? beta then fst value_bestmove else beta in
        if beta <=? alpha then Ret (Fell value_bestmove branch_factor st1)
        else ab_min_loop rec rest value_bestmove alpha beta branch_factor st1)
  end.

Fixpoint alpha_beta (depth : nat) (node : Game) (alpha beta : Z)
         (maximizingPlayer : bool) (st : SearchState)
  : exc (Result * SearchState) :=
  let st := tick st in
  if clock (pred (ticks st)) then Ret ((0, None), set_time_out st true) else
  match depth with
  | O => Ret ((e node, None), update_evaluations_per_depth st)
  | S depth' =>
    if is_finished node then Ret ((e node, None), update_evaluations_per_depth st)
    else
      ebind (get_children node) (fun children =>
      if maximizingPlayer then
        ebind (ab_max_loop (alpha_beta depth') children
                           (MIN_HEURISTIC_SCORE, None) alpha beta 0 st)
              (fun l => match l with
                        | Returned r st1 => Ret (r, st1)
                        | Fell vb bf st1 => Ret (vb, update_average_branching st1 bf)
                        end)
      else
        ebind (ab_min_loop (alpha_beta depth') children
                           (MAX_HEURISTIC_SCORE, None) alpha beta None st)
              (fun l => match l with
                        | Returned r st1 => Ret (r, st1)
                        | Fell vb (Some bf) st1 => Ret (vb, update_average_branching st1 bf)
                        | Fell _ None _ => Raise UnboundLocalError
                        end))
  end.

Definition RecMM : Type := Game -> bool -> SearchState -> exc (Result * SearchState).

(** The [for] loop of the maximizing branch of [minimax]. *)
Fixpoint mm_max_loop (rec : RecMM) (children : list (Game * CoordPair))
         (max_eval : Z) (best_move : option CoordPair) (branch_factor : Z)
         (st : SearchState) : exc (LoopEnd Z) :=
  match children with
  | [] => Ret (Fell (max_eval, best_move) branch_factor st)
  | (child, move) :: rest =>
      let branch_factor := branch_factor + 1 in
      ebind (rec child false st) (fun r =>
        let '((eval, m), st1) := r in
        if is_time_out st1 then Ret (Returned (eval, m) st1) else
        if eval >? max_eval
        then mm_max_loop rec rest eval (Some move) branch_factor st1
        else mm_max_loop rec rest max_eval best_move branch_factor st1)
  end.

(** The [for] loop of the minimizing branch of [minimax]. *)
Fixpoint mm_min_loop (rec : RecMM) (children : list (Game * CoordPair))
         (min_eval : Z) (best_move : option CoordPair) (branch_factor : Z)
         (st : SearchState) : exc (LoopEnd Z) :=
  match children with
  | [] => Ret (Fell (min_eval, best_move) branch_factor st)
  | (child, move) :: rest =>
      let branch_factor := branch_factor + 1 in
      ebind (rec child true st) (fun r =>
        let '((eval, m), st1) := r in
        if is_time_out st1 then Ret (Returned (eval, m) st1) else
        if eval <? min_eval
        then mm_min_loop rec rest eval (Some move) branch_factor st1
        else mm_min_loop rec rest min_eval best_move branch_factor st1)
  end.

Definition finish_loop (l : LoopEnd Z) : exc (Result * SearchState) :=
  match l with
  | Returned r st1 => Ret (r, st1)
  | Fell vb bf st1 => Ret (vb, update_average_branching st1 bf)
  end.

Fixpoint minimax (depth : nat) (game : Game) (maximizing_player : bool)
         (st : SearchState) : exc (Result * SearchState) :=
  let st := tick st in
  if clock (pred (ticks st)) then Ret ((0, None), set_time_out st true) else
  match depth with
  | O => Ret ((e game, None), update_evaluations_per_depth st)
  | S depth' =>
    if is_finished game then Ret ((e game, None), update_evaluations_per_depth st)
    else
      ebind (get_children game) (fun children =>
      if maximizing_player then
        ebind (mm_max_loop (minimax depth') children MIN_HEURISTIC_SCORE None 0 st)
              finish_loop
      else
        ebind (mm_min_loop (minimax depth') children MAX_HEURISTIC_SCORE None 0 st)
              finish_loop)
  end.

(** The iterative-deepening [for depth in range(1, max_depth+1)] loop
    shared by [alpha_beta_move] and [minimax_move]; [best] is [None]
    while [best_score] and [best_move] are still unassigned. *)
Fixpoint deepening (run : nat -> SearchState -> exc (Result * SearchState))
         (depths : list nat) (best : option Result) (st : SearchState)
  : exc (Result * SearchState) :=
  match depths with
  | [] => match best with
          | Some b => Ret (b, st)
          | None => Raise UnboundLocalError
          end
  | depth :: rest =>
      let st := set_current_depth st (Z.of_nat depth) in
      ebind (run depth st) (fun r =>
        let '(score_move, st1) := r in
        if is_time_out st1 then
          match best with
          | Some b => Ret (b, set_time_out st1 false)
          | None => Raise UnboundLocalError
          end
        else deepening run rest (Some score_move) st1)
  end.

(** [range(1, max_depth+1)] *)
Definition depth_range (g : Game) : list nat :=
  seq 1 (Z.to_nat (max_depth (options g))).

Definition alpha_beta_move (g : Game) (st : SearchState) : exc (Result * SearchState) :=
  let maximizingPlayer := PlayerM.eqb (next_player g) Attacker in
  deepening (fun depth =>
               alpha_beta depth g MIN_HEURISTIC_SCORE MAX_HEURISTIC_SCORE maximizingPlayer)
            (depth_range g) None st.

Definition minimax_move (g : Game) (st : SearchState) : exc (Result * SearchState) :=
  let maximizing_player := PlayerM.eqb (next_player g) Attacker in
  deepening (fun depth => minimax depth g maximizing_player)
            (depth_range g) None st.

(** [Game.suggest_move] without its printing: the move of the chosen
    driver. *)
Definition suggest_move (g : Game) (st : SearchState)
  : exc (option CoordPair * SearchState) :=
  ebind (if alpha_beta_opt (options g) then alpha_beta_move g st else minimax_move g st)
        (fun r => Ret (snd (fst r), snd r)).
End WithClock.
End Search.

(** ** The starting position *)

Module Initial.
Import GameM.

Definition empty_board (d : Z) : list (list (option Unit)) :=
  replicate (Z.to_nat d) (replicate (Z.to_nat d) None).

(** [Game.__post_init__] *)
Definition post_init (opts : Options) : Game :=
  let d := dim opts in
  let md := d - 1 in
  let g := mkGame (empty_board d) Attacker 0 opts true true in
  fold_left (fun acc (cu : Coord * Unit) => set acc (fst cu) (Some (snd cu)))
    [ (mkCoord 0 0, mkUnit Defender AI 9);
      (mkCoord 1 0, mkUnit Defender Tech 9);
      (mkCoord 0 1, mkUnit Defender Tech 9);
      (mkCoord 2 0, mkUnit Defender Firewall 9);
      (mkCoord 0 2, mkUnit Defender Firewall 9);
      (mkCoord 1 1, mkUnit Defender Program 9);
      (mkCoord md md, mkUnit Attacker AI 9);
      (mkCoord (md - 1) md, mkUnit Attacker Virus 9);
      (mkCoord md (md - 1), mkUnit Attacker Virus 9);
      (mkCoord (md - 2) md, mkUnit Attacker Program 9);
      (mkCoord md (md - 2), mkUnit Attacker Program 9);
      (mkCoord (md - 1) (md - 1), mkUnit Attacker Firewall 9) ]
    g.

(** [Options()] with the class defaults. *)
Definition default_options : Options := mkOptions 5 4 (Some 100) true 0.

Definition new_stats : Stats := mkStats ∅ 0%Q 0.

Definition new_search : SearchState := mkSearchState new_stats false 0 0.
End Initial.

(** ** Notions used to state the properties *)

(** A coordinate lies on the board. *)
Definition in_range (g : Game) (c : Coord) : Prop :=
  0 <= row c < dim (options g) /\ 0 <= col c < dim (options g).

(** The same position with another side to move. *)
Definition with_next_player (g : Game) (p : Player) : Game :=
  mkGame (board g) p (turns_played g) (options g)
         (_attacker_has_ai g) (_defender_has_ai g).

(** No cell next to [c] holds a unit of the player opposing [u]. *)
Definition no_adjacent_enemy (g : Game) (c : Coord) (u : Unit) : Prop :=
  forall adj au, In adj (CoordM.iter_adjacent c) ->
                 GameM.get g adj = Some au -> player au = player u.

(** The board has the shape [__post_init__] gives it: [dim] rows of [dim]
    cells. *)
Definition board_wf (g : Game) : Prop :=
  0 <= dim (options g)
  /\ length (board g) = Z.to_nat (dim (options g))
  /\ Forall (fun r => length r = Z.to_nat (dim (options g))) (board g).

(** Positions the game can reach from a starting position by successful
    actions, each followed by [next_turn] as the turn drivers do. *)
Inductive reachable (opts : Options) : Game -> Prop :=
| reach_init : reachable opts (Initial.post_init opts)
| reach_step g coords s g' :
    reachable opts g ->
    Moves.perform_move g coords = Ret ((true, s), g') ->
    reachable opts (Moves.next_turn g').

(** One turn as the drivers play it: the action, then [next_turn] when it
    succeeded; a refused action leaves the position as it was. *)
Definition play (g : Game) (coords : CoordPair) : Game :=
  match Moves.perform_move g coords with
  | Ret ((true, _), g') => Moves.next_turn g'
  | _ => g
  end.

Definition pair_of (r0 c0 r1 c1 : Z) : CoordPair :=
  mkCoordPair (mkCoord r0 c0) (mkCoord r1 c1).

(** The starting position of the default 5x5 game and three positions
    reached from it. *)
Definition game0 : Game := Initial.post_init Initial.default_options.

(** After the Attacker's Firewall at D3 has self-destructed: Defender to move,
    the Attacker's units around D3 are damaged. *)
Definition game_after_blast : Game := play game0 (pair_of 3 3 3 3).

(** After C4->C3, C0->C1, C3->C2: Defender to move, the Attacker's Program at
    C2 stands next to the Defender's Firewall at C1. *)
Definition game_contact : Game :=
  play (play (play game0 (pair_of 2 4 2 3)) (pair_of 2 0 2 1)) (pair_of 2 3 2 2).

(** The actions change the grid and the two has-AI flags only. *)
Definition same_turn (g g' : Game) : Prop :=
  next_player g' = next_player g /\ turns_played g' = turns_played g
  /\ options g' = options g.

(** An action of the side to move carried out with a unit of the other
    side. *)
Definition acts_with_enemy_unit (g : Game) (coords : CoordPair) : Prop :=
  exists u s g', GameM.get g (src coords) = Some u
    /\ player u <> next_player g
    /\ Moves.perform_move g coords = Ret ((true, s), g').

(** [helper_e2] as the specification words it: a neighbouring unit is an
    enemy or a friend of [unit] by its owner, whoever is to move. *)
Definition e2_adj_by_owner (g : Game) (unit : Unit) (count : Z) (coord_adj : Coord) : Z :=
  match GameM.get g coord_adj with
  | None => count
  | Some unit_adj =>
      if negb (PlayerM.eqb (player unit_adj) (player unit)) then
        if UnitM.damage_amount unit_adj unit >=? health unit
        then count - Heuristics.tier (type unit) 2 5 9999 * health unit
        else count
      else
        let count1 := if UnitTypeM.eqb (type unit) AI then count + 999 else count in
        let repair := UnitM.repair_amount unit_adj unit in
        if (repair >? 0) && (health unit <? 9)
        then count1 + Heuristics.tier (type unit) 2 5 9999 * repair
        else count1
  end.

Definition helper_e2_by_owner (g : Game) (p : Player) : Z :=
  fold_left (fun count (cu : Coord * Unit) =>
               let count1 := count + Heuristics.tier (type (snd cu)) 3 9 99999
                                     * health (snd cu) in
               fold_left (e2_adj_by_owner g (snd cu)) (CoordM.iter_range (fst cu) 1) count1)
            (Moves.player_units g p) 0.

(** The clock of a search during which the time budget never runs out. *)
Definition no_timeout : nat -> bool := fun _ => false.

(** After the opening move C4->C3 of the default game: Defender to move. *)
Definition game_defender_to_move : Game := play game0 (pair_of 2 4 2 3).

(** The side [p] still has its AI on the board. *)
Definition has_ai (g : Game) (p : Player) : Prop :=
  exists c u, GameM.get g c = Some u /\ player u = p /\ type u = AI.

(** The flag [_attacker_has_ai] or [_defender_has_ai] of a side. *)
Definition ai_flag (g : Game) (p : Player) : bool :=
  match p with Attacker => _attacker_has_ai g | Defender => _defender_has_ai g end.

(** A state whose board has the shape [__post_init__] gives it and whose
    has-AI flags are backed by the board: a flag still set means that AI is
    on the board. [remove_dead] is the only code that clears a flag. *)
Definition wf_game (g : Game) : Prop :=
  board_wf g /\ forall p, ai_flag g p = true -> has_ai g p.

(** ** The scores of the two searches as functions of the position

    When the clock never fires, the time-out returns inside the loops are
    never taken and the statistics do not influence the scores; what is left
    of [minimax] and [alpha_beta] are the following recursions over the list
    of successors. *)

(** The successors [get_children] lists. *)
Definition children_of (g : Game) : list (Game * CoordPair) :=
  match Moves.get_children g with
  | Ret l => l
  | Raise _ => []
  end.

Fixpoint mm_value (depth : nat) (g : Game) (maximizing : bool) : Z :=
  match depth with
  | O => Heuristics.e g
  | S d =>
      if Moves.is_finished g then Heuristics.e g
      else if maximizing
      then fold_left (fun m c => Z.max m (mm_value d (fst c) false))
                     (children_of g) MIN_HEURISTIC_SCORE
      else fold_left (fun m c => Z.min m (mm_value d (fst c) true))
                     (children_of g) MAX_HEURISTIC_SCORE
  end.

Fixpoint ab_max_value (rec : Game -> Z -> Z -> Z) (children : list (Game * CoordPair))
         (value alpha beta : Z) : Z :=
  match children with
  | [] => value
  | c :: rest =>
      let value := Z.max value (rec (fst c) alpha beta) in
      let alpha := Z.max alpha value in
      if beta <=? alpha then value else ab_max_value rec rest value alpha beta
  end.

Fixpoint ab_min_value (rec : Game -> Z -> Z -> Z) (children : list (Game * CoordPair))
         (value alpha beta : Z) : Z :=
  match children with
  | [] => value
  | c :: rest =>
      let value := Z.min value (rec (fst c) alpha beta) in
      let beta := Z.min beta value in
      if beta <=? alpha then value else ab_min_value rec rest value alpha beta
  end.

Fixpoint ab_value (depth : nat) (g : Game) (alpha beta : Z) (maximizing : bool) : Z :=
  match depth with
  | O => Heuristics.e g
  | S d =>
      if Moves.is_finished g then Heuristics.e g
      else if maximizing
      then ab_max_value (fun c a b => ab_value d c a b false)
                        (children_of g) MIN_HEURISTIC_SCORE alpha beta
      else ab_min_value (fun c a b => ab_value d c a b true)
                        (children_of g) MAX_HEURISTIC_SCORE alpha beta
  end.

(** A call of the search returned the score [v] and did not time out. *)
Definition returns_score (r : exc (Result * SearchState)) (v : Z) : Prop :=
  exists mv st', r = Ret ((v, mv), st') /\ is_time_out st' = false.

(** What relates the alpha-beta score [v] of a node searched in the window
    [(alpha, beta)] to its minimax score [m]: exact inside the window, and
    on the same side of the window outside it. *)
Definition within_window (m v alpha beta : Z) : Prop :=
  (m <= alpha -> v <= alpha) /\ (alpha < m < beta -> v = m) /\ (beta <= m -> beta <= v).




(** Every unit standing on the board is alive and within the health scale. *)
Definition units_alive (g : Game) : Prop :=
  forall c u, GameM.get g c = Some u -> 1 <= health u <= 9.

(** What [remove_dead] leaves in a cell holding [u]. *)
Definition survivor (u : Unit) : option Unit :=
  if UnitM.is_alive u then Some u else None.

(** What a cell holds after [Game.mod_health] was applied to it. *)
Definition after_mod_health (cell : option Unit) (health_delta : Z) : option Unit :=
  match cell with
  | Some t => survivor (UnitM.mod_health t health_delta)
  | None => None
  end.

(** The state [perform_move] leaves behind (the state itself when the call
    raises). *)
Definition play_on (g : Game) (coords : CoordPair) : Game :=
  match Moves.perform_move g coords with
  | Ret (_, g') => g'
  | Raise _ => g
  end.

(** ** Reading coordinates

    [Coord.from_string] and [CoordPair.from_string].  Text is a [string] of
    characters with code below 256.  [str.strip()] removes the white space of
    that range; [str.upper()] and [str.lower()] matter only through the
    look-up in the row letters and column digits, where a character outside
    ASCII is never found whatever its case, so they are the ASCII case
    changes. *)

Module Parsing.
(** [str.isspace] on one character. *)
Definition is_space (a : ascii) : bool :=
  let n := nat_of_ascii a in
  ((9 <=? n) && (n <=? 13) || (28 <=? n) && (n <=? 32)
   || (n =? 133) || (n =? 160))%nat.

Fixpoint strip_left (l : list ascii) : list ascii :=
  match l with
  | a :: rest => if is_space a then strip_left rest else l
  | [] => []
  end.

(** [s.strip()] *)
Definition strip (l : list ascii) : list ascii :=
  rev (strip_left (rev (strip_left l))).

(** One of the separators [" ,.:;-_"]. *)
Definition is_sep (a : ascii) : bool :=
  existsb (Ascii.eqb a) (list_ascii_of_string " ,.:;-_").

(** [for sep in " ,.:;-_": s = s.replace(sep, "")] *)
Definition remove_seps (l : list ascii) : list ascii :=
  List.filter (fun a => negb (is_sep a)) l.

Definition upper (a : ascii) : ascii :=
  let n := nat_of_ascii a in
  if ((97 <=? n) && (n <=? 122))%nat then ascii_of_nat (n - 32) else a.

Definition lower (a : ascii) : ascii :=
  let n := nat_of_ascii a in
  if ((65 <=? n) && (n <=? 90))%nat then ascii_of_nat (n + 32) else a.

(** [hay.find(ch)] for a one-character [ch]: the first index, or -1. *)
Fixpoint find_from (hay : list ascii) (ch : ascii) (i : Z) : Z :=
  match hay with
  | [] => -1
  | a :: rest => if Ascii.eqb a ch then i else find_from rest ch (i + 1)
  end.

Definition find (hay : string) (ch : ascii) : Z :=
  find_from (list_ascii_of_string hay) ch 0.

Definition row_of (a : ascii) : Z := find "ABCDEFGHIJKLMNOPQRSTUVWXYZ" (upper a).

Definition col_of (a : ascii) : Z := find "0123456789abcdef" (lower a).

(** [Coord.from_string] *)
Definition coord_from_string (s : string) : option Coord :=
  match remove_seps (strip (list_ascii_of_string s)) with
  | [a; b] => Some (mkCoord (row_of a) (col_of b))
  | _ => None
  end.

(** [CoordPair.from_string] *)
Definition pair_from_string (s : string) : option CoordPair :=
  match remove_seps (strip (list_ascii_of_string s)) with
  | [a; b; c; d] =>
      Some (mkCoordPair (mkCoord (row_of a) (col_of b)) (mkCoord (row_of c) (col_of d)))
  | _ => None
  end.
End Parsing.

(** [Game.move_candidates]: for every unit of the side to move, the legal
    moves to its four neighbours, then its own cell. *)
Definition move_candidates (g : Game) : list CoordPair :=
  flat_map (fun su : Coord * Unit =>
              List.filter (GameM.is_valid_move g)
                          (map (mkCoordPair (fst su)) (CoordM.iter_adjacent (fst su)))
              ++ [mkCoordPair (fst su) (fst su)])
           (Moves.player_units g (next_player g)).

(** A coordinate prints as one row letter and one column digit that
    [from_string] reads back. *)
Definition reads_back (c : Coord) : bool :=
  match CoordM.to_string c with
  | Ret s =>
      match list_ascii_of_string s with
      | [a; b] =>
          negb (Parsing.is_space a) && negb (Parsing.is_sep a)
          && negb (Parsing.is_space b) && negb (Parsing.is_sep b)
          && (Parsing.row_of a =? row c) && (Parsing.col_of b =? col c)
      | _ => false
      end
  | Raise _ => false
  end.

(** ** Counting heuristic evaluations *)

(** The leaves of the game tree below [g] cut at [depth]: the positions a
    full search of that depth hands to the heuristic. *)
Fixpoint mm_leaves (depth : nat) (g : Game) : Z :=
  match depth with
  | O => 1
  | S d =>
      if Moves.is_finished g then 1
      else fold_right (fun c n => mm_leaves d (fst c) + n) 0 (children_of g)
  end.

(** The count [evaluations_per_depth] holds for a depth, 0 when the depth
    has no entry yet. *)
Definition evals_at (st : SearchState) (d : Z) : Z :=
  match evaluations_per_depth (stats st) !! d with
  | Some k => k
  | None => 0
  end.

(** Between [st] and [st'] exactly [n] evaluations were recorded, all for
    the depth of the running iteration; the iteration depth did not change
    and no time-out was flagged. *)
Definition counted (st st' : SearchState) (n : Z) : Prop :=
  is_time_out st' = false
  /\ current_depth st' = current_depth st
  /\ evals_at st' (current_depth st) = evals_at st (current_depth st) + n
  /\ forall d, d <> current_depth st ->
       evaluations_per_depth (stats st') !! d = evaluations_per_depth (stats st) !! d.

(** A position the game can be played and printed in: well formed, only
    live units on the board, and a board no larger than the 16 printable
    columns. *)
Definition playable (g : Game) : Prop :=
  wf_game g /\ units_alive g /\ 0 <= dim (options g) <= 16.

(* ================================================================== *)
(** * Properties *)
(* ================================================================== *)

(** ** Unit/Combat *)

Lemma table_at_damage_bounds (a b : UnitType) :
  1 <= table_at damage_table a b <= 9.
Proof. destruct a, b; vm_compute; split; discriminate. Qed.

Lemma table_at_repair_bounds (a b : UnitType) :
  0 <= table_at repair_table a b <= 3.
Proof. destruct a, b; vm_compute; split; discriminate. Qed.

(** C6: for a target whose health is in [0,9], [damage_amount] is the
    minimum of the damage-table entry and the target's health,
    [repair_amount] is the minimum of the repair-table entry and
    [9 - health]; both are non-negative, and applying them keeps the
    target's health inside [0,9]. *)
Theorem damage_repair_amount_clamped (actor target : Unit) :
  0 <= health target <= 9 ->
  UnitM.damage_amount actor target
    = Z.min (table_at damage_table (type actor) (type target)) (health target)
  /\ UnitM.repair_amount actor target
    = Z.min (table_at repair_table (type actor) (type target)) (9 - health target)
  /\ 0 <= UnitM.damage_amount actor target
  /\ 0 <= UnitM.repair_amount actor target
  /\ 0 <= health target - UnitM.damage_amount actor target
  /\ health target + UnitM.repair_amount actor target <= 9.
Proof.
  intros Hh. unfold UnitM.damage_amount, UnitM.repair_amount.
  pose proof (table_at_damage_bounds (type actor) (type target)) as Hd.
  pose proof (table_at_repair_bounds (type actor) (type target)) as Hr.
  destruct (Z.ltb_spec (health target - table_at damage_table (type actor) (type target)) 0);
  destruct (Z.gtb_spec (health target + table_at repair_table (type actor) (type target)) 9);
  repeat split; lia.
Qed.

Lemma damage_repair_amount_clamped_witness :
  let virus := mkUnit Attacker Virus 9 in
  let ai := mkUnit Defender AI 4 in
  UnitM.damage_amount virus ai = 4 /\ UnitM.repair_amount (mkUnit Defender Tech 9) ai = 3.
Proof.
  intros virus ai.
  destruct (damage_repair_amount_clamped virus ai ltac:(simpl; lia)) as [Hd _].
  destruct (damage_repair_amount_clamped (mkUnit Defender Tech 9) ai ltac:(simpl; lia))
    as [_ [Hr _]].
  split; [rewrite Hd | rewrite Hr]; reflexivity.
Defined.

(** ** Win detection *)

(** C5: [has_winner] answers Defender as soon as a configured turn limit
    is reached, whatever the board and the flags; below the limit (or with
    no limit) it answers Defender when the Attacker's AI is dead, Attacker
    when the Attacker's AI lives and the Defender's is dead, and no winner
    when both live. *)
Theorem has_winner_cases (g : Game) :
  (forall mt, max_turns (options g) = Some mt -> turns_played g >= mt ->
              Moves.has_winner g = Some Defender)
  /\ ((max_turns (options g) = None
       \/ exists mt, max_turns (options g) = Some mt /\ turns_played g < mt) ->
      (_attacker_has_ai g = false -> Moves.has_winner g = Some Defender)
      /\ (_attacker_has_ai g = true -> _defender_has_ai g = false ->
          Moves.has_winner g = Some Attacker)
      /\ (_attacker_has_ai g = true -> _defender_has_ai g = true ->
          Moves.has_winner g = None)).
Proof.
  unfold Moves.has_winner. split.
  - intros mt -> Hge. destruct (Z.geb_spec (turns_played g) mt); [reflexivity | lia].
  - intros Hlim.
    assert (match max_turns (options g) with
            | Some mt => turns_played g >=? mt
            | None => false
            end = false) as ->.
    { destruct Hlim as [-> | [mt [-> Hlt]]]; [reflexivity |].
      destruct (Z.geb_spec (turns_played g) mt); [lia | reflexivity]. }
    repeat split; intros; repeat match goal with H : _ = _ |- _ => rewrite H end; reflexivity.
Qed.

Lemma has_winner_cases_witness :
  Moves.has_winner (mkGame [] Attacker 100 Initial.default_options true true) = Some Defender
  /\ Moves.has_winner (mkGame [] Attacker 7 Initial.default_options true false) = Some Attacker.
Proof.
  split.
  - apply (proj1 (has_winner_cases (mkGame [] Attacker 100 Initial.default_options true true))
                 100); [reflexivity | simpl; lia].
  - apply (proj2 (has_winner_cases (mkGame [] Attacker 7 Initial.default_options true false))).
    + right. exists 100. split; [reflexivity | simpl; lia].
    + reflexivity.
    + reflexivity.
Defined.

(** ** Legality of a move *)

Lemma is_valid_coord_in_range (g : Game) (c : Coord) :
  GameM.is_valid_coord g c = true <-> in_range g c.
Proof.
  unfold GameM.is_valid_coord, in_range.
  destruct (Z.ltb_spec (row c) 0), (Z.geb_spec (row c) (dim (options g))),
    (Z.ltb_spec (col c) 0), (Z.geb_spec (col c) (dim (options g)));
    simpl; split; intros; try discriminate; try reflexivity; lia.
Qed.

Lemma PlayerM_eqb_eq (a b : Player) : PlayerM.eqb a b = true <-> a = b.
Proof. destruct a, b; simpl; split; intros; congruence. Qed.

Lemma CoordM_eqb_eq (a b : Coord) : CoordM.eqb a b = true <-> a = b.
Proof.
  destruct a as [r1 c1], b as [r2 c2]; unfold CoordM.eqb; simpl.
  rewrite andb_true_iff, !Z.eqb_eq. split; [intros [-> ->]; reflexivity|].
  intros H; injection H; auto.
Qed.

Lemma adjacent_existsb (a b : Coord) :
  existsb (fun adj => CoordM.eqb b adj) (CoordM.iter_adjacent a) = true
  <-> In b (CoordM.iter_adjacent a).
Proof.
  rewrite existsb_exists. split.
  - intros [x [Hin Heq]]. apply CoordM_eqb_eq in Heq. subst. assumption.
  - intros Hin. exists b. split; [assumption | apply CoordM_eqb_eq; reflexivity].
Qed.

Lemma combat_lock_existsb (g : Game) (c : Coord) (u : Unit) :
  existsb (fun adj_coord =>
             match GameM.get g adj_coord with
             | Some adj_unit =>
                 GameM.restricted (type u)
                 && negb (PlayerM.eqb (player adj_unit) (player u))
             | None => false
             end) (CoordM.iter_adjacent c) = false
  <-> (GameM.restricted (type u) = true -> no_adjacent_enemy g c u).
Proof.
  rewrite <- not_true_iff_false, existsb_exists. unfold no_adjacent_enemy. split.
  - intros Hno Hr adj au Hin Hget.
    destruct (PlayerM.eqb (player au) (player u)) eqn:E;
      [apply PlayerM_eqb_eq; assumption|].
    exfalso. apply Hno. exists adj. split; [assumption|].
    rewrite Hget, Hr, E. reflexivity.
  - intros Hall [adj [Hin Hb]].
    destruct (GameM.get g adj) as [au|] eqn:Hget; [|discriminate].
    apply andb_true_iff in Hb. destruct Hb as [Hr Hne].
    specialize (Hall Hr adj au Hin Hget).
    apply PlayerM_eqb_eq in Hall. rewrite Hall in Hne. discriminate.
Qed.

Lemma attacker_direction_check (u : Unit) (sr sc dr dc : Z) :
  PlayerM.eqb (player u) Attacker && GameM.restricted (type u)
    && ((dr >? sr) || (dc >? sc)) = false
  <-> (GameM.restricted (type u) = true -> player u = Attacker -> dr <= sr /\ dc <= sc).
Proof.
  destruct (player u), (GameM.restricted (type u)); simpl;
    destruct (Z.gtb_spec dr sr), (Z.gtb_spec dc sc); simpl; split; intros;
    try reflexivity; try discriminate; try lia;
    match goal with H : _ -> _ -> _ /\ _ |- _ => specialize (H eq_refl eq_refl); lia end.
Qed.

Lemma defender_direction_check (u : Unit) (sr sc dr dc : Z) :
  PlayerM.eqb (player u) Defender && GameM.restricted (type u)
    && ((dr <? sr) || (dc <? sc)) = false
  <-> (GameM.restricted (type u) = true -> player u = Defender -> dr >= sr /\ dc >= sc).
Proof.
  destruct (player u), (GameM.restricted (type u)); simpl;
    destruct (Z.ltb_spec dr sr), (Z.ltb_spec dc sc); simpl; split; intros;
    try reflexivity; try discriminate; try lia;
    match goal with H : _ -> _ -> _ /\ _ |- _ => specialize (H eq_refl eq_refl); lia end.
Qed.

Lemma guard_chain (a b c d : bool) :
  (if a then false else if b then false else if c then false else d) = true
  <-> a = false /\ b = false /\ c = false /\ d = true.
Proof. destruct a, b, c, d; simpl; intuition discriminate. Qed.

(** C4: [is_valid_move] answers true exactly when both coordinates are on
    the board, the source holds a unit of the side to move, the destination
    is empty and is one of the four orthogonal neighbours of the source,
    and, for an AI, Firewall or Program, no neighbouring cell holds an enemy
    unit and the step does not increase row or column (Attacker) or does
    not decrease them (Defender).  It is a total boolean function, so every
    other input, out-of-range coordinates included, gives false. *)
Theorem is_valid_move_spec (g : Game) (coords : CoordPair) :
  GameM.is_valid_move g coords = true <->
  in_range g (src coords) /\ in_range g (dst coords)
  /\ exists u, GameM.get g (src coords) = Some u
       /\ player u = next_player g
       /\ GameM.get g (dst coords) = None
       /\ In (dst coords) (CoordM.iter_adjacent (src coords))
       /\ (GameM.restricted (type u) = true ->
           no_adjacent_enemy g (src coords) u
           /\ (player u = Attacker ->
               row (dst coords) <= row (src coords) /\ col (dst coords) <= col (src coords))
           /\ (player u = Defender ->
               row (dst coords) >= row (src coords) /\ col (dst coords) >= col (src coords))).
Proof.
  unfold GameM.is_valid_move.
  rewrite <- !is_valid_coord_in_range.
  destruct (GameM.is_valid_coord g (src coords)) eqn:Hs; cbn [negb orb];
    [| split; [discriminate | intros [H _]; discriminate]].
  destruct (GameM.is_valid_coord g (dst coords)) eqn:Hd; cbn [negb orb];
    [| split; [discriminate | intros [_ [H _]]; discriminate]].
  destruct (GameM.get g (src coords)) as [u|] eqn:Hu;
    [| split; [discriminate | intros [_ [_ [u' [H _]]]]; discriminate]].
  destruct (PlayerM.eqb (player u) (next_player g)) eqn:Hp; cbn [negb].
  2:{ split; [discriminate|]. intros [_ [_ [u' [Hu' [Hpl _]]]]].
      injection Hu' as <-. apply PlayerM_eqb_eq in Hpl. congruence. }
  apply PlayerM_eqb_eq in Hp.
  destruct (GameM.get g (dst coords)) as [v|] eqn:Hv;
    [split; [discriminate | intros [_ [_ [u' [_ [_ [H _]]]]]]; discriminate]|].
  rewrite guard_chain, attacker_direction_check, defender_direction_check,
    combat_lock_existsb, adjacent_existsb.
  split.
  - intros [Ha [Hdf [Hl Hin]]]. split; [reflexivity|]. split; [reflexivity|].
    exists u. split; [reflexivity|]. split; [assumption|]. split; [reflexivity|].
    split; [assumption|]. intros Hr. split; [apply Hl; assumption|].
    split; intros Hpl; [apply Ha | apply Hdf]; assumption.
  - intros [_ [_ [u' [Hu' [_ [_ [Hin Hc]]]]]]]. injection Hu' as <-.
    split; [intros Hr Hpl; apply (Hc Hr); assumption|].
    split; [intros Hr Hpl; apply (Hc Hr); assumption|].
    split; [intros Hr; apply (Hc Hr) | assumption].
Qed.

(** ** Applying an action *)

Lemma get_with_next_player (g : Game) (p : Player) (c : Coord) :
  GameM.get (with_next_player g p) c = GameM.get g c.
Proof. reflexivity. Qed.

(** A coordinate below the printable range makes [str(Coord)] raise. *)
Lemma to_string_raises_low_row (c : Coord) :
  row c < -26 -> CoordM.to_string c = Raise IndexError.
Proof.
  intros H. unfold CoordM.to_string, CoordM.row_string, py_str_index.
  destruct (Z.ltb_spec (row c) 26); [|lia]. simpl String.length.
  destruct (Z.ltb_spec (row c) 0); [|lia].
  destruct (Z.ltb_spec (row c + Z.of_nat 26) 0); [reflexivity | lia].
Qed.

(** Coordinates that [str(Coord)] can print. *)
Lemma to_string_total (c : Coord) :
  -26 <= row c -> -16 <= col c -> exists s, CoordM.to_string c = Ret s.
Proof.
  intros Hr Hc. unfold CoordM.to_string.
  assert (exists a, CoordM.row_string c = Ret a) as [a ->].
  { unfold CoordM.row_string, py_str_index.
    destruct (Z.ltb_spec (row c) 26); [|eexists; reflexivity].
    simpl String.length.
    set (j := if row c <? 0 then row c + Z.of_nat 26 else row c).
    assert (0 <= j < 26) as Hj by (subst j; destruct (Z.ltb_spec (row c) 0); lia).
    destruct (Z.ltb_spec j 0); [lia|]. destruct (Z.geb_spec j (Z.of_nat 26)); [lia|].
    simpl. assert (exists n, Z.to_nat j = n /\ (n < 26)%nat) as [n [-> Hn]]
      by (eexists; split; [reflexivity | lia]).
    do 26 (destruct n as [|n]; [eexists; reflexivity|]). lia. }
  assert (exists b, CoordM.col_string c = Ret b) as [b ->].
  { unfold CoordM.col_string, py_str_index.
    destruct (Z.ltb_spec (col c) 16); [|eexists; reflexivity].
    simpl String.length.
    set (j := if col c <? 0 then col c + Z.of_nat 16 else col c).
    assert (0 <= j < 16) as Hj by (subst j; destruct (Z.ltb_spec (col c) 0); lia).
    destruct (Z.ltb_spec j 0); [lia|]. destruct (Z.geb_spec j (Z.of_nat 16)); [lia|].
    simpl. assert (exists n, Z.to_nat j = n /\ (n < 16)%nat) as [n [-> Hn]]
      by (eexists; split; [reflexivity | lia]).
    do 16 (destruct n as [|n]; [eexists; reflexivity|]). lia. }
  eexists; reflexivity.
Qed.

Lemma invalid_coord_refused (g : Game) (coords : CoordPair) :
  GameM.is_valid_coord g (src coords) = false ->
  GameM.is_valid_move g coords = false /\ GameM.is_valid_attack g coords = false
  /\ GameM.is_valid_repair g coords = false /\ GameM.can_self_destruct g coords = false.
Proof.
  intros H. unfold GameM.is_valid_move, GameM.is_valid_attack, GameM.is_valid_repair,
    GameM.can_self_destruct. rewrite H. repeat split; reflexivity.
Qed.

(** C3 (the code departs from it): for every state, a coordinate pair whose
    source row is below -26 makes [perform_move] raise [IndexError] while it
    formats the failure description, instead of returning
    [(False, description)]. *)
Theorem perform_move_raises_below_printable_rows (g : Game) (coords : CoordPair) :
  row (src coords) < -26 -> 0 <= dim (options g) ->
  Moves.perform_move g coords = Raise IndexError.
Proof.
  intros Hrow Hdim.
  assert (GameM.is_valid_coord g (src coords) = false) as Hinv.
  { apply not_true_iff_false. intros Hv. apply is_valid_coord_in_range in Hv.
    destruct Hv as [[? ?] _]. lia. }
  destruct (invalid_coord_refused g coords Hinv) as [Hm [Ha [Hr Hs]]].
  unfold Moves.perform_move. rewrite Hm, Ha, Hr, Hs.
  unfold Moves.describe. rewrite (to_string_raises_low_row _ Hrow). reflexivity.
Qed.

Lemma perform_move_raises_below_printable_rows_witness :
  Moves.perform_move game0 (pair_of (-27) 0 0 0) = Raise IndexError.
Proof.
  apply perform_move_raises_below_printable_rows; simpl; lia.
Defined.

Lemma same_turn_refl (g : Game) : same_turn g g.
Proof. repeat split. Qed.

Lemma same_turn_trans (a b c : Game) : same_turn a b -> same_turn b c -> same_turn a c.
Proof. unfold same_turn. intros [? [? ?]] [? [? ?]]. repeat split; congruence. Qed.

Lemma set_same_turn (g : Game) (c : Coord) (u : option Unit) : same_turn g (GameM.set g c u).
Proof. unfold GameM.set. destruct (GameM.is_valid_coord g c); repeat split. Qed.

Lemma remove_dead_same_turn (g : Game) (c : Coord) : same_turn g (GameM.remove_dead g c).
Proof.
  unfold GameM.remove_dead.
  destruct (GameM.get g c) as [u|]; [|apply same_turn_refl].
  destruct (negb (UnitM.is_alive u)); [|apply same_turn_refl].
  pose proof (set_same_turn g c None) as [H1 [H2 H3]].
  destruct (UnitTypeM.eqb (type u) AI); [|repeat split; assumption].
  destruct (PlayerM.eqb (player u) Attacker); repeat split; assumption.
Qed.

Lemma mod_health_same_turn (g : Game) (c : Coord) (d : Z) :
  same_turn g (GameM.mod_health g c d).
Proof.
  unfold GameM.mod_health. destruct (GameM.get g c); [|apply same_turn_refl].
  eapply same_turn_trans; [apply set_same_turn | apply remove_dead_same_turn].
Qed.

Lemma fold_mod_health_same_turn (l : list Coord) (d : Z) (g : Game) :
  same_turn g (fold_left (fun acc c => GameM.mod_health acc c d) l g).
Proof.
  revert g. induction l as [|c l IH]; intros g; simpl; [apply same_turn_refl|].
  eapply same_turn_trans; [apply mod_health_same_turn | apply IH].
Qed.

Lemma do_move_same_turn g coords : same_turn g (Moves.do_move g coords).
Proof.
  unfold Moves.do_move. eapply same_turn_trans; apply set_same_turn.
Qed.

Lemma do_attack_same_turn g coords us ut : same_turn g (Moves.do_attack g coords us ut).
Proof.
  unfold Moves.do_attack. eapply same_turn_trans; apply mod_health_same_turn.
Qed.

Lemma do_repair_same_turn g coords us ut : same_turn g (Moves.do_repair g coords us ut).
Proof. unfold Moves.do_repair. apply mod_health_same_turn. Qed.

Lemma do_self_destruct_same_turn g coords : same_turn g (Moves.do_self_destruct g coords).
Proof.
  unfold Moves.do_self_destruct.
  eapply same_turn_trans; [apply mod_health_same_turn | apply fold_mod_health_same_turn].
Qed.

Lemma turn_prefix_same_turn (g g' : Game) :
  same_turn g g' -> Moves.turn_prefix g' = Moves.turn_prefix g.
Proof. intros [H1 [H2 _]]. unfold Moves.turn_prefix. rewrite H1, H2. reflexivity. Qed.

(** What [perform_move] does on coordinates that can be printed: the four
    interpretations in the order move, attack, repair, self-destruct, each
    with [True] and its description, and otherwise [False], a diagnostic,
    and the state exactly as it was. *)
Lemma perform_move_priority (g : Game) (coords : CoordPair) (a b : string) :
  CoordM.to_string (src coords) = Ret a ->
  CoordM.to_string (dst coords) = Ret b ->
  let text kind := (Moves.turn_prefix g ++ kind ++ a ++ " -> " ++ b)%string in
  (GameM.is_valid_move g coords = true ->
   Moves.perform_move g coords = Ret ((true, text "move "%string), Moves.do_move g coords))
  /\ (GameM.is_valid_move g coords = false -> GameM.is_valid_attack g coords = true ->
      exists us ut, GameM.get g (src coords) = Some us /\ GameM.get g (dst coords) = Some ut
        /\ Moves.perform_move g coords
           = Ret ((true, text "attack "%string), Moves.do_attack g coords us ut))
  /\ (GameM.is_valid_move g coords = false -> GameM.is_valid_attack g coords = false ->
      GameM.is_valid_repair g coords = true ->
      exists us ut, GameM.get g (src coords) = Some us /\ GameM.get g (dst coords) = Some ut
        /\ Moves.perform_move g coords
           = Ret ((true, text "repair "%string), Moves.do_repair g coords us ut))
  /\ (GameM.is_valid_move g coords = false -> GameM.is_valid_attack g coords = false ->
      GameM.is_valid_repair g coords = false -> GameM.can_self_destruct g coords = true ->
      Moves.perform_move g coords
      = Ret ((true, text "self-destruct "%string), Moves.do_self_destruct g coords))
  /\ (GameM.is_valid_move g coords = false -> GameM.is_valid_attack g coords = false ->
      GameM.is_valid_repair g coords = false -> GameM.can_self_destruct g coords = false ->
      Moves.perform_move g coords
      = Ret ((false, (PlayerM.name (next_player g) ++ " performed an invalid move "
                        ++ a ++ " -> " ++ b)%string), g)).
Proof.
  intros Ha Hb text. unfold Moves.perform_move, Moves.describe.
  rewrite Ha, Hb. cbn [ebind]. subst text. cbv beta.
  split; [|split; [|split; [|split]]].
  - intros ->. rewrite (turn_prefix_same_turn _ _ (do_move_same_turn g coords)). reflexivity.
  - intros -> Hatt. rewrite Hatt. revert Hatt. unfold GameM.is_valid_attack.
    destruct (negb _ || negb _); [discriminate|].
    destruct (GameM.get g (src coords)) as [us|]; [|discriminate].
    destruct (GameM.get g (dst coords)) as [ut|]; [|discriminate].
    intros _. exists us, ut. repeat split.
    rewrite (turn_prefix_same_turn _ _ (do_attack_same_turn g coords us ut)). reflexivity.
  - intros -> -> Hrep. rewrite Hrep. revert Hrep. unfold GameM.is_valid_repair.
    destruct (negb _ || negb _); [discriminate|].
    destruct (GameM.get g (src coords)) as [us|]; [|discriminate].
    destruct (GameM.get g (dst coords)) as [ut|]; [|discriminate].
    intros _. exists us, ut. repeat split.
    rewrite (turn_prefix_same_turn _ _ (do_repair_same_turn g coords us ut)). reflexivity.
  - intros -> -> -> ->.
    rewrite (turn_prefix_same_turn _ _ (do_self_destruct_same_turn g coords)). reflexivity.
  - intros -> -> -> ->. reflexivity.
Qed.

(** ** Who may act with a unit *)

Lemma is_valid_attack_spec (g : Game) (coords : CoordPair) :
  GameM.is_valid_attack g coords = true <->
  in_range g (src coords) /\ in_range g (dst coords)
  /\ exists us ut, GameM.get g (src coords) = Some us
       /\ GameM.get g (dst coords) = Some ut
       /\ player us <> player ut
       /\ In (dst coords) (CoordM.iter_adjacent (src coords)).
Proof.
  unfold GameM.is_valid_attack. rewrite <- !is_valid_coord_in_range.
  destruct (GameM.is_valid_coord g (src coords)); cbn [negb orb];
    [| split; [discriminate | intros [H _]; discriminate]].
  destruct (GameM.is_valid_coord g (dst coords)); cbn [negb orb];
    [| split; [discriminate | intros [_ [H _]]; discriminate]].
  destruct (GameM.get g (src coords)) as [us|];
    [| split; [discriminate | intros [_ [_ [? [? [H _]]]]]; discriminate]].
  destruct (GameM.get g (dst coords)) as [ut|];
    [| split; [discriminate | intros [_ [_ [? [? [_ [H _]]]]]]; discriminate]].
  destruct (PlayerM.eqb (player us) (player ut)) eqn:E.
  - apply PlayerM_eqb_eq in E. split; [discriminate|].
    intros [_ [_ [a [b [Ha [Hb [Hne _]]]]]]]. injection Ha as <-. injection Hb as <-.
    contradiction.
  - rewrite adjacent_existsb. split.
    + intros Hin. do 2 (split; [reflexivity|]). exists us, ut.
      repeat split; try assumption. intros Heq. apply PlayerM_eqb_eq in Heq. congruence.
    + intros [_ [_ [a [b [_ [_ [_ Hin]]]]]]]. exact Hin.
Qed.

Lemma is_valid_repair_spec (g : Game) (coords : CoordPair) :
  GameM.is_valid_repair g coords = true <->
  in_range g (src coords) /\ in_range g (dst coords)
  /\ exists us ut, GameM.get g (src coords) = Some us
       /\ GameM.get g (dst coords) = Some ut
       /\ player us = player ut
       /\ UnitM.repair_amount us ut <> 0
       /\ In (dst coords) (CoordM.iter_adjacent (src coords)).
Proof.
  unfold GameM.is_valid_repair. rewrite <- !is_valid_coord_in_range.
  destruct (GameM.is_valid_coord g (src coords)); cbn [negb orb];
    [| split; [discriminate | intros [H _]; discriminate]].
  destruct (GameM.is_valid_coord g (dst coords)); cbn [negb orb];
    [| split; [discriminate | intros [_ [H _]]; discriminate]].
  destruct (GameM.get g (src coords)) as [us|];
    [| split; [discriminate | intros [_ [_ [? [? [H _]]]]]; discriminate]].
  destruct (GameM.get g (dst coords)) as [ut|];
    [| split; [discriminate | intros [_ [_ [? [? [_ [H _]]]]]]; discriminate]].
  destruct (PlayerM.eqb (player us) (player ut)) eqn:E; cbn [negb].
  - apply PlayerM_eqb_eq in E.
    destruct (Z.eqb_spec (UnitM.repair_amount us ut) 0) as [Hz|Hz].
    + split; [discriminate|].
      intros [_ [_ [a [b [Ha [Hb [_ [Hnz _]]]]]]]]. injection Ha as <-. injection Hb as <-.
      contradiction.
    + rewrite adjacent_existsb. split.
      * intros Hin. do 2 (split; [reflexivity|]). exists us, ut. repeat split; assumption.
      * intros [_ [_ [a [b [_ [_ [_ [_ Hin]]]]]]]]. exact Hin.
  - split; [discriminate|].
    intros [_ [_ [a [b [Ha [Hb [Heq _]]]]]]]. injection Ha as <-. injection Hb as <-.
    apply PlayerM_eqb_eq in Heq. congruence.
Qed.

Lemma can_self_destruct_spec (g : Game) (coords : CoordPair) :
  GameM.can_self_destruct g coords = true <->
  in_range g (src coords) /\ in_range g (dst coords)
  /\ (exists u, GameM.get g (src coords) = Some u) /\ src coords = dst coords.
Proof.
  unfold GameM.can_self_destruct. rewrite <- !is_valid_coord_in_range.
  destruct (GameM.is_valid_coord g (src coords)); cbn [negb orb];
    [| split; [discriminate | intros [H _]; discriminate]].
  destruct (GameM.is_valid_coord g (dst coords)); cbn [negb orb];
    [| split; [discriminate | intros [_ [H _]]; discriminate]].
  destruct (GameM.get g (src coords)) as [u|];
    [| split; [discriminate | intros [_ [_ [[? H] _]]]; discriminate]].
  destruct (CoordM.eqb (src coords) (dst coords)) eqn:E.
  - apply CoordM_eqb_eq in E. split; [|reflexivity].
    intros _. repeat split; [eexists; reflexivity | assumption].
  - split; [discriminate|]. intros [_ [_ [_ Heq]]].
    apply CoordM_eqb_eq in Heq. congruence.
Qed.

Lemma play_reachable (opts : Options) (g : Game) (coords : CoordPair) :
  reachable opts g -> reachable opts (play g coords).
Proof.
  intros Hr. unfold play.
  destruct (Moves.perform_move g coords) as [[[[|] s] g']|] eqn:E; try assumption.
  eapply reach_step; eassumption.
Qed.

Lemma game_after_blast_reachable : reachable Initial.default_options game_after_blast.
Proof. apply play_reachable, reach_init. Qed.

Lemma game_contact_reachable : reachable Initial.default_options game_contact.
Proof. do 3 apply play_reachable. apply reach_init. Qed.

(** C9: the attack, repair and self-destruct predicates do not look at
    [next_player] (their answers are unchanged when the side to move is
    replaced, and they are characterised by adjacency and the units' owners
    alone), so in positions reachable in the default game the side to move
    can attack with, repair with and detonate a unit of its opponent:
    [perform_move] succeeds on a source cell the mover does not own. *)
Theorem enemy_units_can_be_commanded :
  (forall g p coords,
      GameM.is_valid_attack (with_next_player g p) coords = GameM.is_valid_attack g coords
      /\ GameM.is_valid_repair (with_next_player g p) coords = GameM.is_valid_repair g coords
      /\ GameM.can_self_destruct (with_next_player g p) coords
         = GameM.can_self_destruct g coords)
  /\ (exists g coords, reachable Initial.default_options g
        /\ GameM.is_valid_move g coords = false /\ GameM.is_valid_attack g coords = true
        /\ acts_with_enemy_unit g coords)
  /\ (exists g coords, reachable Initial.default_options g
        /\ GameM.is_valid_move g coords = false /\ GameM.is_valid_attack g coords = false
        /\ GameM.is_valid_repair g coords = true
        /\ acts_with_enemy_unit g coords)
  /\ (exists g coords, reachable Initial.default_options g
        /\ GameM.is_valid_move g coords = false /\ GameM.is_valid_attack g coords = false
        /\ GameM.is_valid_repair g coords = false
        /\ GameM.can_self_destruct g coords = true
        /\ acts_with_enemy_unit g coords).
Proof.
  split; [intros g p coords; repeat split|].
  split; [|split].
  - exists game_contact, (pair_of 2 2 2 1).
    split; [apply game_contact_reachable|].
    do 2 (split; [vm_compute; reflexivity|]).
    eexists; eexists; eexists.
    split; [vm_compute; reflexivity|]. split; [vm_compute; discriminate|].
    vm_compute. reflexivity.
  - exists game_after_blast, (pair_of 4 4 4 3).
    split; [apply game_after_blast_reachable|].
    do 3 (split; [vm_compute; reflexivity|]).
    eexists; eexists; eexists.
    split; [vm_compute; reflexivity|]. split; [vm_compute; discriminate|].
    vm_compute. reflexivity.
  - exists game0, (pair_of 0 0 0 0).
    split; [apply reach_init|].
    do 4 (split; [vm_compute; reflexivity|]).
    eexists; eexists; eexists.
    split; [vm_compute; reflexivity|]. split; [vm_compute; discriminate|].
    vm_compute. reflexivity.
Qed.

(** ** Heuristic e2 *)

Lemma player_units_owner (g : Game) (p : Player) (cu : Coord * Unit) :
  In cu (Moves.player_units g p) -> GameM.get g (fst cu) = Some (snd cu) /\ player (snd cu) = p.
Proof.
  unfold Moves.player_units. rewrite in_flat_map. intros [c [_ Hin]].
  destruct (GameM.get g c) as [u|] eqn:E; [|destruct Hin].
  destruct (PlayerM.eqb (player u) p) eqn:Ep; [|destruct Hin].
  destruct Hin as [<-|[]]. simpl. split; [assumption | apply PlayerM_eqb_eq; assumption].
Qed.

Lemma fold_left_ext_in {A B} (f h : A -> B -> A) (l : list B) (a : A) :
  (forall x y, In y l -> f x y = h x y) -> fold_left f l a = fold_left h l a.
Proof.
  revert a. induction l as [|y l IH]; intros a H; simpl; [reflexivity|].
  rewrite (H a y (or_introl eq_refl)). apply IH. intros x z Hz. apply H. right. exact Hz.
Qed.

(** For the units of the side to move the code and the owner-based rule
    agree. *)
Lemma helper_e2_side_to_move (g : Game) :
  Heuristics.helper_e2 g (next_player g) = helper_e2_by_owner g (next_player g).
Proof.
  unfold Heuristics.helper_e2, helper_e2_by_owner. apply fold_left_ext_in.
  intros count cu Hin. apply player_units_owner in Hin. destruct Hin as [_ Hp].
  cbv zeta. apply fold_left_ext_in. intros x c _.
  unfold Heuristics.e2_adj, e2_adj_by_owner. rewrite Hp. reflexivity.
Qed.

Lemma helper_e2_by_owner_ignores_turn (g : Game) (p q : Player) :
  helper_e2_by_owner (with_next_player g p) q = helper_e2_by_owner g q.
Proof. reflexivity. Qed.

(** C7 (the code departs from it): [helper_e2] tells enemy from friend by
    comparing the neighbour's owner with [game.next_player], not with the
    owner of the unit being scored.  On the symmetric starting position the
    Defender's units are therefore scored 900234 with the Attacker to move
    where the owner-based rule gives 904230, and [e2] changes from 3996 to
    -183978 when only the side to move is swapped. *)
Theorem e2_depends_on_side_to_move :
  Heuristics.helper_e2 game0 Defender = 900234
  /\ helper_e2_by_owner game0 Defender = 904230
  /\ Heuristics.e2 game0 = 3996
  /\ Heuristics.e2 (with_next_player game0 Defender) = -183978.
Proof. repeat split; vm_compute; reflexivity. Qed.

(** ** Branching statistics *)

Section BranchCounts.
Variable clock : nat -> bool.
Import Search.

(** In [minimax] a loop that falls through has counted every successor. *)
Lemma mm_max_loop_counts (rec : RecMM) (children : list (Game * CoordPair)) :
  forall max_eval best_move bf st vb bf' st',
    mm_max_loop rec children max_eval best_move bf st = Ret (Fell vb bf' st') ->
    bf' = bf + Z.of_nat (length children).
Proof.
  induction children as [|[child move] rest IH]; intros m b bf st vb bf' st' H.
  - simpl in H. injection H as _ <- _. simpl. lia.
  - cbn [mm_max_loop] in H.
    destruct (rec child false st) as [[[ev mv] st1]|e]; [|discriminate].
    cbn [ebind] in H. destruct (is_time_out st1); [discriminate|].
    destruct (ev >? m); apply IH in H; rewrite H; simpl length; lia.
Qed.

Lemma mm_min_loop_counts (rec : RecMM) (children : list (Game * CoordPair)) :
  forall min_eval best_move bf st vb bf' st',
    mm_min_loop rec children min_eval best_move bf st = Ret (Fell vb bf' st') ->
    bf' = bf + Z.of_nat (length children).
Proof.
  induction children as [|[child move] rest IH]; intros m b bf st vb bf' st' H.
  - simpl in H. injection H as _ <- _. simpl. lia.
  - cbn [mm_min_loop] in H.
    destruct (rec child true st) as [[[ev mv] st1]|e]; [|discriminate].
    cbn [ebind] in H. destruct (is_time_out st1); [discriminate|].
    destruct (ev <? m); apply IH in H; rewrite H; simpl length; lia.
Qed.

(** In the maximizing branch of [alpha_beta] the counter is the number of
    successors visited before the loop ended. *)
Lemma ab_max_loop_counts (rec : Rec) (children : list (Game * CoordPair)) :
  forall vb0 alpha beta bf st vb bf' st',
    ab_max_loop rec children vb0 alpha beta bf st = Ret (Fell vb bf' st') ->
    bf <= bf' <= bf + Z.of_nat (length children)
    /\ (children <> [] -> bf < bf').
Proof.
  induction children as [|[child move] rest IH]; intros vb0 alpha beta bf st vb bf' st' H.
  - simpl in H. injection H as _ <- _. simpl. split; [lia | congruence].
  - cbn [ab_max_loop] in H.
    destruct (rec child alpha beta false st) as [[[ev mv] st1]|e]; [|discriminate].
    cbn [ebind] in H. destruct (is_time_out st1); [discriminate|].
    match type of H with (if ?b then _ else _) = _ => destruct b end.
    + injection H as _ <- _. simpl length. split; [lia | intros _; lia].
    + apply IH in H. simpl length. split; [lia | intros _; lia].
Qed.

(** In the minimizing branch of [alpha_beta] the counter passed on is 0
    whenever a successor was visited, and unassigned otherwise. *)
Lemma ab_min_loop_counts (rec : Rec) (children : list (Game * CoordPair)) :
  forall vb0 alpha beta bf st vb bf' st',
    ab_min_loop rec children vb0 alpha beta bf st = Ret (Fell vb bf' st') ->
    (children = [] /\ bf' = bf) \/ (children <> [] /\ bf' = Some 0).
Proof.
  induction children as [|[child move] rest IH]; intros vb0 alpha beta bf st vb bf' st' H.
  - simpl in H. injection H as _ <- _. left. split; reflexivity.
  - right. split; [discriminate|]. cbn [ab_min_loop] in H.
    destruct (rec child alpha beta true st) as [[[ev mv] st1]|e]; [|discriminate].
    cbn [ebind] in H. destruct (is_time_out st1); [discriminate|].
    match type of H with (if ?b then _ else _) = _ => destruct b end.
    + injection H as _ <- _. reflexivity.
    + apply IH in H. destruct H as [[_ ->]|[_ ->]]; reflexivity.
Qed.
End BranchCounts.

(** C8 (the code departs from it): at a minimizing node [alpha_beta] resets
    its counter to 0 for every successor and never increments it.  After the
    opening move C4->C3 the Defender has 12 successors; a depth-1
    [alpha_beta] search visits all of them and records a branching factor
    of 0, where [minimax] on the same node records 12. *)
Theorem alpha_beta_min_branch_records_zero :
  exists children r st r' st',
    Moves.get_children game_defender_to_move = Ret children
    /\ length children = 12%nat
    /\ Search.alpha_beta no_timeout 1 game_defender_to_move
         MIN_HEURISTIC_SCORE MAX_HEURISTIC_SCORE false Initial.new_search = Ret (r, st)
    /\ ticks st = 13%nat
    /\ (average_branching_factor (stats st) == 0)%Q
    /\ average_branching_size (stats st) = 1
    /\ Search.minimax no_timeout 1 game_defender_to_move false Initial.new_search
       = Ret (r', st')
    /\ (average_branching_factor (stats st') == 12)%Q
    /\ average_branching_size (stats st') = 1.
Proof.
  do 5 eexists.
  split; [vm_compute; reflexivity|].
  split; [vm_compute; reflexivity|].
  split; [vm_compute; reflexivity|].
  split; [vm_compute; reflexivity|].
  split; [vm_compute; reflexivity|].
  split; [vm_compute; reflexivity|].
  split; [vm_compute; reflexivity|].
  split; vm_compute; reflexivity.
Qed.

(** ** Iterative deepening *)

Lemma depth_range_cons (g : Game) :
  1 <= max_depth (options g) ->
  Search.depth_range g
  = 1%nat :: seq 2 (Nat.pred (Z.to_nat (max_depth (options g)))).
Proof.
  intros H. unfold Search.depth_range.
  destruct (Z.to_nat (max_depth (options g))) as [|n] eqn:E; [lia | reflexivity].
Qed.

Lemma alpha_beta_times_out_at_entry clock depth node alpha beta flag st :
  clock (ticks st) = true ->
  Search.alpha_beta clock depth node alpha beta flag st
  = Ret ((0, None), Search.set_time_out (Search.tick st) true).
Proof. intros H. destruct depth; simpl; rewrite H; reflexivity. Qed.

Lemma minimax_times_out_at_entry clock depth game flag st :
  clock (ticks st) = true ->
  Search.minimax clock depth game flag st
  = Ret ((0, None), Search.set_time_out (Search.tick st) true).
Proof. intros H. destruct depth; simpl; rewrite H; reflexivity. Qed.

(** C10: when the very first elapsed-time check of the depth-1 iteration
    already reports a time-out, [alpha_beta_move] and [minimax_move] reach
    [return (best_score, best_move)] with both names unassigned, and so
    does [suggest_move]: the outcome is an [UnboundLocalError], not a move
    and not [None]. *)
Theorem timeout_before_depth_one_is_unbound
        (clock : nat -> bool) (g : Game) (st : SearchState) :
  clock (ticks st) = true -> 1 <= max_depth (options g) ->
  Search.alpha_beta_move clock g st = Raise UnboundLocalError
  /\ Search.minimax_move clock g st = Raise UnboundLocalError
  /\ Search.suggest_move clock g st = Raise UnboundLocalError.
Proof.
  intros Hc Hd.
  assert (Search.alpha_beta_move clock g st = Raise UnboundLocalError) as Hab.
  { unfold Search.alpha_beta_move. rewrite (depth_range_cons g Hd).
    cbn [Search.deepening]. rewrite alpha_beta_times_out_at_entry by exact Hc.
    reflexivity. }
  assert (Search.minimax_move clock g st = Raise UnboundLocalError) as Hmm.
  { unfold Search.minimax_move. rewrite (depth_range_cons g Hd).
    cbn [Search.deepening]. rewrite minimax_times_out_at_entry by exact Hc.
    reflexivity. }
  repeat split; try assumption.
  unfold Search.suggest_move. rewrite Hab, Hmm.
  destruct (alpha_beta_opt (options g)); reflexivity.
Qed.

Lemma timeout_before_depth_one_is_unbound_witness :
  Search.suggest_move (fun _ => true) game0 Initial.new_search = Raise UnboundLocalError.
Proof.
  apply (timeout_before_depth_one_is_unbound (fun _ => true) game0 Initial.new_search);
    [reflexivity | simpl; lia].
Defined.

(** ** The grid under [get] and [set] *)

Lemma is_valid_coord_options (g g' : Game) (c : Coord) :
  options g' = options g -> GameM.is_valid_coord g' c = GameM.is_valid_coord g c.
Proof. intros H. unfold GameM.is_valid_coord. rewrite H. reflexivity. Qed.

Lemma set_options (g : Game) (c : Coord) (u : option Unit) :
  options (GameM.set g c u) = options g.
Proof. apply set_same_turn. Qed.

Lemma board_wf_set (g : Game) (c : Coord) (u : option Unit) :
  board_wf g -> board_wf (GameM.set g c u).
Proof.
  intros [Hd [Hl Hr]]. unfold GameM.set.
  destruct (GameM.is_valid_coord g c); [|repeat split; assumption].
  unfold board_wf. cbn [GameM.with_board options board].
  split; [assumption|]. split.
  - rewrite length_alter. assumption.
  - apply Forall_alter; [assumption|]. intros r _ Hlen.
    rewrite length_insert. assumption.
Qed.

(** [self.board[row][col]] never fails behind [is_valid_coord] on a board of
    the right shape. *)
Lemma board_lookup_safe (g : Game) (c : Coord) :
  board_wf g -> GameM.is_valid_coord g c = true ->
  exists r, board g !! Z.to_nat (row c) = Some r
            /\ exists u, r !! Z.to_nat (col c) = Some u /\ GameM.cell g c = u.
Proof.
  intros [Hd [Hl Hr]] Hv. apply is_valid_coord_in_range in Hv. destruct Hv as [Hrow Hcol].
  destruct (lookup_lt_is_Some_2 (board g) (Z.to_nat (row c))) as [r Hlr]; [lia|].
  exists r. split; [assumption|].
  assert (length r = Z.to_nat (dim (options g))) as Hlen.
  { rewrite Forall_forall in Hr. apply Hr. eapply list_elem_of_lookup_2. eassumption. }
  destruct (lookup_lt_is_Some_2 r (Z.to_nat (col c))) as [u Hlu]; [lia|].
  exists u. split; [assumption|]. unfold GameM.cell. rewrite Hlr, Hlu. reflexivity.
Qed.

Lemma get_set_eq (g : Game) (c : Coord) (u : option Unit) :
  board_wf g -> GameM.is_valid_coord g c = true -> GameM.get (GameM.set g c u) c = u.
Proof.
  intros Hwf Hv. destruct (board_lookup_safe g c Hwf Hv) as [r [Hlr [u0 [Hlu _]]]].
  unfold GameM.get. rewrite (is_valid_coord_options _ _ _ (set_options g c u)), Hv.
  unfold GameM.set. rewrite Hv. unfold GameM.cell. cbn [GameM.with_board board].
  rewrite list_lookup_alter_eq, Hlr. cbn [fmap option_fmap option_map].
  rewrite list_lookup_insert_eq; [reflexivity|]. eapply lookup_lt_Some. eassumption.
Qed.

Lemma get_set_ne (g : Game) (c c' : Coord) (u : option Unit) :
  c <> c' -> GameM.get (GameM.set g c u) c' = GameM.get g c'.
Proof.
  intros Hne. unfold GameM.get.
  rewrite (is_valid_coord_options _ _ _ (set_options g c u)).
  destruct (GameM.is_valid_coord g c') eqn:Hv'; [|reflexivity].
  unfold GameM.set. destruct (GameM.is_valid_coord g c) eqn:Hv; [|reflexivity].
  apply is_valid_coord_in_range in Hv, Hv'. destruct Hv as [Hr Hc], Hv' as [Hr' Hc'].
  unfold GameM.cell. cbn [GameM.with_board board].
  destruct (Z.eq_dec (row c) (row c')) as [Heq|Hrne].
  - rewrite <- Heq, list_lookup_alter_eq.
    destruct (board g !! Z.to_nat (row c)) as [r|]; [|reflexivity].
    cbn [fmap option_fmap option_map].
    rewrite list_lookup_insert_ne; [reflexivity|].
    intros Hcol. apply Hne. destruct c, c'; simpl in *. f_equal; lia.
  - rewrite list_lookup_alter_ne; [reflexivity | lia].
Qed.

Lemma Coord_eq_dec (a b : Coord) : {a = b} + {a <> b}.
Proof. decide equality; apply Z.eq_dec. Qed.

Lemma get_some_valid (g : Game) (c : Coord) (u : Unit) :
  GameM.get g c = Some u -> GameM.is_valid_coord g c = true.
Proof. unfold GameM.get. destruct (GameM.is_valid_coord g c); [reflexivity | discriminate]. Qed.

(** ** Boards that back the has-AI flags *)

Lemma has_ai_same_board (g g' : Game) (p : Player) :
  board g' = board g -> options g' = options g -> has_ai g p -> has_ai g' p.
Proof.
  intros Hb Ho [c [u [Hg H]]]. exists c, u. split; [|assumption].
  unfold GameM.get, GameM.cell, GameM.is_valid_coord in *. rewrite Hb, Ho. assumption.
Qed.

Lemma board_wf_same_board (g g' : Game) :
  board g' = board g -> options g' = options g -> board_wf g -> board_wf g'.
Proof. intros Hb Ho H. unfold board_wf in *. rewrite Hb, Ho. assumption. Qed.

Lemma remove_dead_wf (g : Game) (c : Coord) : wf_game g -> wf_game (GameM.remove_dead g c).
Proof.
  intros [Hb Ha]. unfold GameM.remove_dead.
  destruct (GameM.get g c) as [unit|] eqn:Hg; [|split; assumption].
  destruct (negb (UnitM.is_alive unit)); [|split; assumption].
  pose proof (board_wf_set g c None Hb) as Hb1.
  assert (forall p, ai_flag g p = true -> (type unit = AI -> player unit <> p) ->
                    has_ai (GameM.set g c None) p) as Hkeep.
  { intros p Hp Hne. destruct (Ha p Hp) as [c0 [u0 [H0 [Hpl Hty]]]].
    exists c0, u0. split; [|split; assumption].
    rewrite get_set_ne; [assumption|]. intros ->. rewrite Hg in H0.
    injection H0 as ->. apply Hne; assumption. }
  assert (forall p, ai_flag (GameM.set g c None) p = ai_flag g p) as Hflag.
  { intros p. unfold GameM.set. destruct (GameM.is_valid_coord g c); destruct p; reflexivity. }
  destruct (UnitTypeM.eqb (type unit) AI) eqn:Hty.
  - destruct (PlayerM.eqb (player unit) Attacker) eqn:Hpl.
    + apply PlayerM_eqb_eq in Hpl. split.
      * eapply board_wf_same_board; [| |exact Hb1]; reflexivity.
      * intros [|] Hp; cbn in Hp; [discriminate|].
        eapply has_ai_same_board; [reflexivity|reflexivity|].
        apply Hkeep; [rewrite <- Hflag; exact Hp|]. intros _. rewrite Hpl. discriminate.
    + split.
      * eapply board_wf_same_board; [| |exact Hb1]; reflexivity.
      * intros [|] Hp; cbn in Hp; [|discriminate].
        eapply has_ai_same_board; [reflexivity|reflexivity|].
        apply Hkeep; [rewrite <- Hflag; exact Hp|]. intros _ He.
        rewrite He in Hpl. discriminate.
  - split; [assumption|]. intros p Hp. rewrite Hflag in Hp. apply Hkeep; [assumption|].
    intros He. rewrite He in Hty. discriminate.
Qed.

Lemma mod_health_wf (g : Game) (c : Coord) (d : Z) : wf_game g -> wf_game (GameM.mod_health g c d).
Proof.
  intros [Hb Ha]. unfold GameM.mod_health.
  destruct (GameM.get g c) as [target|] eqn:Hg; [|split; assumption].
  apply remove_dead_wf. split; [apply board_wf_set; assumption|].
  intros p Hp.
  assert (ai_flag g p = true) as Hp'.
  { revert Hp. unfold GameM.set. destruct (GameM.is_valid_coord g c); destruct p; exact id. }
  destruct (Ha p Hp') as [c0 [u0 [H0 [Hpl Hty]]]].
  destruct (Coord_eq_dec c0 c) as [->|Hne].
  - exists c, (UnitM.mod_health target d). rewrite Hg in H0. injection H0 as ->.
    split; [|split; assumption].
    apply get_set_eq; [assumption|]. eapply get_some_valid; eassumption.
  - exists c0, u0. split; [|split; assumption].
    rewrite get_set_ne; [assumption|]. intros ->; apply Hne; reflexivity.
Qed.

Lemma set_ai_flag (g : Game) (c : Coord) (u : option Unit) (p : Player) :
  ai_flag (GameM.set g c u) p = ai_flag g p.
Proof. unfold GameM.set. destruct (GameM.is_valid_coord g c); destruct p; reflexivity. Qed.

Lemma is_valid_move_cells (g : Game) (coords : CoordPair) :
  GameM.is_valid_move g coords = true ->
  GameM.is_valid_coord g (dst coords) = true
  /\ exists u, GameM.get g (src coords) = Some u /\ GameM.get g (dst coords) = None.
Proof.
  unfold GameM.is_valid_move.
  destruct (GameM.is_valid_coord g (src coords)); [|discriminate].
  destruct (GameM.is_valid_coord g (dst coords)); [|discriminate].
  cbn [negb orb].
  destruct (GameM.get g (src coords)) as [u|]; [|discriminate].
  destruct (negb (PlayerM.eqb (player u) (next_player g))); [discriminate|].
  destruct (GameM.get g (dst coords)); [discriminate|].
  intros _. split; [reflexivity|]. exists u. split; reflexivity.
Qed.

Lemma do_move_wf (g : Game) (coords : CoordPair) :
  GameM.is_valid_move g coords = true -> wf_game g -> wf_game (Moves.do_move g coords).
Proof.
  intros Hv [Hb Ha]. apply is_valid_move_cells in Hv.
  destruct Hv as [Hvd [u [Hgs Hgd]]].
  assert (src coords <> dst coords) as Hne.
  { intros He. rewrite He, Hgd in Hgs. discriminate. }
  unfold Moves.do_move. split; [do 2 apply board_wf_set; assumption|].
  intros p Hp. rewrite !set_ai_flag in Hp.
  destruct (Ha p Hp) as [c0 [u0 [H0 [Hpl Hty]]]].
  destruct (Coord_eq_dec c0 (src coords)) as [->|Hc0].
  - exists (dst coords), u0. split; [|split; assumption].
    rewrite get_set_ne by exact Hne. rewrite H0. apply get_set_eq; assumption.
  - exists c0, u0. split; [|split; assumption].
    rewrite get_set_ne by (intros E; apply Hc0; symmetry; exact E).
    rewrite get_set_ne; [assumption|]. intros E. rewrite <- E, Hgd in H0. discriminate.
Qed.

Lemma fold_mod_health_wf (l : list Coord) (d : Z) (g : Game) :
  wf_game g -> wf_game (fold_left (fun acc c => GameM.mod_health acc c d) l g).
Proof.
  revert g. induction l as [|c l IH]; intros g H; [exact H|].
  cbn [fold_left]. apply IH, mod_health_wf, H.
Qed.

Lemma next_turn_wf (g : Game) : wf_game g -> wf_game (Moves.next_turn g).
Proof.
  intros [Hb Ha]. split.
  - eapply board_wf_same_board; [| |exact Hb]; reflexivity.
  - intros p Hp. eapply has_ai_same_board; [reflexivity|reflexivity|].
    apply Ha. destruct p; exact Hp.
Qed.

Lemma ebind_ret {A B} (m : exc A) (k : A -> exc B) (b : B) :
  ebind m k = Ret b -> exists a, m = Ret a /\ k a = Ret b.
Proof. destruct m as [a|e]; [|discriminate]. intros H. exists a. split; [reflexivity|exact H]. Qed.

(** A successful or refused action leaves a well-formed state. *)
Lemma perform_move_wf (g g' : Game) (coords : CoordPair) (r : bool * string) :
  wf_game g -> Moves.perform_move g coords = Ret (r, g') -> wf_game g'.
Proof.
  intros Hwf. unfold Moves.perform_move.
  destruct (GameM.is_valid_move g coords) eqn:Hm.
  { intros H. apply ebind_ret in H. destruct H as [s [_ H]]. injection H as _ <-.
    apply do_move_wf; assumption. }
  destruct (GameM.is_valid_attack g coords).
  { destruct (GameM.get g (src coords)); [|discriminate].
    destruct (GameM.get g (dst coords)); [|discriminate].
    intros H. apply ebind_ret in H. destruct H as [s [_ H]]. injection H as _ <-.
    unfold Moves.do_attack. do 2 apply mod_health_wf. assumption. }
  destruct (GameM.is_valid_repair g coords).
  { destruct (GameM.get g (src coords)); [|discriminate].
    destruct (GameM.get g (dst coords)); [|discriminate].
    intros H. apply ebind_ret in H. destruct H as [s [_ H]]. injection H as _ <-.
    unfold Moves.do_repair. apply mod_health_wf. assumption. }
  destruct (GameM.can_self_destruct g coords).
  { intros H. apply ebind_ret in H. destruct H as [s [_ H]]. injection H as _ <-.
    unfold Moves.do_self_destruct. apply fold_mod_health_wf, mod_health_wf. assumption. }
  intros H. apply ebind_ret in H. destruct H as [s [_ H]]. injection H as _ <-. assumption.
Qed.

(** ** Successors *)

Lemma concat_exc_total {A B} (f : A -> exc (list B)) (l : list A) :
  (forall a, In a l -> exists xs, f a = Ret xs) -> exists r, Moves.concat_exc f l = Ret r.
Proof.
  induction l as [|a l IH]; intros H; [eexists; reflexivity|].
  destruct (H a (or_introl eq_refl)) as [xs Hxs].
  destruct IH as [ys Hys]; [intros b Hb; apply H; right; exact Hb|].
  cbn [Moves.concat_exc]. rewrite Hxs. cbn [ebind]. rewrite Hys. eexists; reflexivity.
Qed.

Lemma concat_exc_in {A B} (f : A -> exc (list B)) (l : list A) (r : list B) (x : B) :
  Moves.concat_exc f l = Ret r ->
  In x r <-> exists a xs, In a l /\ f a = Ret xs /\ In x xs.
Proof.
  revert r. induction l as [|a l IH]; intros r H.
  - injection H as <-. split; [intros [] | intros [a [xs [[] _]]]].
  - cbn [Moves.concat_exc] in H. apply ebind_ret in H. destruct H as [xs [Hxs H]].
    apply ebind_ret in H. destruct H as [ys [Hys H]]. injection H as <-.
    rewrite in_app_iff, (IH ys Hys). split.
    + intros [Hx | [b [zs [Hb [Hf Hz]]]]].
      * exists a, xs. split; [left; reflexivity | split; assumption].
      * exists b, zs. split; [right; assumption | split; assumption].
    + intros [b [zs [[<- | Hb] [Hf Hz]]]].
      * left. rewrite Hxs in Hf. injection Hf as ->. exact Hz.
      * right. exists b, zs. split; [assumption | split; assumption].
Qed.

Lemma ebind_ret_concat {A B} (f : A -> exc (list B)) (l : list A) (r : list B) (a : A) :
  Moves.concat_exc f l = Ret r -> In a l ->
  exists xs, f a = Ret xs /\ forall x, In x xs -> In x r.
Proof.
  revert r. induction l as [|b l IH]; intros r H Hin; [destruct Hin|].
  cbn [Moves.concat_exc] in H. apply ebind_ret in H. destruct H as [xs [Hxs H]].
  apply ebind_ret in H. destruct H as [ys [Hys H]]. injection H as <-.
  destruct Hin as [<-|Hin].
  - exists xs. split; [exact Hxs|]. intros x Hx. apply in_app_iff. left; exact Hx.
  - destruct (IH ys Hys Hin) as [zs [Hzs Hsub]]. exists zs. split; [exact Hzs|].
    intros x Hx. apply in_app_iff. right. apply Hsub, Hx.
Qed.

Lemma is_valid_attack_cells (g : Game) (coords : CoordPair) :
  GameM.is_valid_attack g coords = true ->
  exists us ut, GameM.get g (src coords) = Some us /\ GameM.get g (dst coords) = Some ut.
Proof.
  unfold GameM.is_valid_attack.
  destruct (negb (GameM.is_valid_coord g (src coords))
            || negb (GameM.is_valid_coord g (dst coords))); [discriminate|].
  destruct (GameM.get g (src coords)) as [us|]; [|discriminate].
  destruct (GameM.get g (dst coords)) as [ut|]; [|discriminate].
  intros _. exists us, ut. split; reflexivity.
Qed.

Lemma is_valid_repair_cells (g : Game) (coords : CoordPair) :
  GameM.is_valid_repair g coords = true ->
  exists us ut, GameM.get g (src coords) = Some us /\ GameM.get g (dst coords) = Some ut.
Proof.
  unfold GameM.is_valid_repair.
  destruct (negb (GameM.is_valid_coord g (src coords))
            || negb (GameM.is_valid_coord g (dst coords))); [discriminate|].
  destruct (GameM.get g (src coords)) as [us|]; [|discriminate].
  destruct (GameM.get g (dst coords)) as [ut|]; [|discriminate].
  intros _. exists us, ut. split; reflexivity.
Qed.

(** On printable coordinates [perform_move] returns, and it reports success
    exactly when one of the four interpretations applies. *)
Lemma perform_move_total (g : Game) (coords : CoordPair) (a b : string) :
  CoordM.to_string (src coords) = Ret a ->
  CoordM.to_string (dst coords) = Ret b ->
  exists s g', Moves.perform_move g coords
               = Ret ((GameM.is_valid_move g coords || GameM.is_valid_attack g coords
                       || GameM.is_valid_repair g coords
                       || GameM.can_self_destruct g coords, s), g').
Proof.
  intros Ha Hb. unfold Moves.perform_move, Moves.describe. rewrite Ha, Hb. cbn [ebind].
  destruct (GameM.is_valid_move g coords); [do 2 eexists; reflexivity|].
  destruct (GameM.is_valid_attack g coords) eqn:Hat.
  { destruct (is_valid_attack_cells _ _ Hat) as [us [ut [-> ->]]]. do 2 eexists; reflexivity. }
  destruct (GameM.is_valid_repair g coords) eqn:Hrp.
  { destruct (is_valid_repair_cells _ _ Hrp) as [us [ut [-> ->]]]. do 2 eexists; reflexivity. }
  destruct (GameM.can_self_destruct g coords); do 2 eexists; reflexivity.
Qed.

Lemma try_child_in (g : Game) (move : CoordPair) (xs : list (Game * CoordPair))
      (child : Game) (mv : CoordPair) :
  Moves.try_child g move = Ret xs -> In (child, mv) xs ->
  mv = move /\ exists s g', Moves.perform_move g move = Ret ((true, s), g')
                            /\ child = Moves.next_turn g'.
Proof.
  unfold Moves.try_child. intros H Hin. apply ebind_ret in H.
  destruct H as [[[[|] s] g'] [Hp H]]; injection H as <-; [|destruct Hin].
  destruct Hin as [E|[]]. injection E as <- <-.
  split; [reflexivity|]. exists s, g'. split; [exact Hp | reflexivity].
Qed.

(** Every successor listed by [get_children] is the state after a successful
    action of the node, with the turn passed on. *)
Lemma get_children_in (g : Game) (l : list (Game * CoordPair)) (child : Game) (mv : CoordPair) :
  Moves.get_children g = Ret l -> In (child, mv) l ->
  exists s g', Moves.perform_move g mv = Ret ((true, s), g') /\ child = Moves.next_turn g'.
Proof.
  unfold Moves.get_children. intros H Hin.
  apply (proj1 (concat_exc_in _ _ _ _ H)) in Hin. destruct Hin as [su [xs [_ [Hxs Hin]]]].
  apply (proj1 (concat_exc_in _ _ _ _ Hxs)) in Hin. destruct Hin as [d [ys [_ [Hys Hin]]]].
  destruct (try_child_in _ _ _ _ _ Hys Hin) as [-> H']. exact H'.
Qed.

Lemma get_children_wf (g : Game) (l : list (Game * CoordPair)) (child : Game) (mv : CoordPair) :
  wf_game g -> Moves.get_children g = Ret l -> In (child, mv) l -> wf_game child.
Proof.
  intros Hwf H Hin. destruct (get_children_in _ _ _ _ H Hin) as [s [g' [Hp ->]]].
  apply next_turn_wf. eapply perform_move_wf; eassumption.
Qed.

Lemma in_range_iff (lo hi x : Z) : In x (CoordM.range lo hi) <-> lo <= x < hi.
Proof.
  unfold CoordM.range. rewrite in_map_iff. split.
  - intros [k [<- Hk]]. apply in_seq in Hk. lia.
  - intros H. exists (Z.to_nat (x - lo)). split; [lia|]. apply in_seq. lia.
Qed.

Lemma in_iter_rectangle (d : Z) (c : Coord) :
  In c (CoordPairM.iter_rectangle (CoordPairM.from_dim d))
  <-> 0 <= row c < d /\ 0 <= col c < d.
Proof.
  unfold CoordPairM.iter_rectangle, CoordPairM.from_dim. cbn [src dst row col].
  rewrite in_flat_map. split.
  - intros [r [Hr Hc]]. apply in_map_iff in Hc. destruct Hc as [k [<- Hk]].
    apply in_range_iff in Hr, Hk. cbn [row col]. lia.
  - intros [Hr Hc]. exists (row c). split; [apply in_range_iff; lia|].
    apply in_map_iff. exists (col c). split; [destruct c; reflexivity|].
    apply in_range_iff. lia.
Qed.

Lemma player_units_complete (g : Game) (p : Player) (c : Coord) (u : Unit) :
  GameM.get g c = Some u -> player u = p -> In (c, u) (Moves.player_units g p).
Proof.
  intros Hg Hp. unfold Moves.player_units. apply in_flat_map. exists c. split.
  - apply in_iter_rectangle, is_valid_coord_in_range. eapply get_some_valid; eassumption.
  - rewrite Hg. subst p. replace (PlayerM.eqb (player u) (player u)) with true
      by (symmetry; apply PlayerM_eqb_eq; reflexivity). left; reflexivity.
Qed.

Lemma candidate_printable (g : Game) (c d : Coord) :
  GameM.is_valid_coord g c = true -> In d (CoordM.iter_adjacent c ++ [c]) ->
  (exists a, CoordM.to_string c = Ret a) /\ (exists b, CoordM.to_string d = Ret b).
Proof.
  intros Hv Hd. apply is_valid_coord_in_range in Hv. destruct Hv as [Hr Hc].
  split; [apply to_string_total; lia|].
  apply in_app_iff in Hd. unfold CoordM.iter_adjacent in Hd.
  destruct Hd as [[<-|[<-|[<-|[<-|[]]]]] | [<-|[]]]; apply to_string_total; cbn [row col]; lia.
Qed.

(** [get_children] never raises: it only passes [perform_move] cells of the
    board and their neighbours, all of which can be printed. *)
Lemma get_children_total (g : Game) : exists l, Moves.get_children g = Ret l.
Proof.
  unfold Moves.get_children. apply concat_exc_total. intros su Hsu.
  apply player_units_owner in Hsu. destruct Hsu as [Hg _]. apply get_some_valid in Hg.
  apply concat_exc_total. intros d Hd.
  destruct (candidate_printable g (fst su) d Hg Hd) as [[a Ha] [b Hb]].
  unfold Moves.try_child.
  destruct (perform_move_total g (mkCoordPair (fst su) d) a b Ha Hb) as [s [g' ->]].
  cbn [ebind]. destruct (_ || _); eexists; reflexivity.
Qed.

Lemma can_self_destruct_own_cell (g : Game) (c : Coord) (u : Unit) :
  GameM.get g c = Some u -> GameM.can_self_destruct g (mkCoordPair c c) = true.
Proof.
  intros Hg. unfold GameM.can_self_destruct. cbn [src dst].
  rewrite (get_some_valid _ _ _ Hg), Hg. cbn [negb orb].
  replace (CoordM.eqb c c) with true; [reflexivity|].
  symmetry. apply CoordM_eqb_eq. reflexivity.
Qed.

(** A unit of the side to move always yields a successor: acting on its own
    cell succeeds, as a self-destruct if as nothing else. *)
Lemma get_children_has_own_cell (g : Game) (l : list (Game * CoordPair)) (c : Coord) (u : Unit) :
  GameM.get g c = Some u -> player u = next_player g -> Moves.get_children g = Ret l ->
  exists child, In (child, mkCoordPair c c) l.
Proof.
  intros Hg Hp H.
  pose proof (get_some_valid _ _ _ Hg) as Hv.
  assert (In c (CoordM.iter_adjacent c ++ [c])) as Hin by (apply in_app_iff; right; left; reflexivity).
  destruct (candidate_printable g c c Hv Hin) as [[a Ha] _].
  destruct (perform_move_total g (mkCoordPair c c) a a Ha Ha) as [s [g' Hpm]].
  rewrite (can_self_destruct_own_cell g c u Hg), orb_true_r in Hpm.
  exists (Moves.next_turn g').
  unfold Moves.get_children in H.
  pose proof H as H1. apply ebind_ret_concat with (a := (c, u)) in H1;
    [|apply player_units_complete; assumption].
  destruct H1 as [xs [Hxs Hsub]]. apply Hsub. cbn [fst] in Hxs.
  apply (proj2 (concat_exc_in _ _ _ _ Hxs)).
  exists c, [(Moves.next_turn g', mkCoordPair c c)]. split; [exact Hin|].
  split; [|left; reflexivity]. unfold Moves.try_child. rewrite Hpm. reflexivity.
Qed.

(** ** Searches that never time out *)

Lemma children_of_get_children (g : Game) : Moves.get_children g = Ret (children_of g).
Proof. unfold children_of. destruct (get_children_total g) as [l ->]. reflexivity. Qed.

Section NoTimeOut.
Variable clock : nat -> bool.
Hypothesis clock_never_fires : forall n, clock n = false.

Lemma mm_max_loop_value (rec : Search.RecMM) (recv : Game -> Z)
      (children : list (Game * CoordPair)) :
  (forall c st, In c children -> is_time_out st = false ->
                returns_score (rec (fst c) false st) (recv (fst c))) ->
  forall m bm bf st, is_time_out st = false ->
  exists bm' bf' st',
    Search.mm_max_loop rec children m bm bf st
    = Ret (Fell (fold_left (fun m c => Z.max m (recv (fst c))) children m, bm') bf' st')
    /\ is_time_out st' = false.
Proof.
  induction children as [|[child move] rest IH]; intros Hrec m bm bf st Hst.
  - exists bm, bf, st. split; [reflexivity | exact Hst].
  - destruct (Hrec (child, move) st (or_introl eq_refl) Hst) as [mv [st1 [Hr Ht]]].
    cbn [fst] in Hr. cbn [Search.mm_max_loop fold_left fst]. rewrite Hr. cbn [ebind].
    rewrite Ht.
    assert (forall c st, In c rest -> is_time_out st = false ->
                         returns_score (rec (fst c) false st) (recv (fst c))) as Hrest
      by (intros c s Hc; apply Hrec; right; exact Hc).
    destruct (Z.gtb_spec (recv child) m).
    + rewrite Z.max_r by lia. apply IH; assumption.
    + rewrite Z.max_l by lia. apply IH; assumption.
Qed.

Lemma mm_min_loop_value (rec : Search.RecMM) (recv : Game -> Z)
      (children : list (Game * CoordPair)) :
  (forall c st, In c children -> is_time_out st = false ->
                returns_score (rec (fst c) true st) (recv (fst c))) ->
  forall m bm bf st, is_time_out st = false ->
  exists bm' bf' st',
    Search.mm_min_loop rec children m bm bf st
    = Ret (Fell (fold_left (fun m c => Z.min m (recv (fst c))) children m, bm') bf' st')
    /\ is_time_out st' = false.
Proof.
  induction children as [|[child move] rest IH]; intros Hrec m bm bf st Hst.
  - exists bm, bf, st. split; [reflexivity | exact Hst].
  - destruct (Hrec (child, move) st (or_introl eq_refl) Hst) as [mv [st1 [Hr Ht]]].
    cbn [fst] in Hr. cbn [Search.mm_min_loop fold_left fst]. rewrite Hr. cbn [ebind].
    rewrite Ht.
    assert (forall c st, In c rest -> is_time_out st = false ->
                         returns_score (rec (fst c) true st) (recv (fst c))) as Hrest
      by (intros c s Hc; apply Hrec; right; exact Hc).
    destruct (Z.ltb_spec (recv child) m).
    + rewrite Z.min_r by lia. apply IH; assumption.
    + rewrite Z.min_l by lia. apply IH; assumption.
Qed.

(** Without a time-out [minimax] returns, from every state, the score
    [mm_value] and leaves the time-out flag down. *)
Lemma minimax_value (depth : nat) :
  forall g flag st, is_time_out st = false ->
  returns_score (Search.minimax clock depth g flag st) (mm_value depth g flag).
Proof.
  induction depth as [|d IH]; intros g flag st Hst.
  - cbn [Search.minimax]. rewrite clock_never_fires.
    exists None, (Search.update_evaluations_per_depth (Search.tick st)).
    split; [reflexivity | exact Hst].
  - cbn [Search.minimax mm_value]. rewrite clock_never_fires.
    destruct (Moves.is_finished g).
    { exists None, (Search.update_evaluations_per_depth (Search.tick st)).
      split; [reflexivity | exact Hst]. }
    rewrite (children_of_get_children g). cbn [ebind]. destruct flag.
    + destruct (mm_max_loop_value (Search.minimax clock d)
                  (fun c => mm_value d c false) (children_of g)
                  (fun c s _ Hs => IH (fst c) false s Hs)
                  MIN_HEURISTIC_SCORE None 0 (Search.tick st) Hst)
        as [bm [bf [st' [-> Ht]]]].
      exists bm, (Search.update_average_branching st' bf). split; [reflexivity | exact Ht].
    + destruct (mm_min_loop_value (Search.minimax clock d)
                  (fun c => mm_value d c true) (children_of g)
                  (fun c s _ Hs => IH (fst c) true s Hs)
                  MAX_HEURISTIC_SCORE None 0 (Search.tick st) Hst)
        as [bm [bf [st' [-> Ht]]]].
      exists bm, (Search.update_average_branching st' bf). split; [reflexivity | exact Ht].
Qed.
End NoTimeOut.

Lemma not_finished_flags (g : Game) :
  Moves.is_finished g = false -> forall p, ai_flag g p = true.
Proof.
  unfold Moves.is_finished, Moves.has_winner. intros H p.
  destruct (match max_turns (options g) with Some mt => turns_played g >=? mt | None => false end);
    [discriminate|].
  destruct (_attacker_has_ai g) eqn:Ha; [|discriminate].
  destruct (_defender_has_ai g) eqn:Hd; [|discriminate].
  destruct p; assumption.
Qed.

(** In a well-formed position that is not finished the side to move has a
    successor: its AI is on the board and can at least self-destruct. *)
Lemma children_of_nonempty (g : Game) :
  wf_game g -> Moves.is_finished g = false -> children_of g <> [].
Proof.
  intros [_ Ha] Hf.
  destruct (Ha (next_player g) (not_finished_flags g Hf _)) as [c [u [Hg [Hp _]]]].
  destruct (get_children_has_own_cell g _ c u Hg Hp (children_of_get_children g)) as [child Hin].
  intros E. rewrite E in Hin. destruct Hin.
Qed.

Lemma children_of_wf (g : Game) (c : Game * CoordPair) :
  wf_game g -> In c (children_of g) -> wf_game (fst c).
Proof.
  intros Hwf Hin. destruct c as [child mv].
  exact (get_children_wf g _ child mv Hwf (children_of_get_children g) Hin).
Qed.

Lemma gtb_max (x a : Z) : (if x >? a then x else a) = Z.max a x.
Proof. destruct (Z.gtb_spec x a); lia. Qed.

Lemma ltb_min (x a : Z) : (if x <? a then x else a) = Z.min a x.
Proof. destruct (Z.ltb_spec x a); lia. Qed.

Section NoTimeOutAlphaBeta.
Variable clock : nat -> bool.
Hypothesis clock_never_fires : forall n, clock n = false.

Lemma ab_max_loop_value (rec : Search.Rec) (recv : Game -> Z -> Z -> Z)
      (children : list (Game * CoordPair)) :
  (forall c a b st, In c children -> is_time_out st = false ->
                    returns_score (rec (fst c) a b false st) (recv (fst c) a b)) ->
  forall v bm alpha beta bf st, is_time_out st = false ->
  exists bm' bf' st',
    Search.ab_max_loop rec children (v, bm) alpha beta bf st
    = Ret (Fell (ab_max_value recv children v alpha beta, bm') bf' st')
    /\ is_time_out st' = false.
Proof.
  induction children as [|[child move] rest IH]; intros Hrec v bm alpha beta bf st Hst.
  - exists bm, bf, st. split; [reflexivity | exact Hst].
  - destruct (Hrec (child, move) alpha beta st (or_introl eq_refl) Hst) as [mv [st1 [Hr Ht]]].
    cbn [fst] in Hr. cbn [Search.ab_max_loop ab_max_value fst]. rewrite Hr. cbn [ebind].
    rewrite Ht.
    assert (forall c a b st, In c rest -> is_time_out st = false ->
                             returns_score (rec (fst c) a b false st) (recv (fst c) a b)) as Hrest
      by (intros c a b s Hc; apply Hrec; right; exact Hc).
    destruct (Z.gtb_spec (recv child alpha beta) v); cbn [fst].
    + rewrite (Z.max_r v) by lia. rewrite gtb_max.
      destruct (beta <=? Z.max alpha (recv child alpha beta)).
      * do 3 eexists. split; [reflexivity | exact Ht].
      * apply IH; assumption.
    + rewrite (Z.max_l v) by lia. rewrite gtb_max.
      destruct (beta <=? Z.max alpha v).
      * do 3 eexists. split; [reflexivity | exact Ht].
      * apply IH; assumption.
Qed.

Lemma ab_min_loop_value (rec : Search.Rec) (recv : Game -> Z -> Z -> Z)
      (children : list (Game * CoordPair)) :
  (forall c a b st, In c children -> is_time_out st = false ->
                    returns_score (rec (fst c) a b true st) (recv (fst c) a b)) ->
  forall v bm alpha beta bf st, is_time_out st = false ->
  exists bm' st',
    Search.ab_min_loop rec children (v, bm) alpha beta bf st
    = Ret (Fell (ab_min_value recv children v alpha beta, bm')
                (match children with [] => bf | _ :: _ => Some 0 end) st')
    /\ is_time_out st' = false.
Proof.
  induction children as [|[child move] rest IH]; intros Hrec v bm alpha beta bf st Hst.
  - exists bm, st. split; [reflexivity | exact Hst].
  - destruct (Hrec (child, move) alpha beta st (or_introl eq_refl) Hst) as [mv [st1 [Hr Ht]]].
    cbn [fst] in Hr. cbn [Search.ab_min_loop ab_min_value fst]. rewrite Hr. cbn [ebind].
    rewrite Ht.
    assert (forall c a b st, In c rest -> is_time_out st = false ->
                             returns_score (rec (fst c) a b true st) (recv (fst c) a b)) as Hrest
      by (intros c a b s Hc; apply Hrec; right; exact Hc).
    assert (forall w bm0 b0, exists bm' st',
               Search.ab_min_loop rec rest (w, bm0) alpha b0 (Some 0) st1
               = Ret (Fell (ab_min_value recv rest w alpha b0, bm') (Some 0) st')
               /\ is_time_out st' = false) as IH'.
    { intros w bm0 b0. destruct (IH Hrest w bm0 alpha b0 (Some 0) st1 Ht) as [bm' [st' [E Ht']]].
      exists bm', st'. split; [|exact Ht']. rewrite E. destruct rest; reflexivity. }
    destruct (Z.ltb_spec (recv child alpha beta) v); cbn [fst].
    + rewrite (Z.min_r v) by lia. rewrite ltb_min.
      destruct (Z.min beta (recv child alpha beta) <=? alpha).
      * do 2 eexists. split; [reflexivity | exact Ht].
      * apply IH'.
    + rewrite (Z.min_l v) by lia. rewrite ltb_min.
      destruct (Z.min beta v <=? alpha).
      * do 2 eexists. split; [reflexivity | exact Ht].
      * apply IH'.
Qed.

(** Without a time-out [alpha_beta] returns, from every well-formed state
    and for every window, the score [ab_value], with the flag still down. *)
Lemma alpha_beta_value (depth : nat) :
  forall g alpha beta flag st, wf_game g -> is_time_out st = false ->
  returns_score (Search.alpha_beta clock depth g alpha beta flag st)
                (ab_value depth g alpha beta flag).
Proof.
  induction depth as [|d IH]; intros g alpha beta flag st Hwf Hst.
  - cbn [Search.alpha_beta]. rewrite clock_never_fires.
    exists None, (Search.update_evaluations_per_depth (Search.tick st)).
    split; [reflexivity | exact Hst].
  - cbn [Search.alpha_beta ab_value]. rewrite clock_never_fires.
    destruct (Moves.is_finished g) eqn:Hfin.
    { exists None, (Search.update_evaluations_per_depth (Search.tick st)).
      split; [reflexivity | exact Hst]. }
    rewrite (children_of_get_children g). cbn [ebind]. destruct flag.
    + destruct (ab_max_loop_value (Search.alpha_beta clock d)
                  (fun c a b => ab_value d c a b false) (children_of g)
                  (fun c a b s Hc Hs => IH (fst c) a b false s (children_of_wf g c Hwf Hc) Hs)
                  MIN_HEURISTIC_SCORE None alpha beta 0 (Search.tick st) Hst)
        as [bm [bf [st' [-> Ht]]]].
      exists bm, (Search.update_average_branching st' bf). split; [reflexivity | exact Ht].
    + destruct (ab_min_loop_value (Search.alpha_beta clock d)
                  (fun c a b => ab_value d c a b true) (children_of g)
                  (fun c a b s Hc Hs => IH (fst c) a b true s (children_of_wf g c Hwf Hc) Hs)
                  MAX_HEURISTIC_SCORE None alpha beta None (Search.tick st) Hst)
        as [bm [st' [-> Ht]]].
      pose proof (children_of_nonempty g Hwf Hfin) as Hne.
      destruct (children_of g) as [|c0 rest]; [contradiction|]. cbn [ebind].
      exists bm, (Search.update_average_branching st' 0). split; [reflexivity | exact Ht].
Qed.
End NoTimeOutAlphaBeta.

(** ** Pruning keeps the score *)

Lemma fold_max_ge {A} (f : A -> Z) (l : list A) (m : Z) :
  m <= fold_left (fun m c => Z.max m (f c)) l m.
Proof.
  revert m. induction l as [|a l IH]; intros m; cbn [fold_left]; [lia|].
  specialize (IH (Z.max m (f a))). lia.
Qed.

Lemma fold_min_le {A} (f : A -> Z) (l : list A) (m : Z) :
  fold_left (fun m c => Z.min m (f c)) l m <= m.
Proof.
  revert m. induction l as [|a l IH]; intros m; cbn [fold_left]; [lia|].
  specialize (IH (Z.min m (f a))). lia.
Qed.

Lemma fold_max_elem {A} (f : A -> Z) (l : list A) (m : Z) (a : A) :
  In a l -> f a <= fold_left (fun m c => Z.max m (f c)) l m.
Proof.
  revert m. induction l as [|b l IH]; intros m Hin; [destruct Hin|].
  cbn [fold_left]. destruct Hin as [->|Hin].
  - pose proof (fold_max_ge f l (Z.max m (f a))). lia.
  - apply IH, Hin.
Qed.

Section Window.
Variables lo hi : Z.
Variable mmc : Game -> Z.
Variable recv : Game -> Z -> Z -> Z.

(** The maximizing loop: [M] is the best minimax score of the successors
    seen so far, [v] the loop's [value_bestmove[0]], [acur] its [alpha]. *)
Lemma ab_max_value_window (children : list (Game * CoordPair)) (a0 beta : Z) :
  (forall c a b, In c children -> lo <= a -> a < b -> b <= hi ->
                 within_window (mmc (fst c)) (recv (fst c) a b) a b) ->
  lo <= a0 -> beta <= hi ->
  forall v M acur,
    acur = Z.max a0 M -> (M <= a0 -> v <= a0) -> (a0 < M -> v = M) -> acur < beta ->
    within_window (fold_left (fun m c => Z.max m (mmc (fst c))) children M)
                  (ab_max_value recv children v acur beta) a0 beta.
Proof.
  intros Hrec Hlo Hhi. induction children as [|c rest IH]; intros v M acur Ha Hv1 Hv2 Hlt.
  - cbn [fold_left ab_max_value]. unfold within_window. lia.
  - cbn [fold_left ab_max_value].
    assert (within_window (mmc (fst c)) (recv (fst c) acur beta) acur beta) as W
      by (apply Hrec; [left; reflexivity | lia | lia | lia]).
    destruct W as [W1 [W2 W3]].
    set (r := recv (fst c) acur beta) in *. set (mc := mmc (fst c)) in *.
    destruct (Z.leb_spec beta (Z.max acur (Z.max v r))) as [Hbrk|Hcont].
    + pose proof (fold_max_ge (fun c => mmc (fst c)) rest (Z.max M mc)) as Hge.
      cbv beta in Hge.
      generalize dependent (fold_left (fun m c => Z.max m (mmc (fst c))) rest (Z.max M mc)).
      intros F HF. unfold within_window. lia.
    + apply IH.
      * intros c' a b Hin. apply Hrec. right; exact Hin.
      * lia.
      * lia.
      * lia.
      * exact Hcont.
Qed.

Lemma ab_min_value_window (children : list (Game * CoordPair)) (alpha b0 : Z) :
  (forall c a b, In c children -> lo <= a -> a < b -> b <= hi ->
                 within_window (mmc (fst c)) (recv (fst c) a b) a b) ->
  lo <= alpha -> b0 <= hi ->
  forall v M bcur,
    bcur = Z.min b0 M -> (b0 <= M -> b0 <= v) -> (M < b0 -> v = M) -> alpha < bcur ->
    within_window (fold_left (fun m c => Z.min m (mmc (fst c))) children M)
                  (ab_min_value recv children v alpha bcur) alpha b0.
Proof.
  intros Hrec Hlo Hhi. induction children as [|c rest IH]; intros v M bcur Hb Hv1 Hv2 Hlt.
  - cbn [fold_left ab_min_value]. unfold within_window. lia.
  - cbn [fold_left ab_min_value].
    assert (within_window (mmc (fst c)) (recv (fst c) alpha bcur) alpha bcur) as W
      by (apply Hrec; [left; reflexivity | lia | lia | lia]).
    destruct W as [W1 [W2 W3]].
    set (r := recv (fst c) alpha bcur) in *. set (mc := mmc (fst c)) in *.
    destruct (Z.leb_spec (Z.min bcur (Z.min v r)) alpha) as [Hbrk|Hcont].
    + pose proof (fold_min_le (fun c => mmc (fst c)) rest (Z.min M mc)) as Hle.
      cbv beta in Hle.
      generalize dependent (fold_left (fun m c => Z.min m (mmc (fst c))) rest (Z.min M mc)).
      intros F HF. unfold within_window. lia.
    + apply IH.
      * intros c' a b Hin. apply Hrec. right; exact Hin.
      * lia.
      * lia.
      * lia.
      * exact Hcont.
Qed.
End Window.

(** The score of [alpha_beta] in a window inside [MIN, MAX] is the minimax
    score when that lies strictly inside the window, and lies on the same
    side of the window otherwise. *)
Lemma ab_value_window (depth : nat) :
  forall g alpha beta flag,
    MIN_HEURISTIC_SCORE <= alpha -> alpha < beta -> beta <= MAX_HEURISTIC_SCORE ->
    within_window (mm_value depth g flag) (ab_value depth g alpha beta flag) alpha beta.
Proof.
  induction depth as [|d IH]; intros g alpha beta flag Hlo Hlt Hhi.
  - cbn [mm_value ab_value]. unfold within_window. lia.
  - cbn [mm_value ab_value]. destruct (Moves.is_finished g); [unfold within_window; lia|].
    destruct flag.
    + apply (ab_max_value_window MIN_HEURISTIC_SCORE MAX_HEURISTIC_SCORE
               (fun c => mm_value d c false) (fun c a b => ab_value d c a b false));
        try lia.
      intros c a b _ H1 H2 H3. apply IH; assumption.
    + apply (ab_min_value_window MIN_HEURISTIC_SCORE MAX_HEURISTIC_SCORE
               (fun c => mm_value d c true) (fun c a b => ab_value d c a b true));
        try lia.
      intros c a b _ H1 H2 H3. apply IH; assumption.
Qed.

(** ** The starting position and the positions reached from it *)

Lemma is_valid_coord_set (g : Game) (c c' : Coord) (u : option Unit) :
  GameM.is_valid_coord (GameM.set g c u) c' = GameM.is_valid_coord g c'.
Proof. apply is_valid_coord_options, set_options. Qed.

Lemma empty_board_wf (opts : Options) (p : Player) (t : Z) (a d : bool) :
  0 <= dim opts -> board_wf (mkGame (Initial.empty_board (dim opts)) p t opts a d).
Proof.
  intros H. unfold board_wf, Initial.empty_board. cbn [options board].
  split; [exact H|]. split; [apply length_replicate|].
  apply Forall_replicate, length_replicate.
Qed.

Lemma post_init_wf (opts : Options) : 3 <= dim opts -> wf_game (Initial.post_init opts).
Proof.
  intros Hd. unfold Initial.post_init. cbn [fold_left fst snd].
  set (g0 := mkGame (Initial.empty_board (dim opts)) Attacker 0 opts true true).
  assert (board_wf g0) as Hwf0 by (apply empty_board_wf; lia).
  assert (forall c, 0 <= row c < dim opts -> 0 <= col c < dim opts ->
                    GameM.is_valid_coord g0 c = true) as Hvalid
    by (intros c Hr Hc; apply is_valid_coord_in_range; split; assumption).
  split; [repeat apply board_wf_set; exact Hwf0|].
  intros [|] _.
  - exists (mkCoord (dim opts - 1) (dim opts - 1)), (mkUnit Attacker AI 9).
    split; [|split; reflexivity].
    rewrite !get_set_ne by (intros E; injection E; lia).
    apply get_set_eq; [repeat apply board_wf_set; exact Hwf0|].
    rewrite !is_valid_coord_set. apply Hvalid; cbn [row col]; lia.
  - exists (mkCoord 0 0), (mkUnit Defender AI 9).
    split; [|split; reflexivity].
    rewrite !get_set_ne by (intros E; injection E; lia).
    apply get_set_eq; [exact Hwf0|]. apply Hvalid; cbn [row col]; lia.
Qed.

Lemma reachable_wf (opts : Options) (g : Game) :
  3 <= dim opts -> reachable opts g -> wf_game g.
Proof.
  intros Hd H. induction H as [|g coords s g' _ IH Hp].
  - apply post_init_wf, Hd.
  - apply next_turn_wf. eapply perform_move_wf; eassumption.
Qed.

(** ** The searches under an arbitrary clock *)

Section AnyClock.
Variable clock : nat -> bool.

Lemma mm_max_loop_returns (rec : Search.RecMM) (children : list (Game * CoordPair)) :
  (forall c f st, exists r, rec c f st = Ret r) ->
  forall m bm bf st, exists l, Search.mm_max_loop rec children m bm bf st = Ret l.
Proof.
  intros Hrec. induction children as [|[child move] rest IH]; intros m bm bf st.
  - eexists; reflexivity.
  - destruct (Hrec child false st) as [[[ev mv] st1] Hr].
    cbn [Search.mm_max_loop]. rewrite Hr. cbn [ebind].
    destruct (is_time_out st1); [eexists; reflexivity|].
    destruct (ev >? m); apply IH.
Qed.

Lemma mm_min_loop_returns (rec : Search.RecMM) (children : list (Game * CoordPair)) :
  (forall c f st, exists r, rec c f st = Ret r) ->
  forall m bm bf st, exists l, Search.mm_min_loop rec children m bm bf st = Ret l.
Proof.
  intros Hrec. induction children as [|[child move] rest IH]; intros m bm bf st.
  - eexists; reflexivity.
  - destruct (Hrec child true st) as [[[ev mv] st1] Hr].
    cbn [Search.mm_min_loop]. rewrite Hr. cbn [ebind].
    destruct (is_time_out st1); [eexists; reflexivity|].
    destruct (ev <? m); apply IH.
Qed.

Lemma minimax_returns (depth : nat) :
  forall g flag st, exists r, Search.minimax clock depth g flag st = Ret r.
Proof.
  induction depth as [|d IH]; intros g flag st.
  - cbn [Search.minimax]. destruct (clock _); eexists; reflexivity.
  - cbn [Search.minimax]. destruct (clock _); [eexists; reflexivity|].
    destruct (Moves.is_finished g); [eexists; reflexivity|].
    rewrite (children_of_get_children g). cbn [ebind]. destruct flag.
    + destruct (mm_max_loop_returns (Search.minimax clock d) (children_of g) IH
                  MIN_HEURISTIC_SCORE None 0 (Search.tick st)) as [l ->].
      cbn [ebind]. destruct l; eexists; reflexivity.
    + destruct (mm_min_loop_returns (Search.minimax clock d) (children_of g) IH
                  MAX_HEURISTIC_SCORE None 0 (Search.tick st)) as [l ->].
      cbn [ebind]. destruct l; eexists; reflexivity.
Qed.

Lemma ab_max_loop_returns (rec : Search.Rec) (children : list (Game * CoordPair)) :
  (forall c a b f st, In c children -> exists r, rec (fst c) a b f st = Ret r) ->
  forall vb alpha beta bf st,
  exists l, Search.ab_max_loop rec children vb alpha beta bf st = Ret l.
Proof.
  induction children as [|[child move] rest IH]; intros Hrec vb alpha beta bf st.
  - eexists; reflexivity.
  - destruct (Hrec (child, move) alpha beta false st (or_introl eq_refl)) as [[[ev mv] st1] Hr].
    cbn [fst] in Hr. cbn [Search.ab_max_loop]. rewrite Hr. cbn [ebind].
    destruct (is_time_out st1); [eexists; reflexivity|].
    match goal with |- context [if ?b then Ret _ else _] => destruct b end;
      [eexists; reflexivity|].
    apply IH. intros c a b f s Hc. apply Hrec. right; exact Hc.
Qed.

(** The minimizing loop of [alpha_beta] never falls out with
    [branch_factor] unassigned once it has entered its body. *)
Lemma ab_min_loop_returns (rec : Search.Rec) (children : list (Game * CoordPair)) :
  (forall c a b f st, In c children -> exists r, rec (fst c) a b f st = Ret r) ->
  forall vb alpha beta bf st, children <> [] \/ bf <> None ->
  exists l, Search.ab_min_loop rec children vb alpha beta bf st = Ret l
            /\ forall w s, l <> Fell w None s.
Proof.
  induction children as [|[child move] rest IH]; intros Hrec vb alpha beta bf st Hne.
  - exists (Fell vb bf st). split; [reflexivity|]. intros w s E.
    injection E as _ E _. destruct Hne as [H|H]; [apply H; reflexivity | apply H; exact E].
  - destruct (Hrec (child, move) alpha beta true st (or_introl eq_refl)) as [[[ev mv] st1] Hr].
    cbn [fst] in Hr. cbn [Search.ab_min_loop]. rewrite Hr. cbn [ebind].
    destruct (is_time_out st1); [eexists; split; [reflexivity | discriminate]|].
    match goal with |- context [if ?b then Ret _ else _] => destruct b end;
      [eexists; split; [reflexivity | discriminate]|].
    apply IH; [|right; discriminate].
    intros c a b f s Hc. apply Hrec. right; exact Hc.
Qed.

Lemma alpha_beta_returns (depth : nat) :
  forall g alpha beta flag st, wf_game g ->
  exists r, Search.alpha_beta clock depth g alpha beta flag st = Ret r.
Proof.
  induction depth as [|d IH]; intros g alpha beta flag st Hwf.
  - cbn [Search.alpha_beta]. destruct (clock _); eexists; reflexivity.
  - cbn [Search.alpha_beta]. destruct (clock _); [eexists; reflexivity|].
    destruct (Moves.is_finished g) eqn:Hfin; [eexists; reflexivity|].
    rewrite (children_of_get_children g). cbn [ebind].
    assert (forall c a b f s, In c (children_of g) ->
              exists r, Search.alpha_beta clock d (fst c) a b f s = Ret r) as Hrec
      by (intros c a b f s Hc; apply IH; eapply children_of_wf; eassumption).
    destruct flag.
    + destruct (ab_max_loop_returns (Search.alpha_beta clock d) (children_of g) Hrec
                  (MIN_HEURISTIC_SCORE, None) alpha beta 0 (Search.tick st)) as [l ->].
      cbn [ebind]. destruct l; eexists; reflexivity.
    + destruct (ab_min_loop_returns (Search.alpha_beta clock d) (children_of g) Hrec
                  (MAX_HEURISTIC_SCORE, None) alpha beta None (Search.tick st)
                  (or_introl (children_of_nonempty g Hwf Hfin))) as [l [-> Hl]].
      cbn [ebind]. destruct l as [r s|w [bf|] s]; [eexists; reflexivity | eexists; reflexivity|].
      exfalso. exact (Hl w s eq_refl).
Qed.
End AnyClock.

(** ** The deepening loop *)

Section Deepening.
Variable run : nat -> SearchState -> exc (Result * SearchState).
Hypothesis run_returns : forall d st, exists r, run d st = Ret r.

End Deepening.

(* ================================================================== *)
(** * Further properties of the search engine *)
(* ================================================================== *)

Lemma game0_wf : wf_game game0.
Proof. apply post_init_wf. vm_compute. discriminate. Qed.

Lemma no_timeout_never_fires (n : nat) : no_timeout n = false.
Proof. reflexivity. Qed.

(** [minimax] never raises: for every clock, depth, state, flag and search
    state it returns a pair.  The calls of [perform_move] made by
    [get_children] only ever print cells of the board and their neighbours. *)
Theorem minimax_never_raises (clock : nat -> bool) (depth : nat) (g : Game)
        (flag : bool) (st : SearchState) :
  exists score move st', Search.minimax clock depth g flag st = Ret ((score, move), st').
Proof.
  destruct (minimax_returns clock depth g flag st) as [[[score move] st'] H].
  exists score, move, st'. exact H.
Qed.

(** [alpha_beta] never raises from a well-formed state, whatever the clock,
    depth, window and flag: every minimizing node it expands has a successor,
    so [branch_factor] is assigned before it is read. *)
Theorem alpha_beta_never_raises_when_well_formed
        (clock : nat -> bool) (depth : nat) (g : Game) (alpha beta : Z)
        (flag : bool) (st : SearchState) :
  wf_game g ->
  exists score move st',
    Search.alpha_beta clock depth g alpha beta flag st = Ret ((score, move), st').
Proof.
  intros Hwf.
  destruct (alpha_beta_returns clock depth g alpha beta flag st Hwf) as [[[score move] st'] H].
  exists score, move, st'. exact H.
Qed.

Lemma alpha_beta_never_raises_when_well_formed_witness :
  exists score move st',
    Search.alpha_beta (fun n => Nat.leb 5 n) 3 game0 MIN_HEURISTIC_SCORE MAX_HEURISTIC_SCORE
                      true Initial.new_search
    = Ret ((score, move), st').
Proof.
  apply (alpha_beta_never_raises_when_well_formed (fun n => Nat.leb 5 n) 3 game0
           MIN_HEURISTIC_SCORE MAX_HEURISTIC_SCORE true Initial.new_search).
  exact game0_wf.
Defined.

(** When the clock never fires, [alpha_beta] with the full window and
    [minimax] both return from a well-formed state, and the alpha-beta score
    [v] is the minimax score [m] whenever [m] lies strictly between
    [MIN_HEURISTIC_SCORE] and [MAX_HEURISTIC_SCORE]; outside, [v] lies on the
    same side as [m]. *)
Theorem alpha_beta_score_is_minimax_score
        (clock : nat -> bool) (depth : nat) (g : Game) (flag : bool)
        (st_a st_m : SearchState) :
  (forall n, clock n = false) -> wf_game g ->
  is_time_out st_a = false -> is_time_out st_m = false ->
  exists m v,
    returns_score (Search.minimax clock depth g flag st_m) m
    /\ returns_score (Search.alpha_beta clock depth g MIN_HEURISTIC_SCORE
                                        MAX_HEURISTIC_SCORE flag st_a) v
    /\ (MIN_HEURISTIC_SCORE < m < MAX_HEURISTIC_SCORE -> v = m)
    /\ (m <= MIN_HEURISTIC_SCORE -> v <= MIN_HEURISTIC_SCORE)
    /\ (MAX_HEURISTIC_SCORE <= m -> MAX_HEURISTIC_SCORE <= v).
Proof.
  intros Hclock Hwf Ha Hm.
  exists (mm_value depth g flag),
         (ab_value depth g MIN_HEURISTIC_SCORE MAX_HEURISTIC_SCORE flag).
  split; [apply minimax_value; assumption|].
  split; [apply alpha_beta_value; assumption|].
  assert (MIN_HEURISTIC_SCORE < MAX_HEURISTIC_SCORE) as Hlt by reflexivity.
  destruct (ab_value_window depth g MIN_HEURISTIC_SCORE MAX_HEURISTIC_SCORE flag
              (Z.le_refl _) Hlt (Z.le_refl _)) as [W1 [W2 W3]].
  repeat split; assumption.
Qed.

Lemma alpha_beta_score_is_minimax_score_witness :
  exists m v,
    returns_score (Search.minimax no_timeout 2 game0 true Initial.new_search) m
    /\ returns_score (Search.alpha_beta no_timeout 2 game0 MIN_HEURISTIC_SCORE
                                        MAX_HEURISTIC_SCORE true Initial.new_search) v
    /\ (MIN_HEURISTIC_SCORE < m < MAX_HEURISTIC_SCORE -> v = m)
    /\ (m <= MIN_HEURISTIC_SCORE -> v <= MIN_HEURISTIC_SCORE)
    /\ (MAX_HEURISTIC_SCORE <= m -> MAX_HEURISTIC_SCORE <= v).
Proof.
  apply (alpha_beta_score_is_minimax_score no_timeout 2 game0 true
           Initial.new_search Initial.new_search).
  - exact no_timeout_never_fires.
  - exact game0_wf.
  - reflexivity.
  - reflexivity.
Defined.





(* ================================================================== *)
(** * Further properties of the board and of the actions *)
(* ================================================================== *)

(** [Game.set] followed by [Game.get]: on a board of the right shape a cell
    of the board reads back what was written, a coordinate off the board is
    refused by both (nothing is written, [None] is read), every other cell
    keeps its content, and the shape is kept. *)
Theorem set_get_round_trip (g : Game) (c : Coord) (u : option Unit) :
  board_wf g ->
  (GameM.is_valid_coord g c = true -> GameM.get (GameM.set g c u) c = u)
  /\ (GameM.is_valid_coord g c = false -> GameM.set g c u = g /\ GameM.get g c = None)
  /\ (forall c', c' <> c -> GameM.get (GameM.set g c u) c' = GameM.get g c')
  /\ board_wf (GameM.set g c u).
Proof.
  intros Hwf. split; [intros Hv; apply get_set_eq; assumption|].
  split.
  - intros Hv. unfold GameM.set, GameM.get. rewrite Hv. split; reflexivity.
  - split; [|apply board_wf_set; exact Hwf].
    intros c' Hne. apply get_set_ne. intros E. apply Hne. symmetry. exact E.
Qed.

Lemma set_get_round_trip_witness :
  (GameM.is_valid_coord game0 (mkCoord 2 2) = true ->
   GameM.get (GameM.set game0 (mkCoord 2 2) (Some (mkUnit Attacker Virus 4))) (mkCoord 2 2)
   = Some (mkUnit Attacker Virus 4))
  /\ (GameM.is_valid_coord game0 (mkCoord 2 2) = false ->
      GameM.set game0 (mkCoord 2 2) (Some (mkUnit Attacker Virus 4)) = game0
      /\ GameM.get game0 (mkCoord 2 2) = None)
  /\ (forall c', c' <> mkCoord 2 2 ->
        GameM.get (GameM.set game0 (mkCoord 2 2) (Some (mkUnit Attacker Virus 4))) c'
        = GameM.get game0 c')
  /\ board_wf (GameM.set game0 (mkCoord 2 2) (Some (mkUnit Attacker Virus 4))).
Proof.
  apply (set_get_round_trip game0 (mkCoord 2 2) (Some (mkUnit Attacker Virus 4))).
  exact (proj1 game0_wf).
Defined.

(** For any state and any pair of coordinates at most one of the four
    interpretations of [perform_move] applies, so the order in which
    [perform_move] tries them never decides the outcome. *)
Theorem at_most_one_action_applies (g : Game) (coords : CoordPair) :
  (GameM.is_valid_move g coords = true ->
   GameM.is_valid_attack g coords = false /\ GameM.is_valid_repair g coords = false
   /\ GameM.can_self_destruct g coords = false)
  /\ (GameM.is_valid_attack g coords = true ->
      GameM.is_valid_repair g coords = false /\ GameM.can_self_destruct g coords = false)
  /\ (GameM.is_valid_repair g coords = true -> GameM.can_self_destruct g coords = false).
Proof.
  assert (forall b : bool, (b = true -> False) -> b = false) as Hnot
    by (intros [|] H; [exfalso; apply H; reflexivity | reflexivity]).
  assert (GameM.is_valid_attack g coords = true ->
          GameM.is_valid_repair g coords = true -> False) as Har.
  { intros Ha Hr. apply is_valid_attack_spec in Ha. apply is_valid_repair_spec in Hr.
    destruct Ha as [_ [_ [us [ut [Hs [Ht [Hne _]]]]]]].
    destruct Hr as [_ [_ [us' [ut' [Hs' [Ht' [Heq _]]]]]]].
    rewrite Hs in Hs'. rewrite Ht in Ht'. injection Hs' as <-. injection Ht' as <-.
    apply Hne, Heq. }
  assert (GameM.is_valid_attack g coords = true ->
          GameM.can_self_destruct g coords = true -> False) as Has.
  { intros Ha Hs. apply is_valid_attack_spec in Ha. apply can_self_destruct_spec in Hs.
    destruct Ha as [_ [_ [us [ut [Hgs [Hgt [Hne _]]]]]]].
    destruct Hs as [_ [_ [_ Heq]]]. rewrite <- Heq, Hgs in Hgt. injection Hgt as <-.
    apply Hne. reflexivity. }
  assert (GameM.is_valid_repair g coords = true ->
          GameM.can_self_destruct g coords = true -> False) as Hrs.
  { intros Hr Hs. apply is_valid_repair_spec in Hr. apply can_self_destruct_spec in Hs.
    destruct Hr as [_ [_ [us [ut [_ [_ [_ [_ Hadj]]]]]]]].
    destruct Hs as [_ [_ [_ Heq]]]. rewrite <- Heq in Hadj.
    unfold CoordM.iter_adjacent in Hadj.
    destruct (src coords) as [r k]. cbn [row col] in Hadj.
    destruct Hadj as [E|[E|[E|[E|[]]]]]; injection E; lia. }
  split; [|split].
  - intros Hm. apply is_valid_move_cells in Hm. destruct Hm as [_ [u [Hs Hd]]].
    split; [|split]; apply Hnot; intros H.
    + apply is_valid_attack_cells in H. destruct H as [us [ut [_ Ht]]].
      rewrite Hd in Ht. discriminate.
    + apply is_valid_repair_cells in H. destruct H as [us [ut [_ Ht]]].
      rewrite Hd in Ht. discriminate.
    + apply can_self_destruct_spec in H. destruct H as [_ [_ [_ Heq]]].
      rewrite <- Heq, Hs in Hd. discriminate.
  - intros Ha. split; apply Hnot; intros H; [exact (Har Ha H) | exact (Has Ha H)].
  - intros Hr. apply Hnot. intros H. exact (Hrs Hr H).
Qed.

(** When an attack, a repair or a self-destruct is legal: both cells on the
    board and, for an attack, two units of different players in adjacent
    cells; for a repair, two units of the same player in adjacent cells with
    a non-zero repair amount; for a self-destruct, a unit named as both
    source and destination. *)
Theorem action_legality (g : Game) (coords : CoordPair) :
  (GameM.is_valid_attack g coords = true <->
   in_range g (src coords) /\ in_range g (dst coords)
   /\ exists us ut, GameM.get g (src coords) = Some us
        /\ GameM.get g (dst coords) = Some ut
        /\ player us <> player ut
        /\ In (dst coords) (CoordM.iter_adjacent (src coords)))
  /\ (GameM.is_valid_repair g coords = true <->
      in_range g (src coords) /\ in_range g (dst coords)
      /\ exists us ut, GameM.get g (src coords) = Some us
           /\ GameM.get g (dst coords) = Some ut
           /\ player us = player ut
           /\ UnitM.repair_amount us ut <> 0
           /\ In (dst coords) (CoordM.iter_adjacent (src coords)))
  /\ (GameM.can_self_destruct g coords = true <->
      in_range g (src coords) /\ in_range g (dst coords)
      /\ (exists u, GameM.get g (src coords) = Some u) /\ src coords = dst coords).
Proof.
  split; [apply is_valid_attack_spec|].
  split; [apply is_valid_repair_spec | apply can_self_destruct_spec].
Qed.

(** [perform_move] never touches the side to move, the turn counter or the
    options (only [next_turn] advances the turn), and a refused action
    returns the state it was given. *)
Theorem perform_move_changes_board_only
        (g g' : Game) (coords : CoordPair) (ok : bool) (text : string) :
  Moves.perform_move g coords = Ret ((ok, text), g') ->
  same_turn g g' /\ (ok = false -> g' = g).
Proof.
  unfold Moves.perform_move.
  destruct (GameM.is_valid_move g coords).
  { intros H. apply ebind_ret in H. destruct H as [s [_ H]]. injection H as <- _ <-.
    split; [apply do_move_same_turn | discriminate]. }
  destruct (GameM.is_valid_attack g coords).
  { destruct (GameM.get g (src coords)); [|discriminate].
    destruct (GameM.get g (dst coords)); [|discriminate].
    intros H. apply ebind_ret in H. destruct H as [s [_ H]]. injection H as <- _ <-.
    split; [apply do_attack_same_turn | discriminate]. }
  destruct (GameM.is_valid_repair g coords).
  { destruct (GameM.get g (src coords)); [|discriminate].
    destruct (GameM.get g (dst coords)); [|discriminate].
    intros H. apply ebind_ret in H. destruct H as [s [_ H]]. injection H as <- _ <-.
    split; [apply do_repair_same_turn | discriminate]. }
  destruct (GameM.can_self_destruct g coords).
  { intros H. apply ebind_ret in H. destruct H as [s [_ H]]. injection H as <- _ <-.
    split; [apply do_self_destruct_same_turn | discriminate]. }
  intros H. apply ebind_ret in H. destruct H as [s [_ H]]. injection H as <- _ <-.
  split; [apply same_turn_refl | reflexivity].
Qed.

Lemma perform_move_changes_board_only_witness :
  same_turn game0 (Moves.do_self_destruct game0 (pair_of 3 3 3 3))
  /\ (true = false -> Moves.do_self_destruct game0 (pair_of 3 3 3 3) = game0).
Proof.
  apply (perform_move_changes_board_only game0 _ (pair_of 3 3 3 3) true
           "Attacker - turn #1: self-destruct D3 -> D3"%string).
  vm_compute. reflexivity.
Defined.

(** ** Health changes on the board *)

Lemma get_same_board (g g' : Game) (c : Coord) :
  board g' = board g -> options g' = options g -> GameM.get g' c = GameM.get g c.
Proof.
  intros Hb Ho. unfold GameM.get, GameM.cell, GameM.is_valid_coord. rewrite Hb, Ho. reflexivity.
Qed.

Lemma set_invalid (g : Game) (c : Coord) (u : option Unit) :
  GameM.is_valid_coord g c = false -> GameM.set g c u = g.
Proof. intros H. unfold GameM.set. rewrite H. reflexivity. Qed.

Lemma remove_dead_board_wf (g : Game) (c : Coord) :
  board_wf g -> board_wf (GameM.remove_dead g c).
Proof.
  intros Hb. unfold GameM.remove_dead.
  destruct (GameM.get g c) as [unit|]; [|exact Hb].
  destruct (negb (UnitM.is_alive unit)); [|exact Hb].
  pose proof (board_wf_set g c None Hb) as Hb1.
  destruct (UnitTypeM.eqb (type unit) AI); [|exact Hb1].
  destruct (PlayerM.eqb (player unit) Attacker);
    (eapply board_wf_same_board; [| |exact Hb1]; reflexivity).
Qed.

Lemma mod_health_board_wf (g : Game) (c : Coord) (d : Z) :
  board_wf g -> board_wf (GameM.mod_health g c d).
Proof.
  intros Hb. unfold GameM.mod_health. destruct (GameM.get g c); [|exact Hb].
  apply remove_dead_board_wf, board_wf_set, Hb.
Qed.

(** [Game.mod_health] on one cell: the unit there gets the clamped new
    health and is taken off the board when that is 0; no other cell moves. *)
Lemma mod_health_get (g : Game) (c : Coord) (d : Z) :
  board_wf g ->
  GameM.get (GameM.mod_health g c d) c = after_mod_health (GameM.get g c) d
  /\ forall c', c' <> c -> GameM.get (GameM.mod_health g c d) c' = GameM.get g c'.
Proof.
  intros Hb. unfold GameM.mod_health, after_mod_health.
  destruct (GameM.get g c) as [target|] eqn:Hg; [|split; [exact Hg | reflexivity]].
  pose proof (get_some_valid _ _ _ Hg) as Hv.
  set (t' := UnitM.mod_health target d).
  set (g1 := GameM.set g c (Some t')).
  assert (GameM.get g1 c = Some t') as Hg1 by (apply get_set_eq; assumption).
  assert (board_wf g1) as Hb1 by (apply board_wf_set; exact Hb).
  assert (GameM.is_valid_coord g1 c = true) as Hv1
    by (unfold g1; rewrite is_valid_coord_set; exact Hv).
  assert (forall c', c' <> c -> GameM.get g1 c' = GameM.get g c') as Hframe1.
  { intros c' Hne. apply get_set_ne. intros E. apply Hne. symmetry. exact E. }
  unfold GameM.remove_dead, survivor. rewrite Hg1.
  destruct (UnitM.is_alive t'); cbn [negb]; [split; assumption|].
  assert (forall g2, board g2 = board (GameM.set g1 c None) ->
                     options g2 = options (GameM.set g1 c None) ->
                     GameM.get g2 c = None
                     /\ forall c', c' <> c -> GameM.get g2 c' = GameM.get g c') as Hfin.
  { intros g2 Hbd Hop. split.
    - rewrite (get_same_board _ g2 c Hbd Hop). apply get_set_eq; assumption.
    - intros c' Hne. rewrite (get_same_board _ g2 c' Hbd Hop).
      rewrite get_set_ne by (intros E; apply Hne; symmetry; exact E).
      apply Hframe1, Hne. }
  destruct (UnitTypeM.eqb (type t') AI); [|apply Hfin; reflexivity].
  destruct (PlayerM.eqb (player t') Attacker); apply Hfin; reflexivity.
Qed.

Lemma mod_health_unit_range (u : Unit) (d : Z) : 0 <= health (UnitM.mod_health u d) <= 9.
Proof.
  unfold UnitM.mod_health. cbn [health].
  destruct (Z.ltb_spec (health u + d) 0); [lia|].
  destruct (Z.gtb_spec (health u + d) 9); lia.
Qed.

Lemma after_mod_health_alive (cell : option Unit) (d : Z) (u : Unit) :
  after_mod_health cell d = Some u -> 1 <= health u <= 9.
Proof.
  unfold after_mod_health, survivor. destruct cell as [t|]; [|discriminate].
  destruct (UnitM.is_alive (UnitM.mod_health t d)) eqn:Ha; [|discriminate].
  intros E. injection E as <-. pose proof (mod_health_unit_range t d).
  unfold UnitM.is_alive in Ha. apply Z.gtb_lt in Ha. lia.
Qed.

Lemma mod_health_alive (g : Game) (c : Coord) (d : Z) :
  board_wf g -> units_alive g -> units_alive (GameM.mod_health g c d).
Proof.
  intros Hb Ha c0 u0 H0. destruct (mod_health_get g c d Hb) as [Hat Hframe].
  destruct (Coord_eq_dec c0 c) as [->|Hne].
  - rewrite Hat in H0. eapply after_mod_health_alive. exact H0.
  - rewrite (Hframe c0 Hne) in H0. apply (Ha c0 u0 H0).
Qed.

Lemma fold_mod_health_board_wf (l : list Coord) (d : Z) (g : Game) :
  board_wf g -> board_wf (fold_left (fun acc c => GameM.mod_health acc c d) l g).
Proof.
  revert g. induction l as [|c l IH]; intros g H; [exact H|].
  cbn [fold_left]. apply IH, mod_health_board_wf, H.
Qed.

Lemma fold_mod_health_alive (l : list Coord) (d : Z) (g : Game) :
  board_wf g -> units_alive g ->
  units_alive (fold_left (fun acc c => GameM.mod_health acc c d) l g).
Proof.
  revert g. induction l as [|c l IH]; intros g Hb Ha; [exact Ha|].
  cbn [fold_left]. apply IH; [apply mod_health_board_wf | apply mod_health_alive]; assumption.
Qed.

Lemma do_move_alive (g : Game) (coords : CoordPair) :
  GameM.is_valid_move g coords = true -> board_wf g -> units_alive g ->
  units_alive (Moves.do_move g coords).
Proof.
  intros Hv Hb Ha. apply is_valid_move_cells in Hv. destruct Hv as [Hvd [u [Hgs Hgd]]].
  pose proof (get_some_valid _ _ _ Hgs) as Hvs.
  unfold Moves.do_move. rewrite Hgs. intros c0 u0 H0.
  destruct (Coord_eq_dec c0 (src coords)) as [->|Hns].
  - rewrite get_set_eq in H0; [discriminate | apply board_wf_set; exact Hb|].
    rewrite is_valid_coord_set. exact Hvs.
  - rewrite get_set_ne in H0 by (intros E; apply Hns; symmetry; exact E).
    destruct (Coord_eq_dec c0 (dst coords)) as [->|Hnd].
    + rewrite get_set_eq in H0 by assumption. injection H0 as <-. apply (Ha _ _ Hgs).
    + rewrite get_set_ne in H0 by (intros E; apply Hnd; symmetry; exact E).
      apply (Ha _ _ H0).
Qed.

Lemma perform_move_alive (g g' : Game) (coords : CoordPair) (r : bool * string) :
  board_wf g -> units_alive g -> Moves.perform_move g coords = Ret (r, g') -> units_alive g'.
Proof.
  intros Hb Ha. unfold Moves.perform_move.
  destruct (GameM.is_valid_move g coords) eqn:Hm.
  { intros H. apply ebind_ret in H. destruct H as [s [_ H]]. injection H as _ <-.
    apply do_move_alive; assumption. }
  destruct (GameM.is_valid_attack g coords).
  { destruct (GameM.get g (src coords)); [|discriminate].
    destruct (GameM.get g (dst coords)); [|discriminate].
    intros H. apply ebind_ret in H. destruct H as [s [_ H]]. injection H as _ <-.
    unfold Moves.do_attack.
    apply mod_health_alive; [apply mod_health_board_wf | apply mod_health_alive]; assumption. }
  destruct (GameM.is_valid_repair g coords).
  { destruct (GameM.get g (src coords)); [|discriminate].
    destruct (GameM.get g (dst coords)); [|discriminate].
    intros H. apply ebind_ret in H. destruct H as [s [_ H]]. injection H as _ <-.
    unfold Moves.do_repair. apply mod_health_alive; assumption. }
  destruct (GameM.can_self_destruct g coords).
  { intros H. apply ebind_ret in H. destruct H as [s [_ H]]. injection H as _ <-.
    unfold Moves.do_self_destruct.
    apply fold_mod_health_alive; [apply mod_health_board_wf | apply mod_health_alive];
      assumption. }
  intros H. apply ebind_ret in H. destruct H as [s [_ H]]. injection H as _ <-. assumption.
Qed.

Lemma empty_board_get (opts : Options) (p : Player) (t : Z) (a d : bool) (c : Coord) :
  GameM.get (mkGame (Initial.empty_board (dim opts)) p t opts a d) c = None.
Proof.
  unfold GameM.get, GameM.cell, Initial.empty_board. cbn [board].
  destruct (GameM.is_valid_coord _ c); [|reflexivity].
  destruct (replicate _ _ !! Z.to_nat (row c)) as [r|] eqn:Hr; [|reflexivity].
  apply lookup_replicate in Hr. destruct Hr as [-> _].
  destruct (replicate _ _ !! Z.to_nat (col c)) as [x|] eqn:Hx; [|reflexivity].
  apply lookup_replicate in Hx. destruct Hx as [-> _]. reflexivity.
Qed.

Lemma set_alive (g : Game) (c : Coord) (u : Unit) :
  board_wf g -> 1 <= health u <= 9 -> units_alive g -> units_alive (GameM.set g c (Some u)).
Proof.
  intros Hb Hu Ha c0 u0 H0.
  destruct (GameM.is_valid_coord g c) eqn:Hv;
    [|rewrite set_invalid in H0 by exact Hv; apply (Ha _ _ H0)].
  destruct (Coord_eq_dec c0 c) as [->|Hne].
  - rewrite get_set_eq in H0 by assumption. injection H0 as <-. exact Hu.
  - rewrite get_set_ne in H0 by (intros E; apply Hne; symmetry; exact E). apply (Ha _ _ H0).
Qed.

Lemma post_init_alive (opts : Options) : 0 <= dim opts -> units_alive (Initial.post_init opts).
Proof.
  intros Hd. unfold Initial.post_init. cbn [fold_left fst snd].
  set (g0 := mkGame (Initial.empty_board (dim opts)) Attacker 0 opts true true).
  assert (board_wf g0) as Hwf0 by (apply empty_board_wf; exact Hd).
  assert (units_alive g0) as Ha0
    by (intros c u H; unfold g0 in H; rewrite empty_board_get in H; discriminate).
  repeat (apply set_alive; [repeat apply board_wf_set; exact Hwf0 | cbn [health]; lia |]).
  exact Ha0.
Qed.

Lemma perform_move_options (g g' : Game) (coords : CoordPair) (r : bool * string) :
  Moves.perform_move g coords = Ret (r, g') -> options g' = options g.
Proof.
  unfold Moves.perform_move.
  destruct (GameM.is_valid_move g coords).
  { intros H. apply ebind_ret in H. destruct H as [s [_ H]]. injection H as _ <-.
    apply do_move_same_turn. }
  destruct (GameM.is_valid_attack g coords).
  { destruct (GameM.get g (src coords)); [|discriminate].
    destruct (GameM.get g (dst coords)); [|discriminate].
    intros H. apply ebind_ret in H. destruct H as [s [_ H]]. injection H as _ <-.
    apply do_attack_same_turn. }
  destruct (GameM.is_valid_repair g coords).
  { destruct (GameM.get g (src coords)); [|discriminate].
    destruct (GameM.get g (dst coords)); [|discriminate].
    intros H. apply ebind_ret in H. destruct H as [s [_ H]]. injection H as _ <-.
    apply do_repair_same_turn. }
  destruct (GameM.can_self_destruct g coords).
  { intros H. apply ebind_ret in H. destruct H as [s [_ H]]. injection H as _ <-.
    apply do_self_destruct_same_turn. }
  intros H. apply ebind_ret in H. destruct H as [s [_ H]]. injection H as _ <-. reflexivity.
Qed.

(** ** Positions of a game *)

(** Every position reached from the starting position of a board of
    dimension at least 3 has a dim x dim board, plays under the options it
    started with, keeps only live units with health in 1..9 on the board,
    and has each has-AI flag that is still set backed by that AI on the
    board. *)
Theorem reachable_positions_well_formed (opts : Options) (g : Game) :
  3 <= dim opts -> reachable opts g ->
  wf_game g /\ units_alive g /\ options g = opts.
Proof.
  intros Hd H. split; [apply (reachable_wf opts g Hd H)|].
  induction H as [|g coords s g' Hreach IH Hp].
  - split; [apply post_init_alive; lia|]. unfold Initial.post_init. cbn [fold_left].
    rewrite !set_options. reflexivity.
  - destruct IH as [Ha Ho]. split.
    + intros c u Hg. rewrite (get_same_board g' (Moves.next_turn g') c eq_refl eq_refl) in Hg.
      revert c u Hg. eapply perform_move_alive; [|exact Ha|exact Hp].
      apply (reachable_wf opts g Hd Hreach).
    + cbn [Moves.next_turn options]. rewrite (perform_move_options _ _ _ _ Hp). exact Ho.
Qed.

Lemma reachable_positions_well_formed_witness :
  wf_game game_contact /\ units_alive game_contact
  /\ options game_contact = Initial.default_options.
Proof.
  apply (reachable_positions_well_formed Initial.default_options game_contact).
  - vm_compute. discriminate.
  - exact game_contact_reachable.
Defined.

(** ** Successors *)

(** [get_children] never raises, and each successor it lists comes from a
    unit of the side to move acting on one of its four neighbours or on its
    own cell: the action succeeded in [perform_move] and the successor is
    the resulting state with the turn passed on.  Each pair is read when it
    is yielded, as the search loops do: the move on a unit's own cell is
    yielded without a clone and the generator overwrites that object when it
    goes on to the next unit. *)
Theorem get_children_sound (g : Game) :
  exists l, Moves.get_children g = Ret l
  /\ forall child mv, In (child, mv) l ->
       (exists u, GameM.get g (src mv) = Some u /\ player u = next_player g)
       /\ In (dst mv) (CoordM.iter_adjacent (src mv) ++ [src mv])
       /\ exists text g', Moves.perform_move g mv = Ret ((true, text), g')
                          /\ child = Moves.next_turn g'.
Proof.
  exists (children_of g). split; [apply children_of_get_children|].
  intros child mv Hin. pose proof (children_of_get_children g) as H.
  unfold Moves.get_children in H.
  apply (proj1 (concat_exc_in _ _ _ _ H)) in Hin. destruct Hin as [su [xs [Hsu [Hxs Hin]]]].
  apply (proj1 (concat_exc_in _ _ _ _ Hxs)) in Hin. destruct Hin as [d [ys [Hd [Hys Hin]]]].
  destruct (try_child_in _ _ _ _ _ Hys Hin) as [-> Hperf].
  apply player_units_owner in Hsu. destruct Hsu as [Hg Hp]. cbn [src dst].
  split; [exists (snd su); split; assumption|]. split; [exact Hd | exact Hperf].
Qed.

(** [get_children] misses nothing: every action of a unit of the side to
    move on a neighbouring cell or on its own cell that [perform_move]
    accepts is listed with its resulting state. *)
Theorem get_children_complete (g : Game) (l : list (Game * CoordPair))
        (c d : Coord) (u : Unit) (text : string) (g' : Game) :
  Moves.get_children g = Ret l ->
  GameM.get g c = Some u -> player u = next_player g ->
  In d (CoordM.iter_adjacent c ++ [c]) ->
  Moves.perform_move g (mkCoordPair c d) = Ret ((true, text), g') ->
  In (Moves.next_turn g', mkCoordPair c d) l.
Proof.
  intros H Hg Hp Hd Hperf. unfold Moves.get_children in H.
  destruct (ebind_ret_concat _ _ _ (c, u) H (player_units_complete g _ c u Hg Hp))
    as [xs [Hxs Hsub]].
  apply Hsub. cbn [fst] in Hxs. apply (proj2 (concat_exc_in _ _ _ _ Hxs)).
  exists d, [(Moves.next_turn g', mkCoordPair c d)].
  split; [exact Hd|]. split; [|left; reflexivity].
  unfold Moves.try_child. rewrite Hperf. reflexivity.
Qed.

Lemma get_children_complete_witness :
  In (Moves.next_turn (Moves.do_self_destruct game0 (pair_of 3 3 3 3)), pair_of 3 3 3 3)
     (children_of game0).
Proof.
  apply (get_children_complete game0 (children_of game0) (mkCoord 3 3) (mkCoord 3 3)
           (mkUnit Attacker Firewall 9)
           "Attacker - turn #1: self-destruct D3 -> D3"%string).
  - apply children_of_get_children.
  - vm_compute. reflexivity.
  - reflexivity.
  - right. right. right. right. left. reflexivity.
  - vm_compute. reflexivity.
Defined.

(** A well-formed position that is not finished has at least one successor:
    the AI of the side to move can always act on its own cell. *)
Theorem open_position_has_successor (g : Game) :
  wf_game g -> Moves.is_finished g = false ->
  exists child mv rest, Moves.get_children g = Ret ((child, mv) :: rest).
Proof.
  intros Hwf Hfin. pose proof (children_of_nonempty g Hwf Hfin) as Hne.
  pose proof (children_of_get_children g) as H.
  destruct (children_of g) as [|[child mv] rest]; [contradiction|].
  exists child, mv, rest. exact H.
Qed.

Lemma open_position_has_successor_witness :
  exists child mv rest, Moves.get_children game0 = Ret ((child, mv) :: rest).
Proof.
  apply (open_position_has_successor game0); [exact game0_wf | reflexivity].
Defined.

(** ** Outcome of an attack *)

Lemma do_attack_cells (g : Game) (coords : CoordPair) (us ut : Unit) :
  board_wf g -> dst coords <> src coords ->
  GameM.get g (src coords) = Some us -> GameM.get g (dst coords) = Some ut ->
  GameM.get (Moves.do_attack g coords us ut) (src coords)
  = survivor (UnitM.mod_health us (- UnitM.damage_amount ut us))
  /\ GameM.get (Moves.do_attack g coords us ut) (dst coords)
     = survivor (UnitM.mod_health ut (- UnitM.damage_amount us ut))
  /\ forall c, c <> src coords -> c <> dst coords ->
       GameM.get (Moves.do_attack g coords us ut) c = GameM.get g c.
Proof.
  intros Hb Hne Hs Ht. unfold Moves.do_attack.
  set (g1 := GameM.mod_health g (src coords) (- UnitM.damage_amount ut us)).
  destruct (mod_health_get g (src coords) (- UnitM.damage_amount ut us) Hb) as [Hat1 Hfr1].
  fold g1 in Hat1, Hfr1.
  assert (board_wf g1) as Hb1 by (apply mod_health_board_wf; exact Hb).
  destruct (mod_health_get g1 (dst coords) (- UnitM.damage_amount us ut) Hb1) as [Hat2 Hfr2].
  split; [|split].
  - rewrite Hfr2 by (intros E; apply Hne; symmetry; exact E).
    rewrite Hat1, Hs. reflexivity.
  - rewrite Hat2, (Hfr1 _ Hne), Ht. reflexivity.
  - intros c Hcs Hcd. rewrite (Hfr2 c Hcd). apply Hfr1, Hcs.
Qed.

(** When [perform_move] carries out an attack both units are hurt: the
    source loses what the target deals to it and the target what the source
    deals, each computed from the healths before the attack; a unit whose
    health reaches 0 leaves the board, and no other cell changes. *)
Theorem attack_outcome (g g' : Game) (coords : CoordPair) (us ut : Unit)
        (ok : bool) (text : string) :
  board_wf g -> GameM.is_valid_attack g coords = true ->
  GameM.get g (src coords) = Some us -> GameM.get g (dst coords) = Some ut ->
  Moves.perform_move g coords = Ret ((ok, text), g') ->
  ok = true
  /\ GameM.get g' (src coords) = survivor (UnitM.mod_health us (- UnitM.damage_amount ut us))
  /\ GameM.get g' (dst coords) = survivor (UnitM.mod_health ut (- UnitM.damage_amount us ut))
  /\ forall c, c <> src coords -> c <> dst coords -> GameM.get g' c = GameM.get g c.
Proof.
  intros Hb Hv Hs Ht Hp.
  assert (dst coords <> src coords) as Hne.
  { intros E. apply is_valid_attack_spec in Hv.
    destruct Hv as [_ [_ [us' [ut' [Hs' [Ht' [Hpl _]]]]]]].
    rewrite E, Hs' in Ht'. injection Ht' as <-. apply Hpl. reflexivity. }
  unfold Moves.perform_move in Hp.
  destruct (GameM.is_valid_move g coords) eqn:Hm.
  { apply is_valid_move_cells in Hm. destruct Hm as [_ [u [_ Hd]]].
    rewrite Hd in Ht. discriminate. }
  rewrite Hv, Hs, Ht in Hp. apply ebind_ret in Hp. destruct Hp as [s [_ Hp]].
  injection Hp as <- _ <-. split; [reflexivity|].
  apply do_attack_cells; assumption.
Qed.

Lemma attack_outcome_witness :
  true = true
  /\ GameM.get (play_on game_contact (pair_of 2 2 2 1)) (mkCoord 2 2)
     = survivor (UnitM.mod_health (mkUnit Attacker Program 9)
                   (- UnitM.damage_amount (mkUnit Defender Firewall 9)
                                          (mkUnit Attacker Program 9)))
  /\ GameM.get (play_on game_contact (pair_of 2 2 2 1)) (mkCoord 2 1)
     = survivor (UnitM.mod_health (mkUnit Defender Firewall 9)
                   (- UnitM.damage_amount (mkUnit Attacker Program 9)
                                          (mkUnit Defender Firewall 9)))
  /\ forall c, c <> mkCoord 2 2 -> c <> mkCoord 2 1 ->
       GameM.get (play_on game_contact (pair_of 2 2 2 1)) c = GameM.get game_contact c.
Proof.
  apply (attack_outcome game_contact (play_on game_contact (pair_of 2 2 2 1))
           (pair_of 2 2 2 1) (mkUnit Attacker Program 9) (mkUnit Defender Firewall 9)
           true "Defender - turn #4: attack C2 -> C1"%string).
  - apply (reachable_wf Initial.default_options game_contact);
      [vm_compute; discriminate | exact game_contact_reachable].
  - vm_compute. reflexivity.
  - vm_compute. reflexivity.
  - vm_compute. reflexivity.
  - vm_compute. reflexivity.
Defined.

(** ** Outcome of a move, a repair and a self-destruct *)

Lemma adjacent_ne (c d : Coord) : In d (CoordM.iter_adjacent c) -> d <> c.
Proof.
  unfold CoordM.iter_adjacent. destruct c as [r k]. cbn [row col].
  intros [E|[E|[E|[E|[]]]]] H; rewrite H in E; injection E; lia.
Qed.

(** When [perform_move] carries out a move the unit stands on the
    destination, the source is empty, and no other cell changes. *)
Theorem move_outcome (g g' : Game) (coords : CoordPair) (u : Unit)
        (ok : bool) (text : string) :
  board_wf g -> GameM.is_valid_move g coords = true ->
  GameM.get g (src coords) = Some u ->
  Moves.perform_move g coords = Ret ((ok, text), g') ->
  ok = true
  /\ GameM.get g' (dst coords) = Some u
  /\ GameM.get g' (src coords) = None
  /\ forall c, c <> src coords -> c <> dst coords -> GameM.get g' c = GameM.get g c.
Proof.
  intros Hb Hm Hs Hp. unfold Moves.perform_move in Hp. rewrite Hm in Hp.
  apply ebind_ret in Hp. destruct Hp as [s [_ Hp]]. injection Hp as <- _ <-.
  apply is_valid_move_cells in Hm. destruct Hm as [Hvd [u' [Hs' Hd]]].
  assert (src coords <> dst coords) as Hne
    by (intros E; rewrite E, Hd in Hs; discriminate).
  pose proof (get_some_valid _ _ _ Hs) as Hvs.
  unfold Moves.do_move. rewrite Hs. split; [reflexivity|]. split; [|split].
  - rewrite get_set_ne by exact Hne. apply get_set_eq; assumption.
  - apply get_set_eq; [apply board_wf_set; exact Hb|]. rewrite is_valid_coord_set. exact Hvs.
  - intros c Hcs Hcd.
    rewrite get_set_ne by (intros E; apply Hcs; symmetry; exact E).
    apply get_set_ne. intros E; apply Hcd; symmetry; exact E.
Qed.

Lemma move_outcome_witness :
  true = true
  /\ GameM.get (play_on game0 (pair_of 2 4 2 3)) (mkCoord 2 3) = Some (mkUnit Attacker Program 9)
  /\ GameM.get (play_on game0 (pair_of 2 4 2 3)) (mkCoord 2 4) = None
  /\ forall c, c <> mkCoord 2 4 -> c <> mkCoord 2 3 ->
       GameM.get (play_on game0 (pair_of 2 4 2 3)) c = GameM.get game0 c.
Proof.
  apply (move_outcome game0 (play_on game0 (pair_of 2 4 2 3)) (pair_of 2 4 2 3)
           (mkUnit Attacker Program 9) true "Attacker - turn #1: move C4 -> C3"%string).
  - exact (proj1 game0_wf).
  - vm_compute. reflexivity.
  - vm_compute. reflexivity.
  - vm_compute. reflexivity.
Defined.

(** When [perform_move] carries out a repair only the target changes: its
    health grows by the repair amount, and the repairing unit and every
    other cell stay as they were. *)
Theorem repair_outcome (g g' : Game) (coords : CoordPair) (us ut : Unit)
        (ok : bool) (text : string) :
  board_wf g -> GameM.is_valid_repair g coords = true ->
  GameM.get g (src coords) = Some us -> GameM.get g (dst coords) = Some ut ->
  Moves.perform_move g coords = Ret ((ok, text), g') ->
  ok = true
  /\ GameM.get g' (dst coords) = survivor (UnitM.mod_health ut (UnitM.repair_amount us ut))
  /\ forall c, c <> dst coords -> GameM.get g' c = GameM.get g c.
Proof.
  intros Hb Hv Hs Ht Hp. unfold Moves.perform_move in Hp.
  destruct (GameM.is_valid_move g coords) eqn:Hm.
  { apply is_valid_move_cells in Hm. destruct Hm as [_ [u [_ Hd]]].
    rewrite Hd in Ht. discriminate. }
  destruct (GameM.is_valid_attack g coords) eqn:Ha.
  { exfalso. apply is_valid_attack_spec in Ha. apply is_valid_repair_spec in Hv.
    destruct Ha as [_ [_ [a [b [Ha1 [Ha2 [Hne _]]]]]]].
    destruct Hv as [_ [_ [a' [b' [Hv1 [Hv2 [Heq _]]]]]]].
    rewrite Ha1 in Hv1. rewrite Ha2 in Hv2. injection Hv1 as <-. injection Hv2 as <-.
    apply Hne, Heq. }
  rewrite Hv, Hs, Ht in Hp. apply ebind_ret in Hp. destruct Hp as [s [_ Hp]].
  injection Hp as <- _ <-. split; [reflexivity|]. unfold Moves.do_repair.
  destruct (mod_health_get g (dst coords) (UnitM.repair_amount us ut) Hb) as [Hat Hfr].
  split; [rewrite Hat, Ht; reflexivity | exact Hfr].
Qed.

Lemma repair_outcome_witness :
  true = true
  /\ GameM.get (play_on game_after_blast (pair_of 4 4 4 3)) (mkCoord 4 3)
     = survivor (UnitM.mod_health (mkUnit Attacker Virus 7)
                   (UnitM.repair_amount (mkUnit Attacker AI 7) (mkUnit Attacker Virus 7)))
  /\ forall c, c <> mkCoord 4 3 ->
       GameM.get (play_on game_after_blast (pair_of 4 4 4 3)) c = GameM.get game_after_blast c.
Proof.
  apply (repair_outcome game_after_blast (play_on game_after_blast (pair_of 4 4 4 3))
           (pair_of 4 4 4 3) (mkUnit Attacker AI 7) (mkUnit Attacker Virus 7)
           true "Defender - turn #2: repair E4 -> E3"%string).
  - apply (reachable_wf Initial.default_options game_after_blast);
      [vm_compute; discriminate | exact game_after_blast_reachable].
  - vm_compute. reflexivity.
  - vm_compute. reflexivity.
  - vm_compute. reflexivity.
  - vm_compute. reflexivity.
Defined.

Lemma fold_mod_health_get (l : list Coord) (d : Z) :
  List.NoDup l -> forall g, board_wf g ->
  (forall c, In c l ->
     GameM.get (fold_left (fun acc c => GameM.mod_health acc c d) l g) c
     = after_mod_health (GameM.get g c) d)
  /\ (forall c, ~ In c l ->
        GameM.get (fold_left (fun acc c => GameM.mod_health acc c d) l g) c = GameM.get g c).
Proof.
  induction l as [|c0 l IH]; intros Hnd g Hb.
  - split; [intros c [] | reflexivity].
  - inversion Hnd as [|x xs Hnotin Hnd']; subst.
    destruct (mod_health_get g c0 d Hb) as [Hat Hfr].
    destruct (IH Hnd' (GameM.mod_health g c0 d) (mod_health_board_wf g c0 d Hb)) as [Hin Hout].
    cbn [fold_left]. split.
    + intros c [<-|Hc].
      * rewrite Hout by exact Hnotin. exact Hat.
      * rewrite (Hin c Hc). rewrite Hfr; [reflexivity|].
        intros ->. apply Hnotin, Hc.
    + intros c Hc. rewrite Hout by (intros H; apply Hc; right; exact H).
      apply Hfr. intros ->. apply Hc. left; reflexivity.
Qed.

Lemma in_iter_range (c c' : Coord) (dist : Z) :
  In c' (CoordM.iter_range c dist)
  <-> row c - dist <= row c' <= row c + dist /\ col c - dist <= col c' <= col c + dist.
Proof.
  unfold CoordM.iter_range. rewrite in_flat_map. split.
  - intros [r [Hr Hc]]. apply in_map_iff in Hc. destruct Hc as [k [<- Hk]].
    apply in_range_iff in Hr, Hk. cbn [row col]. lia.
  - intros [Hr Hc]. exists (row c'). split; [apply in_range_iff; lia|].
    apply in_map_iff. exists (col c'). split; [destruct c'; reflexivity|].
    apply in_range_iff. lia.
Qed.

Lemma range_three (lo hi : Z) : hi = lo + 3 -> CoordM.range lo hi = [lo; lo + 1; lo + 2].
Proof.
  intros ->. unfold CoordM.range. replace (lo + 3 - lo) with 3 by lia.
  change (Z.to_nat 3) with 3%nat. cbn [seq map].
  change (Z.of_nat 0) with 0. change (Z.of_nat 1) with 1. change (Z.of_nat 2) with 2.
  rewrite Z.add_0_r. reflexivity.
Qed.

Lemma iter_range_one_NoDup (c : Coord) : List.NoDup (CoordM.iter_range c 1).
Proof.
  unfold CoordM.iter_range.
  rewrite (range_three (row c - 1) (row c + 1 + 1)) by lia.
  rewrite (range_three (col c - 1) (col c + 1 + 1)) by lia.
  cbn [flat_map map app].
  repeat (constructor;
          [cbn [In]; intros H;
           repeat (destruct H as [H|H]; [injection H; lia|]); exact H |]).
  constructor.
Qed.

Lemma own_cell_only_self_destructs (g : Game) (c : Coord) :
  GameM.is_valid_move g (mkCoordPair c c) = false
  /\ GameM.is_valid_attack g (mkCoordPair c c) = false
  /\ GameM.is_valid_repair g (mkCoordPair c c) = false.
Proof.
  assert (forall b : bool, (b = true -> False) -> b = false) as Hnot
    by (intros [|] H; [exfalso; apply H; reflexivity | reflexivity]).
  split; [|split]; apply Hnot; intros H.
  - apply is_valid_move_cells in H. destruct H as [_ [u [Hs Hd]]]. cbn [src dst] in Hs, Hd.
    rewrite Hs in Hd. discriminate.
  - apply is_valid_attack_spec in H. destruct H as [_ [_ [us [ut [_ [_ [_ Hadj]]]]]]].
    exact (adjacent_ne c c Hadj eq_refl).
  - apply is_valid_repair_spec in H. destruct H as [_ [_ [us [ut [_ [_ [_ [_ Hadj]]]]]]]].
    exact (adjacent_ne c c Hadj eq_refl).
Qed.

(** When [perform_move] is given a unit's own cell twice the unit
    self-destructs: it leaves the board, each of the eight cells around it
    takes 2 points of damage (a unit brought to 0 leaves the board too), and
    no cell further away changes. *)
Theorem self_destruct_outcome (g g' : Game) (c : Coord) (u : Unit)
        (ok : bool) (text : string) :
  board_wf g -> GameM.get g c = Some u -> health u <= 9 ->
  Moves.perform_move g (mkCoordPair c c) = Ret ((ok, text), g') ->
  ok = true
  /\ GameM.get g' c = None
  /\ (forall c', c' <> c ->
        row c - 1 <= row c' <= row c + 1 -> col c - 1 <= col c' <= col c + 1 ->
        GameM.get g' c' = after_mod_health (GameM.get g c') (-2))
  /\ (forall c', ~ (row c - 1 <= row c' <= row c + 1 /\ col c - 1 <= col c' <= col c + 1) ->
        GameM.get g' c' = GameM.get g c').
Proof.
  intros Hb Hg Hh Hp. unfold Moves.perform_move in Hp.
  destruct (own_cell_only_self_destructs g c) as [Hm [Ha Hr]].
  rewrite Hm, Ha, Hr, (can_self_destruct_own_cell g c u Hg) in Hp.
  apply ebind_ret in Hp. destruct Hp as [s [_ Hp]]. injection Hp as <- _ <-.
  split; [reflexivity|]. unfold Moves.do_self_destruct. cbn [src].
  set (g1 := GameM.mod_health g c (-9)).
  destruct (mod_health_get g c (-9) Hb) as [Hat Hfr]. fold g1 in Hat, Hfr.
  assert (GameM.get g1 c = None) as Hgone.
  { rewrite Hat, Hg. unfold after_mod_health, survivor, UnitM.is_alive, UnitM.mod_health.
    cbn [health]. destruct (Z.ltb_spec (health u + -9) 0); [reflexivity|].
    destruct (Z.gtb_spec (health u + -9) 9); [lia|].
    destruct (Z.gtb_spec (health u + -9) 0); [lia | reflexivity]. }
  assert (board_wf g1) as Hb1 by (apply mod_health_board_wf; exact Hb).
  destruct (fold_mod_health_get (CoordM.iter_range c 1) (-2) (iter_range_one_NoDup c) g1 Hb1)
    as [Hin Hout].
  split; [|split].
  - rewrite Hin by (apply in_iter_range; lia). rewrite Hgone. reflexivity.
  - intros c' Hne Hrow Hcol. rewrite Hin by (apply in_iter_range; lia).
    rewrite (Hfr c' Hne). reflexivity.
  - intros c' Hfar. rewrite Hout by (rewrite in_iter_range; exact Hfar).
    apply Hfr. intros ->. apply Hfar. lia.
Qed.

Lemma self_destruct_outcome_witness :
  true = true
  /\ GameM.get game_after_blast (mkCoord 3 3) = None
  /\ (forall c', c' <> mkCoord 3 3 ->
        row (mkCoord 3 3) - 1 <= row c' <= row (mkCoord 3 3) + 1 ->
        col (mkCoord 3 3) - 1 <= col c' <= col (mkCoord 3 3) + 1 ->
        GameM.get game_after_blast c' = after_mod_health (GameM.get game0 c') (-2))
  /\ (forall c', ~ (row (mkCoord 3 3) - 1 <= row c' <= row (mkCoord 3 3) + 1
                    /\ col (mkCoord 3 3) - 1 <= col c' <= col (mkCoord 3 3) + 1) ->
        GameM.get game_after_blast c' = GameM.get game0 c').
Proof.
  assert (forall c, GameM.get game_after_blast c
                    = GameM.get (Moves.do_self_destruct game0 (pair_of 3 3 3 3)) c) as E
    by reflexivity.
  pose proof (self_destruct_outcome game0 (Moves.do_self_destruct game0 (pair_of 3 3 3 3))
                (mkCoord 3 3) (mkUnit Attacker Firewall 9) true
                "Attacker - turn #1: self-destruct D3 -> D3"%string
                (proj1 game0_wf) ltac:(vm_compute; reflexivity) ltac:(vm_compute; discriminate)
                ltac:(vm_compute; reflexivity)) as [H1 [H2 [H3 H4]]].
  split; [exact H1|]. split; [rewrite E; exact H2|].
  split; [intros c' A B C; rewrite E; apply H3; assumption|].
  intros c' A. rewrite E. apply H4. exact A.
Defined.

(* ================================================================== *)
(** * Reading and printing coordinates *)
(* ================================================================== *)

Lemma reads_back_table :
  forallb (fun r => forallb (fun k => reads_back (mkCoord r k)) (CoordM.range 0 16))
          (CoordM.range 0 26) = true.
Proof. vm_compute. reflexivity. Qed.

Lemma reads_back_printable (c : Coord) :
  0 <= row c < 26 -> 0 <= col c < 16 -> reads_back c = true.
Proof.
  intros Hr Hc. pose proof reads_back_table as H.
  rewrite forallb_forall in H. specialize (H (row c) (proj2 (in_range_iff 0 26 (row c)) Hr)).
  rewrite forallb_forall in H. specialize (H (col c) (proj2 (in_range_iff 0 16 (col c)) Hc)).
  destruct c. exact H.
Qed.

Lemma reads_back_chars (c : Coord) :
  reads_back c = true ->
  exists a b, CoordM.to_string c = Ret (String a (String b EmptyString))
    /\ Parsing.is_space a = false /\ Parsing.is_sep a = false
    /\ Parsing.is_space b = false /\ Parsing.is_sep b = false
    /\ Parsing.row_of a = row c /\ Parsing.col_of b = col c.
Proof.
  unfold reads_back. destruct (CoordM.to_string c) as [s|]; [|discriminate].
  destruct s as [|a [|b [|x s]]]; cbn [list_ascii_of_string]; try discriminate.
  intros H. exists a, b. split; [reflexivity|].
  repeat (apply andb_prop in H; destruct H as [H ?]).
  repeat match goal with
         | X : negb _ = true |- _ => apply negb_true_iff in X
         | X : (_ =? _) = true |- _ => apply Z.eqb_eq in X
         end.
  repeat split; assumption.
Qed.

Lemma strip_two (a b : ascii) (rest : list ascii) :
  Parsing.is_space a = false -> Parsing.is_space b = false ->
  Parsing.strip (a :: rest ++ [b]) = a :: rest ++ [b].
Proof.
  intros Ha Hb. unfold Parsing.strip. cbn [Parsing.strip_left]. rewrite Ha.
  replace (rev (a :: rest ++ [b])) with (b :: rev rest ++ [a])
    by (cbn [rev]; rewrite rev_app_distr; reflexivity).
  cbn [Parsing.strip_left]. rewrite Hb.
  cbn [rev]. rewrite rev_app_distr, rev_involutive. reflexivity.
Qed.

(** Printing a coordinate of the printable range (rows A..Z, columns 0..f)
    and reading the text back gives the coordinate again. *)
Theorem coord_text_round_trip (c : Coord) :
  0 <= row c < 26 -> 0 <= col c < 16 ->
  exists s, CoordM.to_string c = Ret s /\ Parsing.coord_from_string s = Some c.
Proof.
  intros Hr Hc.
  destruct (reads_back_chars c (reads_back_printable c Hr Hc))
    as [a [b [Hs [Ha1 [Ha2 [Hb1 [Hb2 [Hrow Hcol]]]]]]]].
  exists (String a (String b EmptyString)). split; [exact Hs|].
  unfold Parsing.coord_from_string. cbn [list_ascii_of_string].
  pose proof (strip_two a b [] Ha1 Hb1) as Hst. cbn [app] in Hst. rewrite Hst.
  cbn [Parsing.remove_seps List.filter].
  rewrite Ha2, Hb2. cbn [negb]. rewrite Hrow, Hcol. destruct c; reflexivity.
Qed.

Lemma coord_text_round_trip_witness :
  exists s, CoordM.to_string (mkCoord 3 2) = Ret s
            /\ Parsing.coord_from_string s = Some (mkCoord 3 2).
Proof. apply (coord_text_round_trip (mkCoord 3 2)); cbn [row col]; lia. Defined.

(** The same for a pair of coordinates, printed as the two coordinates
    separated by a blank. *)
Theorem pair_text_round_trip (p : CoordPair) :
  0 <= row (src p) < 26 -> 0 <= col (src p) < 16 ->
  0 <= row (dst p) < 26 -> 0 <= col (dst p) < 16 ->
  exists s, CoordPairM.to_string p = Ret s /\ Parsing.pair_from_string s = Some p.
Proof.
  intros Hsr Hsc Hdr Hdc.
  destruct (reads_back_chars _ (reads_back_printable (src p) Hsr Hsc))
    as [a [b [Hs [Ha1 [Ha2 [Hb1 [Hb2 [Hrow Hcol]]]]]]]].
  destruct (reads_back_chars _ (reads_back_printable (dst p) Hdr Hdc))
    as [a' [b' [Hs' [Ha1' [Ha2' [Hb1' [Hb2' [Hrow' Hcol']]]]]]]].
  eexists. unfold CoordPairM.to_string. rewrite Hs, Hs'. cbn [ebind].
  split; [reflexivity|].
  unfold Parsing.pair_from_string.
  change (String a (String b "") ++ " " ++ String a' (String b' ""))%string
    with (String a (String b (String " " (String a' (String b' ""))))).
  cbn [list_ascii_of_string].
  pose proof (strip_two a b' [b; " "%char; a'] Ha1 Hb1') as Hst. cbn [app] in Hst.
  rewrite Hst. cbn [Parsing.remove_seps List.filter].
  rewrite Ha2, Hb2, Ha2', Hb2'.
  replace (Parsing.is_sep " ") with true by (vm_compute; reflexivity).
  cbn [negb]. rewrite Hrow, Hcol, Hrow', Hcol'. destruct p as [[? ?] [? ?]]. reflexivity.
Qed.

Lemma pair_text_round_trip_witness :
  exists s, CoordPairM.to_string (pair_of 3 2 2 2) = Ret s
            /\ Parsing.pair_from_string s = Some (pair_of 3 2 2 2).
Proof. apply (pair_text_round_trip (pair_of 3 2 2 2)); cbn [row col src dst pair_of]; lia. Defined.

Lemma find_from_bounds (hay : list ascii) (ch : ascii) (i : Z) :
  Parsing.find_from hay ch i = -1
  \/ i <= Parsing.find_from hay ch i < i + Z.of_nat (length hay).
Proof.
  revert i. induction hay as [|a rest IH]; intros i; [left; reflexivity|].
  cbn [Parsing.find_from length]. destruct (Ascii.eqb a ch); [right; lia|].
  destruct (IH (i + 1)) as [H|H]; [left; exact H | right; lia].
Qed.

Lemma row_of_bounds (a : ascii) : -1 <= Parsing.row_of a < 26.
Proof.
  unfold Parsing.row_of, Parsing.find.
  destruct (find_from_bounds (list_ascii_of_string "ABCDEFGHIJKLMNOPQRSTUVWXYZ")
              (Parsing.upper a) 0) as [H|H];
    [|change (length (list_ascii_of_string "ABCDEFGHIJKLMNOPQRSTUVWXYZ")) with 26%nat in H];
    revert H; generalize (Parsing.find_from (list_ascii_of_string "ABCDEFGHIJKLMNOPQRSTUVWXYZ")
                                            (Parsing.upper a) 0); intros z H; lia.
Qed.

Lemma col_of_bounds (a : ascii) : -1 <= Parsing.col_of a < 16.
Proof.
  unfold Parsing.col_of, Parsing.find.
  destruct (find_from_bounds (list_ascii_of_string "0123456789abcdef")
              (Parsing.lower a) 0) as [H|H];
    [|change (length (list_ascii_of_string "0123456789abcdef")) with 16%nat in H];
    revert H; generalize (Parsing.find_from (list_ascii_of_string "0123456789abcdef")
                                            (Parsing.lower a) 0); intros z H; lia.
Qed.

Lemma to_string_from_bounds (r k : Z) :
  -1 <= r < 26 -> -1 <= k < 16 -> exists s, CoordM.to_string (mkCoord r k) = Ret s.
Proof. intros Hr Hk. apply to_string_total; cbn [row col]; lia. Qed.

Lemma perform_move_in_bounds (g : Game) (ra ka rb kb : Z) :
  -1 <= ra < 26 -> -1 <= ka < 16 -> -1 <= rb < 26 -> -1 <= kb < 16 ->
  exists ok text g',
    Moves.perform_move g (mkCoordPair (mkCoord ra ka) (mkCoord rb kb)) = Ret ((ok, text), g').
Proof.
  intros Hra Hka Hrb Hkb.
  destruct (to_string_total (mkCoord ra ka)) as [sa Hsa]; [cbn [row]; lia | cbn [col]; lia |].
  destruct (to_string_total (mkCoord rb kb)) as [sb Hsb]; [cbn [row]; lia | cbn [col]; lia |].
  destruct (perform_move_total g (mkCoordPair (mkCoord ra ka) (mkCoord rb kb)) sa sb Hsa Hsb)
    as [text [g' H']].
  eexists. exists text, g'. exact H'.
Qed.

(** Whatever text [CoordPair.from_string] accepts, the coordinates it
    returns lie in rows -1..25 and columns -1..15 (-1 for a character that is
    no row letter or column digit), and [perform_move] called with them
    returns without raising, in every state. *)
Theorem parsed_moves_never_raise (s : string) (p : CoordPair) (g : Game) :
  Parsing.pair_from_string s = Some p ->
  (-1 <= row (src p) < 26 /\ -1 <= col (src p) < 16
   /\ -1 <= row (dst p) < 26 /\ -1 <= col (dst p) < 16)
  /\ exists ok text g', Moves.perform_move g p = Ret ((ok, text), g').
Proof.
  unfold Parsing.pair_from_string.
  destruct (Parsing.remove_seps _) as [|a [|b [|c [|d [|x l]]]]]; try discriminate.
  intros E. injection E as <-. cbn [src dst row col].
  pose proof (row_of_bounds a) as Ha. pose proof (col_of_bounds b) as Hb.
  pose proof (row_of_bounds c) as Hc. pose proof (col_of_bounds d) as Hd.
  revert Ha Hb Hc Hd.
  generalize (Parsing.row_of a) (Parsing.col_of b) (Parsing.row_of c) (Parsing.col_of d).
  intros ra kb rc kd Ha Hb Hc Hd.
  split; [exact (conj Ha (conj Hb (conj Hc Hd)))|].
  exact (perform_move_in_bounds g ra kb rc kd Ha Hb Hc Hd).
Qed.

Lemma parsed_moves_never_raise_witness :
  (-1 <= row (src (pair_of 3 (-1) (-1) 2)) < 26 /\ -1 <= col (src (pair_of 3 (-1) (-1) 2)) < 16
   /\ -1 <= row (dst (pair_of 3 (-1) (-1) 2)) < 26
   /\ -1 <= col (dst (pair_of 3 (-1) (-1) 2)) < 16)
  /\ exists ok text g', Moves.perform_move game0 (pair_of 3 (-1) (-1) 2) = Ret ((ok, text), g').
Proof.
  apply (parsed_moves_never_raise " d-z, ?2 "%string (pair_of 3 (-1) (-1) 2) game0).
  vm_compute. reflexivity.
Defined.

(* ================================================================== *)
(** * Candidates of the random player *)
(* ================================================================== *)

Lemma is_valid_move_owner_adjacent (g : Game) (coords : CoordPair) :
  GameM.is_valid_move g coords = true ->
  exists u, GameM.get g (src coords) = Some u /\ player u = next_player g
            /\ In (dst coords) (CoordM.iter_adjacent (src coords)).
Proof.
  unfold GameM.is_valid_move.
  destruct (negb _ || negb _); [discriminate|].
  destruct (GameM.get g (src coords)) as [u|]; [|discriminate].
  destruct (PlayerM.eqb (player u) (next_player g)) eqn:Hp; cbn [negb]; [|discriminate].
  destruct (GameM.get g (dst coords)); [discriminate|].
  intros H. apply guard_chain in H. destruct H as [_ [_ [_ H]]].
  exists u. split; [reflexivity|]. split; [apply PlayerM_eqb_eq; exact Hp|].
  apply adjacent_existsb. exact H.
Qed.

Lemma move_candidates_in (g : Game) (mv : CoordPair) :
  In mv (move_candidates g) ->
  exists u, GameM.get g (src mv) = Some u /\ player u = next_player g
            /\ (dst mv = src mv \/ GameM.is_valid_move g mv = true).
Proof.
  unfold move_candidates. rewrite in_flat_map. intros [su [Hsu Hin]].
  apply player_units_owner in Hsu. destruct Hsu as [Hg Hp].
  apply in_app_iff in Hin. destruct Hin as [Hin|[<-|[]]].
  - apply filter_In in Hin. destruct Hin as [Hin Hv].
    apply in_map_iff in Hin. destruct Hin as [d [<- _]]. cbn [src dst] in *.
    exists (snd su). split; [exact Hg|]. split; [exact Hp|]. right. exact Hv.
  - cbn [src dst]. exists (snd su). split; [exact Hg|]. split; [exact Hp|]. left. reflexivity.
Qed.

(** [move_candidates] lists exactly the pairs whose source holds a unit of
    the side to move and whose destination is either that same cell or a
    cell [is_valid_move] accepts. *)
Theorem move_candidates_spec (g : Game) (mv : CoordPair) :
  In mv (move_candidates g) <->
  exists u, GameM.get g (src mv) = Some u /\ player u = next_player g
            /\ (dst mv = src mv \/ GameM.is_valid_move g mv = true).
Proof.
  split; [apply move_candidates_in|].
  intros [u [Hg [Hp Hd]]]. unfold move_candidates. apply in_flat_map.
  exists (src mv, u). split; [apply player_units_complete; assumption|].
  cbn [fst]. apply in_app_iff. destruct Hd as [Hd|Hv].
  - right. left. destruct mv as [s d]. cbn [src dst] in Hd. subst d. reflexivity.
  - left. apply filter_In. split; [|exact Hv].
    destruct (is_valid_move_owner_adjacent g mv Hv) as [_ [_ [_ Hadj]]].
    apply in_map_iff. exists (dst mv). split; [destruct mv; reflexivity | exact Hadj].
Qed.

(** Every candidate of [move_candidates], the list [random_move] draws
    from, is accepted by [perform_move] without raising, and none of them is
    an attack or a repair: the random player only moves or self-destructs. *)
Theorem move_candidates_accepted (g : Game) (mv : CoordPair) :
  In mv (move_candidates g) ->
  GameM.is_valid_attack g mv = false
  /\ GameM.is_valid_repair g mv = false
  /\ exists text g', Moves.perform_move g mv = Ret ((true, text), g').
Proof.
  intros Hin. destruct (move_candidates_in g mv Hin) as [u [Hg [Hp Hd]]].
  assert (forall b : bool, (b = true -> False) -> b = false) as Hnot
    by (intros [|] H; [exfalso; apply H; reflexivity | reflexivity]).
  assert (In (dst mv) (CoordM.iter_adjacent (src mv) ++ [src mv])) as Hadj.
  { apply in_app_iff. destruct Hd as [->|Hv]; [right; left; reflexivity|].
    left. destruct (is_valid_move_owner_adjacent g mv Hv) as [_ [_ [_ H]]]. exact H. }
  destruct (candidate_printable g (src mv) (dst mv) (get_some_valid _ _ _ Hg) Hadj)
    as [[a Ha] [b Hb]].
  destruct (perform_move_total g mv a b Ha Hb) as [text [g' Hperf]].
  destruct Hd as [Hd|Hv].
  - destruct mv as [s d]. cbn [src dst] in *. subst d.
    destruct (own_cell_only_self_destructs g s) as [Hm [Hat Hr]].
    split; [exact Hat|]. split; [exact Hr|].
    rewrite Hm, Hat, Hr, (can_self_destruct_own_cell g s u Hg) in Hperf.
    exists text, g'. exact Hperf.
  - destruct (is_valid_move_cells g mv Hv) as [_ [u' [_ Hnone]]].
    assert (GameM.is_valid_attack g mv = false) as Hat.
    { apply Hnot. intros H. apply is_valid_attack_spec in H.
      destruct H as [_ [_ [us [ut [_ [Ht _]]]]]]. rewrite Hnone in Ht. discriminate. }
    assert (GameM.is_valid_repair g mv = false) as Hr.
    { apply Hnot. intros H. apply is_valid_repair_spec in H.
      destruct H as [_ [_ [us [ut [_ [Ht _]]]]]]. rewrite Hnone in Ht. discriminate. }
    split; [exact Hat|]. split; [exact Hr|].
    rewrite Hv in Hperf. exists text, g'. exact Hperf.
Qed.

Lemma move_candidates_accepted_witness :
  GameM.is_valid_attack game0 (pair_of 2 4 2 3) = false
  /\ GameM.is_valid_repair game0 (pair_of 2 4 2 3) = false
  /\ exists text g', Moves.perform_move game0 (pair_of 2 4 2 3) = Ret ((true, text), g').
Proof.
  apply (move_candidates_accepted game0 (pair_of 2 4 2 3)).
  vm_compute. repeat first [left; reflexivity | right].
Defined.

(* ================================================================== *)
(** * Evaluation counts *)
(* ================================================================== *)

Lemma counted_refl (st : SearchState) : is_time_out st = false -> counted st st 0.
Proof.
  intros H. unfold counted. split; [exact H|]. split; [reflexivity|].
  split; [lia | reflexivity].
Qed.

Lemma counted_trans (st st1 st2 : SearchState) (n m : Z) :
  counted st st1 n -> counted st1 st2 m -> counted st st2 (n + m).
Proof.
  intros [_ [Hd1 [He1 Ho1]]] [Ht2 [Hd2 [He2 Ho2]]]. rewrite Hd1 in *.
  split; [exact Ht2|]. split; [exact Hd2|]. split; [lia|].
  intros d Hd. rewrite (Ho2 d Hd). apply Ho1, Hd.
Qed.

Lemma counted_tick (st : SearchState) :
  is_time_out st = false -> counted st (Search.tick st) 0.
Proof.
  intros H. unfold counted, evals_at. cbn [Search.tick is_time_out current_depth stats].
  split; [exact H|]. split; [reflexivity|]. split; [lia | reflexivity].
Qed.

Lemma counted_update_average_branching (st : SearchState) (bf : Z) :
  is_time_out st = false -> counted st (Search.update_average_branching st bf) 0.
Proof.
  intros H. unfold counted, evals_at, Search.update_average_branching.
  cbn [is_time_out current_depth stats evaluations_per_depth].
  split; [exact H|]. split; [reflexivity|]. split; [lia | reflexivity].
Qed.

Lemma counted_update_evaluations_per_depth (st : SearchState) :
  is_time_out st = false -> counted st (Search.update_evaluations_per_depth st) 1.
Proof.
  intros H. unfold counted, evals_at, Search.update_evaluations_per_depth.
  cbn [is_time_out current_depth stats evaluations_per_depth].
  split; [exact H|]. split; [reflexivity|].
  destruct (evaluations_per_depth (stats st) !! current_depth st) as [k|] eqn:E.
  - rewrite E. rewrite lookup_insert_eq. split; [reflexivity|].
    intros d Hd. apply lookup_insert_ne. intros E'. apply Hd. symmetry. exact E'.
  - rewrite lookup_insert_eq. rewrite lookup_insert_eq. split; [reflexivity|].
    intros d Hd. rewrite !lookup_insert_ne by (intros E'; apply Hd; symmetry; exact E').
    reflexivity.
Qed.

Lemma counted_leaf (st : SearchState) :
  is_time_out st = false ->
  counted st (Search.update_evaluations_per_depth (Search.tick st)) 1.
Proof.
  intros H. change 1 with (0 + 1).
  apply (counted_trans st (Search.tick st)); [apply counted_tick; exact H|].
  apply counted_update_evaluations_per_depth. exact H.
Qed.

Lemma mm_leaves_nonneg (depth : nat) : forall g, 0 <= mm_leaves depth g.
Proof.
  induction depth as [|d IH]; intros g; cbn [mm_leaves]; [lia|].
  destruct (Moves.is_finished g); [lia|].
  induction (children_of g) as [|c l IHl]; cbn [fold_right]; [lia|].
  specialize (IH (fst c)). lia.
Qed.

Lemma mm_max_loop_counted (rec : Search.RecMM) (cnt : Game -> Z)
      (children : list (Game * CoordPair)) :
  (forall c st, In c children -> is_time_out st = false ->
     exists r st1, rec (fst c) false st = Ret (r, st1) /\ counted st st1 (cnt (fst c))) ->
  forall m bm bf st, is_time_out st = false ->
  exists vb bf' st',
    Search.mm_max_loop rec children m bm bf st = Ret (Fell vb bf' st')
    /\ counted st st' (fold_right (fun c n => cnt (fst c) + n) 0 children).
Proof.
  induction children as [|[child move] rest IH]; intros Hrec m bm bf st Hst.
  - exists (m, bm), bf, st. split; [reflexivity | apply counted_refl; exact Hst].
  - destruct (Hrec (child, move) st (or_introl eq_refl) Hst) as [[eval mv] [st1 [Hr Hc]]].
    cbn [fst] in Hr, Hc. cbn [Search.mm_max_loop fold_right fst]. rewrite Hr. cbn [ebind].
    rewrite (proj1 Hc).
    assert (forall c st, In c rest -> is_time_out st = false ->
              exists r st1, rec (fst c) false st = Ret (r, st1) /\ counted st st1 (cnt (fst c)))
      as Hrest by (intros c s Hin; apply Hrec; right; exact Hin).
    destruct (eval >? m);
      [destruct (IH Hrest eval (Some move) (bf + 1) st1 (proj1 Hc)) as [vb [bf' [st' [-> Hc']]]]
      |destruct (IH Hrest m bm (bf + 1) st1 (proj1 Hc)) as [vb [bf' [st' [-> Hc']]]]];
      exists vb, bf', st'; (split; [reflexivity|]);
      exact (counted_trans _ _ _ _ _ Hc Hc').
Qed.

Lemma mm_min_loop_counted (rec : Search.RecMM) (cnt : Game -> Z)
      (children : list (Game * CoordPair)) :
  (forall c st, In c children -> is_time_out st = false ->
     exists r st1, rec (fst c) true st = Ret (r, st1) /\ counted st st1 (cnt (fst c))) ->
  forall m bm bf st, is_time_out st = false ->
  exists vb bf' st',
    Search.mm_min_loop rec children m bm bf st = Ret (Fell vb bf' st')
    /\ counted st st' (fold_right (fun c n => cnt (fst c) + n) 0 children).
Proof.
  induction children as [|[child move] rest IH]; intros Hrec m bm bf st Hst.
  - exists (m, bm), bf, st. split; [reflexivity | apply counted_refl; exact Hst].
  - destruct (Hrec (child, move) st (or_introl eq_refl) Hst) as [[eval mv] [st1 [Hr Hc]]].
    cbn [fst] in Hr, Hc. cbn [Search.mm_min_loop fold_right fst]. rewrite Hr. cbn [ebind].
    rewrite (proj1 Hc).
    assert (forall c st, In c rest -> is_time_out st = false ->
              exists r st1, rec (fst c) true st = Ret (r, st1) /\ counted st st1 (cnt (fst c)))
      as Hrest by (intros c s Hin; apply Hrec; right; exact Hin).
    destruct (eval <? m);
      [destruct (IH Hrest eval (Some move) (bf + 1) st1 (proj1 Hc)) as [vb [bf' [st' [-> Hc']]]]
      |destruct (IH Hrest m bm (bf + 1) st1 (proj1 Hc)) as [vb [bf' [st' [-> Hc']]]]];
      exists vb, bf', st'; (split; [reflexivity|]);
      exact (counted_trans _ _ _ _ _ Hc Hc').
Qed.

Lemma minimax_counted (clock : nat -> bool) (depth : nat) :
  (forall n, clock n = false) ->
  forall g flag st, is_time_out st = false ->
  exists r st', Search.minimax clock depth g flag st = Ret (r, st')
                /\ counted st st' (mm_leaves depth g).
Proof.
  intros Hclock. induction depth as [|d IH]; intros g flag st Hst.
  - cbn [Search.minimax mm_leaves]. rewrite Hclock.
    eexists _, _. split; [reflexivity | apply counted_leaf; exact Hst].
  - cbn [Search.minimax mm_leaves]. rewrite Hclock.
    destruct (Moves.is_finished g).
    { eexists _, _. split; [reflexivity | apply counted_leaf; exact Hst]. }
    rewrite (children_of_get_children g). cbn [ebind]. destruct flag.
    + destruct (mm_max_loop_counted (Search.minimax clock d) (mm_leaves d) (children_of g)
                  (fun c s _ Hs => IH (fst c) false s Hs)
                  MIN_HEURISTIC_SCORE None 0 (Search.tick st) Hst)
        as [vb [bf [st' [-> Hc]]]].
      cbn [ebind Search.finish_loop]. eexists _, _. split; [reflexivity|].
      replace (fold_right _ 0 (children_of g))
        with (0 + fold_right (fun c n => mm_leaves d (fst c) + n) 0 (children_of g) + 0) by lia.
      apply (counted_trans st st' _ _ 0).
      * apply (counted_trans st (Search.tick st)); [apply counted_tick; exact Hst | exact Hc].
      * apply counted_update_average_branching. exact (proj1 Hc).
    + destruct (mm_min_loop_counted (Search.minimax clock d) (mm_leaves d) (children_of g)
                  (fun c s _ Hs => IH (fst c) true s Hs)
                  MAX_HEURISTIC_SCORE None 0 (Search.tick st) Hst)
        as [vb [bf [st' [-> Hc]]]].
      cbn [ebind Search.finish_loop]. eexists _, _. split; [reflexivity|].
      replace (fold_right _ 0 (children_of g))
        with (0 + fold_right (fun c n => mm_leaves d (fst c) + n) 0 (children_of g) + 0) by lia.
      apply (counted_trans st st' _ _ 0).
      * apply (counted_trans st (Search.tick st)); [apply counted_tick; exact Hst | exact Hc].
      * apply counted_update_average_branching. exact (proj1 Hc).
Qed.

Lemma sum_nonneg (cnt : Game -> Z) (children : list (Game * CoordPair)) :
  (forall c, In c children -> 0 <= cnt (fst c)) ->
  0 <= fold_right (fun c n => cnt (fst c) + n) 0 children.
Proof.
  induction children as [|c l IH]; intros H; cbn [fold_right]; [lia|].
  specialize (H c (or_introl eq_refl)) as H0.
  specialize (IH (fun c' Hc' => H c' (or_intror Hc'))). lia.
Qed.

Lemma ab_max_loop_counted (rec : Search.Rec) (cnt : Game -> Z)
      (children : list (Game * CoordPair)) :
  (forall c, In c children -> 0 <= cnt (fst c)) ->
  (forall c alpha beta st, In c children -> is_time_out st = false ->
     exists r st1 n, rec (fst c) alpha beta false st = Ret (r, st1)
                     /\ counted st st1 n /\ 1 <= n <= cnt (fst c)) ->
  forall vb alpha beta bf st, is_time_out st = false ->
  exists vb' bf' st' n,
    Search.ab_max_loop rec children vb alpha beta bf st = Ret (Fell vb' bf' st')
    /\ counted st st' n
    /\ (children <> [] -> 1 <= n)
    /\ 0 <= n <= fold_right (fun c n => cnt (fst c) + n) 0 children.
Proof.
  induction children as [|[child move] rest IH]; intros Hpos Hrec vb alpha beta bf st Hst.
  - exists vb, bf, st, 0. split; [reflexivity|]. split; [apply counted_refl; exact Hst|].
    split; [intros H; contradiction | cbn [fold_right]; lia].
  - destruct (Hrec (child, move) alpha beta st (or_introl eq_refl) Hst)
      as [[res mv] [st1 [n1 [Hr [Hc Hn1]]]]].
    cbn [fst] in Hr, Hn1. cbn [Search.ab_max_loop fold_right fst]. rewrite Hr. cbn [ebind].
    rewrite (proj1 Hc).
    pose proof (sum_nonneg cnt rest (fun c Hc' => Hpos c (or_intror Hc'))) as Hsum.
    match goal with |- context [if ?b <=? ?a then _ else _] => destruct (b <=? a) end.
    + eexists _, _, st1, n1. split; [reflexivity|]. split; [exact Hc|]. split; lia.
    + match goal with
      | |- context [Search.ab_max_loop rec rest ?v ?a ?b ?f st1] =>
          destruct (IH (fun c Hc' => Hpos c (or_intror Hc'))
                       (fun c a' b' s Hin => Hrec c a' b' s (or_intror Hin))
                       v a b f st1 (proj1 Hc)) as [vb' [bf' [st' [n [-> [Hc' [_ Hn]]]]]]]
      end.
      exists vb', bf', st', (n1 + n). split; [reflexivity|].
      split; [exact (counted_trans _ _ _ _ _ Hc Hc')|]. split; lia.
Qed.

Lemma ab_min_loop_counted (rec : Search.Rec) (cnt : Game -> Z)
      (children : list (Game * CoordPair)) :
  (forall c, In c children -> 0 <= cnt (fst c)) ->
  (forall c alpha beta st, In c children -> is_time_out st = false ->
     exists r st1 n, rec (fst c) alpha beta true st = Ret (r, st1)
                     /\ counted st st1 n /\ 1 <= n <= cnt (fst c)) ->
  forall vb alpha beta bf st, is_time_out st = false ->
  exists vb' bf' st' n,
    Search.ab_min_loop rec children vb alpha beta bf st = Ret (Fell vb' bf' st')
    /\ counted st st' n
    /\ (children <> [] -> 1 <= n /\ bf' = Some 0)
    /\ (children = [] -> bf' = bf)
    /\ 0 <= n <= fold_right (fun c n => cnt (fst c) + n) 0 children.
Proof.
  induction children as [|[child move] rest IH]; intros Hpos Hrec vb alpha beta bf st Hst.
  - exists vb, bf, st, 0. split; [reflexivity|]. split; [apply counted_refl; exact Hst|].
    split; [intros H; contradiction|]. split; [reflexivity | cbn [fold_right]; lia].
  - destruct (Hrec (child, move) alpha beta st (or_introl eq_refl) Hst)
      as [[res mv] [st1 [n1 [Hr [Hc Hn1]]]]].
    cbn [fst] in Hr, Hn1. cbn [Search.ab_min_loop fold_right fst]. rewrite Hr. cbn [ebind].
    rewrite (proj1 Hc).
    pose proof (sum_nonneg cnt rest (fun c Hc' => Hpos c (or_intror Hc'))) as Hsum.
    match goal with |- context [if ?b <=? ?a then _ else _] => destruct (b <=? a) end.
    + eexists _, _, st1, n1. split; [reflexivity|]. split; [exact Hc|].
      split; [intros _; split; [lia | reflexivity]|]. split; [discriminate | lia].
    + match goal with
      | |- context [Search.ab_min_loop rec rest ?v ?a ?b ?f st1] =>
          destruct (IH (fun c Hc' => Hpos c (or_intror Hc'))
                       (fun c a' b' s Hin => Hrec c a' b' s (or_intror Hin))
                       v a b f st1 (proj1 Hc))
            as [vb' [bf' [st' [n [-> [Hc' [Hne [Hnil Hn]]]]]]]]
      end.
      exists vb', bf', st', (n1 + n). split; [reflexivity|].
      split; [exact (counted_trans _ _ _ _ _ Hc Hc')|].
      split; [intros _; split; [lia|] | split; [discriminate | lia]].
      destruct rest as [|c0 rest']; [apply Hnil; reflexivity | apply Hne; discriminate].
Qed.

Lemma alpha_beta_counted (clock : nat -> bool) (depth : nat) :
  (forall n, clock n = false) ->
  forall g alpha beta flag st, wf_game g -> is_time_out st = false ->
  exists r st' n, Search.alpha_beta clock depth g alpha beta flag st = Ret (r, st')
                  /\ counted st st' n /\ 1 <= n <= mm_leaves depth g.
Proof.
  intros Hclock. induction depth as [|d IH]; intros g alpha beta flag st Hwf Hst.
  - cbn [Search.alpha_beta mm_leaves]. rewrite Hclock.
    eexists _, _, 1. split; [reflexivity|]. split; [apply counted_leaf; exact Hst | lia].
  - cbn [Search.alpha_beta mm_leaves]. rewrite Hclock.
    destruct (Moves.is_finished g) eqn:Hfin.
    { eexists _, _, 1. split; [reflexivity|]. split; [apply counted_leaf; exact Hst | lia]. }
    rewrite (children_of_get_children g). cbn [ebind].
    pose proof (children_of_nonempty g Hwf Hfin) as Hne.
    assert (forall c, In c (children_of g) -> 0 <= mm_leaves d (fst c)) as Hpos
      by (intros c _; apply mm_leaves_nonneg).
    destruct flag.
    + destruct (ab_max_loop_counted (Search.alpha_beta clock d) (mm_leaves d) (children_of g) Hpos
                  (fun c a b s Hin Hs => IH (fst c) a b false s (children_of_wf g c Hwf Hin) Hs)
                  (MIN_HEURISTIC_SCORE, None) alpha beta 0 (Search.tick st) Hst)
        as [vb [bf [st' [n [-> [Hc [Hone Hn]]]]]]].
      cbn [ebind]. eexists _, _, n. split; [reflexivity|]. specialize (Hone Hne).
      split; [|lia]. replace n with (0 + n + 0) by lia.
      apply (counted_trans st st' _ _ 0).
      * apply (counted_trans st (Search.tick st)); [apply counted_tick; exact Hst | exact Hc].
      * apply counted_update_average_branching. exact (proj1 Hc).
    + destruct (ab_min_loop_counted (Search.alpha_beta clock d) (mm_leaves d) (children_of g) Hpos
                  (fun c a b s Hin Hs => IH (fst c) a b true s (children_of_wf g c Hwf Hin) Hs)
                  (MAX_HEURISTIC_SCORE, None) alpha beta None (Search.tick st) Hst)
        as [vb [bf [st' [n [-> [Hc [Hone [_ Hn]]]]]]]].
      destruct (Hone Hne) as [Hn1 ->].
      cbn [ebind]. eexists _, _, n. split; [reflexivity|].
      split; [|lia]. replace n with (0 + n + 0) by lia.
      apply (counted_trans st st' _ _ 0).
      * apply (counted_trans st (Search.tick st)); [apply counted_tick; exact Hst | exact Hc].
      * apply counted_update_average_branching. exact (proj1 Hc).
Qed.

(** Without a time-out a [minimax] call records exactly one evaluation per
    leaf of the game tree cut at its depth, all of them under the depth of
    the running iteration: that counter grows by [mm_leaves], the counters
    of other depths and the iteration depth itself are left as they were. *)
Theorem minimax_counts_leaves
        (clock : nat -> bool) (depth : nat) (g : Game) (flag : bool) (st : SearchState) :
  (forall n, clock n = false) -> is_time_out st = false ->
  exists r st',
    Search.minimax clock depth g flag st = Ret (r, st')
    /\ current_depth st' = current_depth st
    /\ evals_at st' (current_depth st) = evals_at st (current_depth st) + mm_leaves depth g
    /\ forall d, d <> current_depth st ->
         evaluations_per_depth (stats st') !! d = evaluations_per_depth (stats st) !! d.
Proof.
  intros Hclock Hst.
  destruct (minimax_counted clock depth Hclock g flag st Hst) as [r [st' [H [_ Hc]]]].
  exists r, st'. split; [exact H | exact Hc].
Qed.

Lemma minimax_counts_leaves_witness :
  exists r st',
    Search.minimax no_timeout 2 game0 true Initial.new_search = Ret (r, st')
    /\ current_depth st' = current_depth Initial.new_search
    /\ evals_at st' (current_depth Initial.new_search)
       = evals_at Initial.new_search (current_depth Initial.new_search) + mm_leaves 2 game0
    /\ forall d, d <> current_depth Initial.new_search ->
         evaluations_per_depth (stats st') !! d
         = evaluations_per_depth (stats Initial.new_search) !! d.
Proof.
  apply (minimax_counts_leaves no_timeout 2 game0 true Initial.new_search).
  - exact no_timeout_never_fires.
  - reflexivity.
Defined.

(** Pruning never costs evaluations: started from the same well-formed
    position and search state, without a time-out, [alpha_beta] with any
    window records at least one evaluation and at most as many as [minimax]
    of the same depth, and like it only under the depth of the running
    iteration. *)
Theorem alpha_beta_evaluates_no_more_than_minimax
        (clock : nat -> bool) (depth : nat) (g : Game) (alpha beta : Z) (flag : bool)
        (st : SearchState) :
  (forall n, clock n = false) -> wf_game g -> is_time_out st = false ->
  exists ra sta rm stm,
    Search.alpha_beta clock depth g alpha beta flag st = Ret (ra, sta)
    /\ Search.minimax clock depth g flag st = Ret (rm, stm)
    /\ evals_at st (current_depth st) + 1 <= evals_at sta (current_depth st)
       <= evals_at stm (current_depth st)
    /\ forall d, d <> current_depth st ->
         evaluations_per_depth (stats sta) !! d = evaluations_per_depth (stats st) !! d.
Proof.
  intros Hclock Hwf Hst.
  destruct (alpha_beta_counted clock depth Hclock g alpha beta flag st Hwf Hst)
    as [ra [sta [n [Ha [[_ [_ [Hea Hoa]]] Hn]]]]].
  destruct (minimax_counted clock depth Hclock g flag st Hst)
    as [rm [stm [Hm [_ [_ [Hem _]]]]]].
  exists ra, sta, rm, stm. split; [exact Ha|]. split; [exact Hm|].
  split; [lia | exact Hoa].
Qed.

Lemma alpha_beta_evaluates_no_more_than_minimax_witness :
  exists ra sta rm stm,
    Search.alpha_beta no_timeout 2 game0 MIN_HEURISTIC_SCORE MAX_HEURISTIC_SCORE true
                      Initial.new_search = Ret (ra, sta)
    /\ Search.minimax no_timeout 2 game0 true Initial.new_search = Ret (rm, stm)
    /\ evals_at Initial.new_search (current_depth Initial.new_search) + 1
       <= evals_at sta (current_depth Initial.new_search)
       <= evals_at stm (current_depth Initial.new_search)
    /\ forall d, d <> current_depth Initial.new_search ->
         evaluations_per_depth (stats sta) !! d
         = evaluations_per_depth (stats Initial.new_search) !! d.
Proof.
  apply (alpha_beta_evaluates_no_more_than_minimax no_timeout 2 game0
           MIN_HEURISTIC_SCORE MAX_HEURISTIC_SCORE true Initial.new_search).
  - exact no_timeout_never_fires.
  - exact game0_wf.
  - reflexivity.
Defined.

(* ================================================================== *)
(** * Size of the heuristic scores *)
(* ================================================================== *)

Lemma fold_left_bounds {A} (f : Z -> A -> Z) (l : list A) (lo hi : Z) :
  (forall x count, In x l -> count + lo <= f count x <= count + hi) ->
  forall init,
    init + lo * Z.of_nat (length l) <= fold_left f l init <= init + hi * Z.of_nat (length l).
Proof.
  induction l as [|a l IH]; intros H init; cbn [fold_left length]; [lia|].
  specialize (IH (fun x c Hx => H x c (or_intror Hx)) (f init a)).
  specialize (H a init (or_introl eq_refl)).
  rewrite Nat2Z.inj_succ, !Z.mul_succ_r. lia.
Qed.

Lemma range_length (lo hi : Z) : length (CoordM.range lo hi) = Z.to_nat (hi - lo).
Proof. unfold CoordM.range. rewrite List.length_map, List.length_seq. reflexivity. Qed.

Lemma iter_rectangle_length (d : Z) :
  0 <= d -> Z.of_nat (length (CoordPairM.iter_rectangle (CoordPairM.from_dim d))) = d * d.
Proof.
  intros Hd. unfold CoordPairM.iter_rectangle, CoordPairM.from_dim. cbn [src dst row col].
  assert (forall rows : list Z,
            length (flat_map (fun r => map (fun k => mkCoord r k) (CoordM.range 0 (d - 1 + 1)))
                             rows)
            = (length rows * Z.to_nat d)%nat) as H.
  { induction rows as [|r rows IH]; [reflexivity|].
    cbn [flat_map length]. rewrite List.length_app, IH, List.length_map, range_length.
    replace (d - 1 + 1 - 0) with d by lia. lia. }
  rewrite H, range_length. replace (d - 1 + 1 - 0) with d by lia. lia.
Qed.

Lemma player_units_length (g : Game) (p : Player) :
  0 <= dim (options g) ->
  0 <= Z.of_nat (length (Moves.player_units g p)) <= dim (options g) * dim (options g).
Proof.
  intros Hd. split; [lia|]. rewrite <- (iter_rectangle_length _ Hd).
  unfold Moves.player_units. apply inj_le.
  induction (CoordPairM.iter_rectangle _) as [|c l IH]; [reflexivity|].
  cbn [flat_map length]. rewrite List.length_app.
  destruct (GameM.get g c) as [u|]; [destruct (PlayerM.eqb (player u) p)|]; cbn [length]; lia.
Qed.

Lemma repair_amount_le (a b : Unit) : UnitM.repair_amount a b <= 3.
Proof.
  unfold UnitM.repair_amount. pose proof (table_at_repair_bounds (type a) (type b)) as H.
  destruct (Z.gtb_spec (health b + table_at repair_table (type a) (type b)) 9); lia.
Qed.

Lemma e2_adj_bounds (g : Game) (unit : Unit) (count : Z) (c : Coord) :
  1 <= health unit <= 9 ->
  count + -89991 <= Heuristics.e2_adj g unit count c <= count + 30996.
Proof.
  intros Hh. unfold Heuristics.e2_adj. destruct (GameM.get g c) as [a|]; [|lia].
  pose proof (repair_amount_le a unit) as Hr.
  destruct (negb _).
  - destruct (_ >=? _); [|lia]. destruct (type unit); cbn [Heuristics.tier]; lia.
  - destruct (Z.gtb_spec (UnitM.repair_amount a unit) 0); cbn [andb];
      [destruct (health unit <? 9)|];
      destruct (type unit); cbn [Heuristics.tier]; destruct (UnitTypeM.eqb _ _); lia.
Qed.

Lemma side_bounds (g : Game) (p : Player) :
  units_alive g -> 0 <= dim (options g) ->
  (0 <= Heuristics.e0_side g p <= 9999 * (dim (options g) * dim (options g)))
  /\ (0 <= Heuristics.e1_side g p <= 8991 * (dim (options g) * dim (options g)))
  /\ (-809919 * (dim (options g) * dim (options g)) <= Heuristics.helper_e2 g p
      <= 1178955 * (dim (options g) * dim (options g))).
Proof.
  intros Ha Hd. pose proof (player_units_length g p Hd) as Hlen.
  assert (forall cu, In cu (Moves.player_units g p) -> 1 <= health (snd cu) <= 9) as Hh
    by (intros cu Hin; apply player_units_owner in Hin; exact (Ha _ _ (proj1 Hin))).
  split; [|split].
  - unfold Heuristics.e0_side.
    pose proof (fold_left_bounds
                  (fun count (cu : Coord * Unit) =>
                     if Heuristics.is_minor (type (snd cu)) then count + 3
                     else if UnitTypeM.eqb (type (snd cu)) AI then count + 9999 else count)
                  (Moves.player_units g p) 0 9999) as H.
    cbv beta in H. specialize (H (fun x count _ => ltac:(destruct (Heuristics.is_minor _);
                                   [|destruct (UnitTypeM.eqb _ _)]; lia)) 0). nia.
  - unfold Heuristics.e1_side.
    pose proof (fold_left_bounds
                  (fun count (cu : Coord * Unit) =>
                     if Heuristics.is_minor (type (snd cu)) then count + 3 * health (snd cu)
                     else if UnitTypeM.eqb (type (snd cu)) AI
                          then count + 999 * health (snd cu) else count)
                  (Moves.player_units g p) 0 8991) as H.
    cbv beta in H.
    assert (forall (x : Coord * Unit) (count : Z), In x (Moves.player_units g p) ->
              count + 0 <= (if Heuristics.is_minor (type (snd x)) then count + 3 * health (snd x)
                            else if UnitTypeM.eqb (type (snd x)) AI
                                 then count + 999 * health (snd x) else count)
              <= count + 8991) as Hstep.
    { intros x count Hin. specialize (Hh x Hin).
      destruct (Heuristics.is_minor _); [|destruct (UnitTypeM.eqb _ _)]; lia. }
    specialize (H Hstep 0). nia.
  - unfold Heuristics.helper_e2.
    pose proof (fold_left_bounds
                  (fun count (cu : Coord * Unit) =>
                     let count1 := count + Heuristics.tier (type (snd cu)) 3 9 99999
                                           * health (snd cu) in
                     fold_left (Heuristics.e2_adj g (snd cu)) (CoordM.iter_range (fst cu) 1)
                               count1)
                  (Moves.player_units g p) (-809919) 1178955) as H.
    cbv beta zeta in H.
    assert (forall (x : Coord * Unit) (count : Z), In x (Moves.player_units g p) ->
              count + -809919
              <= fold_left (Heuristics.e2_adj g (snd x)) (CoordM.iter_range (fst x) 1)
                           (count + Heuristics.tier (type (snd x)) 3 9 99999 * health (snd x))
              <= count + 1178955) as Hstep.
    { intros x count Hin. specialize (Hh x Hin).
      pose proof (fold_left_bounds (Heuristics.e2_adj g (snd x)) (CoordM.iter_range (fst x) 1)
                    (-89991) 30996 (fun c cnt _ => e2_adj_bounds g (snd x) cnt c Hh)
                    (count + Heuristics.tier (type (snd x)) 3 9 99999 * health (snd x))) as Hin9.
      replace (length (CoordM.iter_range (fst x) 1)) with 9%nat in Hin9.
      2:{ unfold CoordM.iter_range.
          rewrite (range_three (row (fst x) - 1) (row (fst x) + 1 + 1)) by lia.
          rewrite (range_three (col (fst x) - 1) (col (fst x) + 1 + 1)) by lia.
          reflexivity. }
      revert Hin9. generalize (fold_left (Heuristics.e2_adj g (snd x))
                                 (CoordM.iter_range (fst x) 1)
                                 (count + Heuristics.tier (type (snd x)) 3 9 99999
                                          * health (snd x))).
      intros z Hz. destruct (type (snd x)); cbn [Heuristics.tier] in Hz; lia. }
    specialize (H Hstep 0). cbv zeta. nia.
Qed.

Lemma e_inside (g : Game) :
  units_alive g -> 0 <= dim (options g) <= 16 ->
  MIN_HEURISTIC_SCORE < Heuristics.e g < MAX_HEURISTIC_SCORE.
Proof.
  intros Ha Hd.
  destruct (side_bounds g Attacker Ha (proj1 Hd)) as [A0 [A1 A2]].
  destruct (side_bounds g Defender Ha (proj1 Hd)) as [D0 [D1 D2]].
  assert (0 <= dim (options g) * dim (options g) <= 256) as Hn by nia.
  revert A0 A1 A2 D0 D1 D2 Hn. generalize (dim (options g) * dim (options g)). intros n.
  unfold Heuristics.e, Heuristics.e0, Heuristics.e1, Heuristics.e2,
    MIN_HEURISTIC_SCORE, MAX_HEURISTIC_SCORE.
  intros. destruct (_ =? 0); [lia|]. destruct (_ =? 1); [lia|]. destruct (_ =? 2); lia.
Qed.

Lemma children_of_playable (g : Game) (c : Game * CoordPair) :
  playable g -> In c (children_of g) -> playable (fst c).
Proof.
  intros [Hwf [Ha Hd]] Hin. split; [exact (children_of_wf g c Hwf Hin)|].
  destruct c as [child mv].
  destruct (get_children_in g _ child mv (children_of_get_children g) Hin)
    as [s [g' [Hp ->]]].
  cbn [fst]. split.
  - intros c u Hg. rewrite (get_same_board g' (Moves.next_turn g') c eq_refl eq_refl) in Hg.
    exact (perform_move_alive g g' mv _ (proj1 Hwf) Ha Hp c u Hg).
  - cbn [Moves.next_turn options]. rewrite (perform_move_options _ _ _ _ Hp). exact Hd.
Qed.

Lemma fold_max_lt {A} (f : A -> Z) (l : list A) (hi : Z) :
  (forall a, In a l -> f a < hi) ->
  forall m, m < hi -> fold_left (fun m c => Z.max m (f c)) l m < hi.
Proof.
  induction l as [|a l IH]; intros H m Hm; cbn [fold_left]; [exact Hm|].
  apply (IH (fun x Hx => H x (or_intror Hx))).
  specialize (H a (or_introl eq_refl)). lia.
Qed.

Lemma fold_min_gt {A} (f : A -> Z) (l : list A) (lo : Z) :
  (forall a, In a l -> lo < f a) ->
  forall m, lo < m -> lo < fold_left (fun m c => Z.min m (f c)) l m.
Proof.
  induction l as [|a l IH]; intros H m Hm; cbn [fold_left]; [exact Hm|].
  apply (IH (fun x Hx => H x (or_intror Hx))).
  specialize (H a (or_introl eq_refl)). lia.
Qed.

Lemma fold_min_elem {A} (f : A -> Z) (l : list A) (m : Z) (a : A) :
  In a l -> fold_left (fun m c => Z.min m (f c)) l m <= f a.
Proof.
  revert m. induction l as [|x l IH]; intros m Hin; [destruct Hin|].
  cbn [fold_left]. destruct Hin as [->|Hin].
  - pose proof (fold_min_le f l (Z.min m (f a))). lia.
  - apply IH. exact Hin.
Qed.

(** On playable positions the minimax score is never one of the two
    sentinels. *)
Lemma mm_value_inside (depth : nat) :
  forall g flag, playable g ->
  MIN_HEURISTIC_SCORE < mm_value depth g flag < MAX_HEURISTIC_SCORE.
Proof.
  induction depth as [|d IH]; intros g flag Hp.
  - cbn [mm_value]. destruct Hp as [_ [Ha Hd]]. apply e_inside; assumption.
  - cbn [mm_value]. destruct (Moves.is_finished g) eqn:Hfin.
    { destruct Hp as [_ [Ha Hd]]. apply e_inside; assumption. }
    pose proof (children_of_nonempty g (proj1 Hp) Hfin) as Hne.
    assert (forall c b, In c (children_of g) ->
              MIN_HEURISTIC_SCORE < mm_value d (fst c) b < MAX_HEURISTIC_SCORE) as Hc
      by (intros c b Hin; apply IH; exact (children_of_playable g c Hp Hin)).
    destruct (children_of g) as [|c0 rest] eqn:E; [contradiction|].
    destruct flag.
    + split.
      * pose proof (fold_max_elem (fun c => mm_value d (fst c) false) (c0 :: rest)
                      MIN_HEURISTIC_SCORE c0 (or_introl eq_refl)) as H.
        pose proof (Hc c0 false (or_introl eq_refl)). cbv beta in H. lia.
      * apply (fold_max_lt (fun c => mm_value d (fst c) false)).
        -- intros a Hin. apply Hc. exact Hin.
        -- reflexivity.
    + split.
      * apply (fold_min_gt (fun c => mm_value d (fst c) true)).
        -- intros a Hin. apply Hc. exact Hin.
        -- reflexivity.
      * pose proof (fold_min_elem (fun c => mm_value d (fst c) true) (c0 :: rest)
                      MAX_HEURISTIC_SCORE c0 (or_introl eq_refl)) as H.
        pose proof (Hc c0 true (or_introl eq_refl)). cbv beta in H. lia.
Qed.

Lemma reachable_playable (opts : Options) (g : Game) :
  3 <= dim opts <= 16 -> reachable opts g -> playable g /\ options g = opts.
Proof.
  intros Hd H. induction H as [|g coords s g' Hreach IH Hp].
  - assert (options (Initial.post_init opts) = opts) as Ho
      by (unfold Initial.post_init; cbn [fold_left]; rewrite !set_options; reflexivity).
    split; [|exact Ho]. split; [apply (reachable_wf opts); [lia | constructor]|].
    split; [apply post_init_alive; lia | rewrite Ho; lia].
  - destruct IH as [[Hwf [Ha Hdim]] Ho].
    assert (options (Moves.next_turn g') = opts) as Ho'
      by (cbn [Moves.next_turn options]; rewrite (perform_move_options _ _ _ _ Hp); exact Ho).
    split; [|exact Ho']. split.
    + apply (reachable_wf opts); [lia | econstructor; eassumption].
    + split; [|rewrite Ho'; lia].
      intros c u Hg. rewrite (get_same_board g' (Moves.next_turn g') c eq_refl eq_refl) in Hg.
      exact (perform_move_alive g g' coords _ (proj1 Hwf) Ha Hp c u Hg).
Qed.

(** The heuristic scores stay far from the two sentinels: on a board of
    dimension [dim] holding only units with health in 1..9, [e0] and [e1]
    lie within 9999 and 8991 times [dim * dim] of zero, [e2] within 1988874
    times [dim * dim], and for [dim <= 16] the score chosen by [e] lies
    strictly between [MIN_HEURISTIC_SCORE] and [MAX_HEURISTIC_SCORE]. *)
Theorem heuristic_scores_inside_sentinels (g : Game) :
  units_alive g -> 0 <= dim (options g) ->
  Z.abs (Heuristics.e0 g) <= 9999 * (dim (options g) * dim (options g))
  /\ Z.abs (Heuristics.e1 g) <= 8991 * (dim (options g) * dim (options g))
  /\ Z.abs (Heuristics.e2 g) <= 1988874 * (dim (options g) * dim (options g))
  /\ (dim (options g) <= 16 ->
      MIN_HEURISTIC_SCORE < Heuristics.e g < MAX_HEURISTIC_SCORE).
Proof.
  intros Ha Hd.
  destruct (side_bounds g Attacker Ha Hd) as [A0 [A1 A2]].
  destruct (side_bounds g Defender Ha Hd) as [D0 [D1 D2]].
  unfold Heuristics.e0, Heuristics.e1, Heuristics.e2.
  split; [lia|]. split; [lia|]. split; [lia|].
  intros H16. apply e_inside; [exact Ha | lia].
Qed.

Lemma heuristic_scores_inside_sentinels_witness :
  Z.abs (Heuristics.e0 game_contact)
  <= 9999 * (dim (options game_contact) * dim (options game_contact))
  /\ Z.abs (Heuristics.e1 game_contact)
     <= 8991 * (dim (options game_contact) * dim (options game_contact))
  /\ Z.abs (Heuristics.e2 game_contact)
     <= 1988874 * (dim (options game_contact) * dim (options game_contact))
  /\ (dim (options game_contact) <= 16 ->
      MIN_HEURISTIC_SCORE < Heuristics.e game_contact < MAX_HEURISTIC_SCORE).
Proof.
  apply (heuristic_scores_inside_sentinels game_contact).
  - apply (reachable_playable Initial.default_options game_contact);
      [vm_compute; split; discriminate | exact game_contact_reachable].
  - vm_compute. discriminate.
Defined.

(** In every position reached in a game on a board of dimension 3 to 16,
    when the clock never fires, [alpha_beta] with the full window and
    [minimax] return the same score, and that score lies strictly between
    the two sentinels. *)
Theorem alpha_beta_agrees_with_minimax_in_play
        (opts : Options) (g : Game) (clock : nat -> bool) (depth : nat) (flag : bool)
        (st_a st_m : SearchState) :
  3 <= dim opts <= 16 -> reachable opts g -> (forall n, clock n = false) ->
  is_time_out st_a = false -> is_time_out st_m = false ->
  exists v,
    returns_score (Search.minimax clock depth g flag st_m) v
    /\ returns_score (Search.alpha_beta clock depth g MIN_HEURISTIC_SCORE
                                        MAX_HEURISTIC_SCORE flag st_a) v
    /\ MIN_HEURISTIC_SCORE < v < MAX_HEURISTIC_SCORE.
Proof.
  intros Hd Hreach Hclock Ha Hm.
  destruct (reachable_playable opts g Hd Hreach) as [Hp _].
  pose proof (mm_value_inside depth g flag Hp) as Hin.
  exists (mm_value depth g flag).
  split; [apply minimax_value; assumption|]. split; [|exact Hin].
  assert (MIN_HEURISTIC_SCORE < MAX_HEURISTIC_SCORE) as Hlt by reflexivity.
  destruct (ab_value_window depth g MIN_HEURISTIC_SCORE MAX_HEURISTIC_SCORE flag
              (Z.le_refl _) Hlt (Z.le_refl _)) as [_ [W _]].
  rewrite <- (W Hin). apply alpha_beta_value; [exact Hclock | exact (proj1 Hp) | exact Ha].
Qed.

Lemma alpha_beta_agrees_with_minimax_in_play_witness :
  exists v,
    returns_score (Search.minimax no_timeout 2 game_contact false Initial.new_search) v
    /\ returns_score (Search.alpha_beta no_timeout 2 game_contact MIN_HEURISTIC_SCORE
                                        MAX_HEURISTIC_SCORE false Initial.new_search) v
    /\ MIN_HEURISTIC_SCORE < v < MAX_HEURISTIC_SCORE.
Proof.
  apply (alpha_beta_agrees_with_minimax_in_play Initial.default_options game_contact
           no_timeout 2 false Initial.new_search Initial.new_search).
  - vm_compute. split; discriminate.
  - exact game_contact_reachable.
  - exact no_timeout_never_fires.
  - reflexivity.
  - reflexivity.
Defined.
